(** * gulp-css-gsub: the class-name replacer

    A shallow embedding of [lib/replacer.js] (the media-block-aware build)
    and proofs about its token generator, its class-name catalog, its
    substitution table and its selector rewriting. The older build of the
    same class is covered where it differs (module [Legacy]).

    Modelling conventions.
    - JavaScript strings are [string] (bytes); only ASCII letters have a
      case, as in a regular expression with the [i] flag and no [u] flag.
    - The counter is a JavaScript number, a double that holds a whole
      number. The engine ([succBody], [succ] and what is built on them)
      steps it as a natural number in binary ([N]), which is what the
      source does as long as the counter is below [2^53]; [increment] and
      [succBodyDouble] step it as the double, the two agree up to there
      (lemmas [succBodyDouble_exact], [passes_double]), and at [2^53] the
      source's loop stays where it is ([passes_stall]). Every counter
      value from [34^10] to [2^53] is rendered with a digit in front
      ([elevenDigits_invalid]), so the source's loop returns only with a
      value below [34^10] ([passes_no_return]).
    - A regular expression is represented by what it matches at a position
      (type [pattern]); the three ways the source uses one ([match] and
      [replace] with the [g] flag, [search]/[test]) are [scan] and [search].
    - The stylesheet parser, the script parser, the tree traversal and the
      serializers are collaborators: the engine receives the stylesheet
      text, its top-level rule list and the script's nodes in visit order. *)

From Stdlib Require Import String Ascii NArith List Lia Bool Sorted.
From stdpp Require Import gmap strings list.

Local Open Scope string_scope.
Local Open Scope N_scope.

(** ** Characters *)

Module Char.

Definition code (c : ascii) : N := N_of_ascii c.

Definition between (lo hi : N) (c : ascii) : bool :=
  (lo <=? code c) && (code c <=? hi).

(** [\d] *)
Definition isDigit (c : ascii) : bool := between 48 57 c.
Definition isLower (c : ascii) : bool := between 97 122 c.
Definition isUpper (c : ascii) : bool := between 65 90 c.
(** [[a-z]] under the [i] flag *)
Definition isAlpha (c : ascii) : bool := isLower c || isUpper c.
Definition isChar (x c : ascii) : bool := code c =? code x.

(** [\w], the word characters that [\b] looks at *)
Definition isWord (c : ascii) : bool := isAlpha c || isDigit c || isChar "_" c.

(** [[0-9a-zA-Z\-_]], the characters of a class name *)
Definition isCls (c : ascii) : bool :=
  isDigit c || isLower c || isUpper c || isChar "-" c || isChar "_" c.

(** Case folding of the [i] flag. *)
Definition lower (c : ascii) : ascii :=
  if isUpper c then ascii_of_N (code c + 32) else c.

Definition eqCI (a b : ascii) : bool := code (lower a) =? code (lower b).

End Char.

(** ** Strings *)

Module Str.

Fixpoint all (f : ascii -> bool) (s : string) : bool :=
  match s with
  | EmptyString => true
  | String c s' => f c && all f s'
  end.

(** First character, if any. *)
Definition head (s : string) : option ascii :=
  match s with
  | EmptyString => None
  | String c _ => Some c
  end.

(** [s.startsWith(lit)] *)
Fixpoint startsWith (lit s : string) : bool :=
  match lit, s with
  | EmptyString, _ => true
  | String a lit', String b s' => (Char.code a =? Char.code b) && startsWith lit' s'
  | String _ _, EmptyString => false
  end.

(** [s.indexOf(needle) > -1] *)
Fixpoint contains (needle s : string) : bool :=
  startsWith needle s ||
  match s with
  | EmptyString => false
  | String _ s' => contains needle s'
  end.

Definition take (n : nat) (s : string) : string := substring 0 n s.

Fixpoint drop (n : nat) (s : string) : string :=
  match n, s with
  | O, _ => s
  | S n', String _ s' => drop n' s'
  | S _, EmptyString => EmptyString
  end.

(** [parts.join(sep)] *)
Fixpoint join (sep : string) (parts : list string) : string :=
  match parts with
  | [] => ""
  | [p] => p
  | p :: rest => p ++ sep ++ join sep rest
  end.

(** [s.split(" ")]: the pieces between single spaces (never an empty list). *)
Fixpoint splitSpace (s : string) : list string :=
  match s with
  | EmptyString => [""]
  | String c s' =>
      if Char.isChar " " c then "" :: splitSpace s'
      else match splitSpace s' with
           | [] => [String c ""]
           | p :: ps => String c p :: ps
           end
  end.

(** [s.replace(/\./g, "")] *)
Fixpoint removeDots (s : string) : string :=
  match s with
  | EmptyString => ""
  | String c s' => if Char.isChar "." c then removeDots s' else String c (removeDots s')
  end.

(** [s.replace(".", "")]: only the first dot goes. *)
Fixpoint removeFirstDot (s : string) : string :=
  match s with
  | EmptyString => ""
  | String c s' => if Char.isChar "." c then s' else String c (removeFirstDot s')
  end.

(** A JavaScript string is falsy exactly when it is empty. *)
Definition truthy (s : string) : bool :=
  match s with
  | EmptyString => false
  | String _ _ => true
  end.

End Str.

(** ** Regular expressions by position

    [p prev s] is the length of the match of the expression that starts at
    the current position, where [s] is the rest of the input and [prev] the
    character just before it (what [\b] needs), or [None]. *)

Module Re.

Definition pattern := option ascii -> string -> option nat.

(** [\b] between the character before the position and the one at it. *)
Definition wordBoundary (prev next : option ascii) : bool :=
  xorb (from_option Char.isWord false prev) (from_option Char.isWord false next).

(** Length of the longest run of characters of class [f] at the start. *)
Fixpoint run (f : ascii -> bool) (s : string) : nat :=
  match s with
  | EmptyString => O
  | String c s' => if f c then S (run f s') else O
  end.

(** One piece of a scanned input: a character outside every match, or a
    whole match. *)
Inductive segment :=
| Lit (c : ascii)
| Hit (m : string).

(** The matches of a [g]-flagged expression from left to right
    ([RegExp.prototype[Symbol.replace]]): after a match the search resumes
    behind it; after an empty match it resumes one character further.
    [skip] counts the characters still inside the current match. *)
Fixpoint scan (p : pattern) (prev : option ascii) (skip : nat) (s : string)
  : list segment :=
  match s with
  | EmptyString =>
      match skip with
      | O => match p prev s with Some _ => [Hit ""] | None => [] end
      | S _ => []
      end
  | String c s' =>
      match skip with
      | S k => scan p (Some c) k s'
      | O =>
          match p prev s with
          | Some O => Hit "" :: Lit c :: scan p (Some c) O s'
          | Some (S k) => Hit (Str.take (S k) s) :: scan p (Some c) k s'
          | None => Lit c :: scan p (Some c) O s'
          end
      end
  end.

Definition segments (p : pattern) (s : string) : list segment := scan p None O s.

Fixpoint hits (segs : list segment) : list string :=
  match segs with
  | [] => []
  | Lit _ :: rest => hits rest
  | Hit m :: rest => m :: hits rest
  end.

(** [s.match(re)] with the [g] flag: [null] (here [None]) without a match. *)
Definition matchAll (p : pattern) (s : string) : option (list string) :=
  match hits (segments p s) with
  | [] => None
  | ms => Some ms
  end.

(** [s.search(re) > -1], the same as [re.test(s)] on a fresh expression. *)
Fixpoint searchFrom (p : pattern) (prev : option ascii) (s : string) : bool :=
  match p prev s with
  | Some _ => true
  | None =>
      match s with
      | EmptyString => false
      | String c s' => searchFrom p (Some c) s'
      end
  end.

Definition search (p : pattern) (s : string) : bool := searchFrom p None s.

(** A literal text compared without case ([i] flag); gives the last
    consumed character and the rest. *)
Fixpoint literalCI (lit : string) (prev : option ascii) (s : string)
  : option (option ascii * string) :=
  match lit with
  | EmptyString => Some (prev, s)
  | String a lit' =>
      match s with
      | String b s' => if Char.eqCI a b then literalCI lit' (Some b) s' else None
      | EmptyString => None
      end
  end.

End Re.

(** ** The documents *)

(** A node of the stylesheet tree, as the stylesheet parser gives it: a
    style rule ([type == "rule"]) with its selectors, a media block
    ([type == "media"]) with its nested nodes, or anything else (comment,
    font-face, keyframes, ...). *)
#[warnings="-register-all"] Inductive cssNode :=
| Rule (selectors : list string)
| Media (rules : list cssNode)
| OtherNode (type : string).

(** The value of a literal node of the script: a string or anything else
    (number, boolean, null, regular expression). *)
Inductive jsValue :=
| VString (s : string)
| VOther.

(** A node of the script tree: a literal or any other node. The script is
    the list of its nodes in the order the traversal enters them. *)
Inductive jsNode :=
| Literal (value : jsValue)
| NonLiteral (type : string).

(** ** Configuration

    [prefix] and [replaceAll] as in the source; [replace] is the per-node
    hook, modelled by whether it answers [false] (the veto) for a node; a
    hook that changes the engine's state itself is outside the model. The
    default hook [emptyFn] answers [undefined] for every node. The [regexp]
    option is not modelled. The source splices the prefix into the source
    text of a regular expression; the model reads it as literal text, which
    is the same for a prefix made of class-name characters ([Char.isCls]:
    letters, digits, hyphen and underscore, none of which is special in an
    expression). A prefix with other characters is outside the model, and
    the statements that depend on what the expressions match say so. *)
Record Config := {
  prefix : option string;
  replaceVeto : jsNode -> bool;
  replaceAllFlag : bool
}.

Definition emptyFn (_ : jsNode) : bool := false.

Definition defaultConfig : Config :=
  {| prefix := None; replaceVeto := emptyFn; replaceAllFlag := false |}.

(** [if (config.prefix)]: [null] and the empty string are falsy. *)
Definition activePrefix (cfg : Config) : option string :=
  match prefix cfg with
  | Some p => if Str.truthy p then Some p else None
  | None => None
  end.

(** ** The substitution table

    [replacements.items] is a plain object: a lookup finds the own entries
    and, failing that, the members every object inherits. *)
Inductive jsval :=
| Undefined
| StrVal (s : string)
| Inherited (name : string).

Definition protoMembers : list string :=
  [ "constructor"; "__defineGetter__"; "__defineSetter__"; "hasOwnProperty";
    "__lookupGetter__"; "__lookupSetter__"; "isPrototypeOf";
    "propertyIsEnumerable"; "toString"; "valueOf"; "__proto__";
    "toLocaleString" ].

Definition getItem (items : gmap string string) (k : string) : jsval :=
  match items !! k with
  | Some v => StrVal v
  | None => if existsb (String.eqb k) protoMembers then Inherited k else Undefined
  end.

Definition truthyVal (v : jsval) : bool :=
  match v with
  | Undefined => false
  | StrVal s => Str.truthy s
  | Inherited _ => true
  end.

(** The text a value turns into when it is concatenated or returned from a
    [replace] callback. *)
Definition toStr (v : jsval) : string :=
  match v with
  | Undefined => "undefined"
  | StrVal s => s
  | Inherited k =>
      if String.eqb k "__proto__" then "[object Object]"
      else if String.eqb k "constructor" then "function Object() { [native code] }"
      else "function " ++ k ++ "() { [native code] }"
  end.

(** ** The engine's state: the fields of [this] *)
Record Replacer := {
  config : Config;
  cssText : string;
  rules : list cssNode;
  jsAst : list jsNode;
  classes : list string;
  counter : N;
  key : string;
  count : N;
  items : gmap string string
}.

Definition setCounter (c : N) (r : Replacer) : Replacer :=
  {| config := config r; cssText := cssText r; rules := rules r; jsAst := jsAst r;
     classes := classes r; counter := c; key := key r; count := count r;
     items := items r |}.
Definition setKey (k : string) (r : Replacer) : Replacer :=
  {| config := config r; cssText := cssText r; rules := rules r; jsAst := jsAst r;
     classes := classes r; counter := counter r; key := k; count := count r;
     items := items r |}.
Definition setCount (n : N) (r : Replacer) : Replacer :=
  {| config := config r; cssText := cssText r; rules := rules r; jsAst := jsAst r;
     classes := classes r; counter := counter r; key := key r; count := n;
     items := items r |}.
Definition setItems (m : gmap string string) (r : Replacer) : Replacer :=
  {| config := config r; cssText := cssText r; rules := rules r; jsAst := jsAst r;
     classes := classes r; counter := counter r; key := key r; count := count r;
     items := m |}.
Definition setClasses (l : list string) (r : Replacer) : Replacer :=
  {| config := config r; cssText := cssText r; rules := rules r; jsAst := jsAst r;
     classes := l; counter := counter r; key := key r; count := count r;
     items := items r |}.
Definition setRules (l : list cssNode) (r : Replacer) : Replacer :=
  {| config := config r; cssText := cssText r; rules := l; jsAst := jsAst r;
     classes := classes r; counter := counter r; key := key r; count := count r;
     items := items r |}.
Definition setJsAst (l : list jsNode) (r : Replacer) : Replacer :=
  {| config := config r; cssText := cssText r; rules := rules r; jsAst := l;
     classes := classes r; counter := counter r; key := key r; count := count r;
     items := items r |}.

(** [constructor(config)] followed by [openFiles] and [initFilesAst], whose
    results are the three documents. *)
Definition create (cfg : Config) (css : string) (ast : list cssNode)
    (js : list jsNode) : Replacer :=
  {| config := cfg; cssText := css; rules := ast; jsAst := js; classes := [];
     counter := 0; key := "_"; count := 0; items := ∅ |}.

(** ** The token generator *)

(** [Number.prototype.toString(34)] on a counter: digits [0-9a-x], most
    significant first. *)
Definition digit34 (d : N) : ascii :=
  ascii_of_N (if d <? 10 then 48 + d else 87 + d).

Fixpoint toString34_loop (fuel : nat) (n : N) (acc : string) : string :=
  match fuel with
  | O => acc
  | S fuel' =>
      let acc' := String (digit34 (n mod 34)) acc in
      if n / 34 =? 0 then acc' else toString34_loop fuel' (n / 34) acc'
  end.

Definition toString34 (n : N) : string :=
  toString34_loop (S (N.to_nat (N.log2 n))) n "".

(** [/^([a-z_]|-[a-z_-])[a-z\d_-]*$/i.test(className)] *)
Definition isNameChar (c : ascii) : bool :=
  Char.isAlpha c || Char.isDigit c || Char.isChar "_" c || Char.isChar "-" c.

Definition validClassName (className : string) : bool :=
  match className with
  | EmptyString => false
  | String c rest =>
      if Char.isAlpha c || Char.isChar "_" c then Str.all isNameChar rest
      else if Char.isChar "-" c then
        match rest with
        | EmptyString => false
        | String d rest' =>
            (Char.isAlpha d || Char.isChar "_" d || Char.isChar "-" d)
            && Str.all isNameChar rest'
        end
      else false
  end.

(** [new RegExp('\\b\\.' + className + '\\b', 'gi')] *)
Definition collisionRegExp (className : string) : Re.pattern :=
  fun prev s =>
    match s with
    | String c s1 =>
        if Re.wordBoundary prev (Some c) && Char.isChar "." c then
          match Re.literalCI className (Some c) s1 with
          | Some (last, rest) =>
              if Re.wordBoundary last (Str.head rest)
              then Some (S (String.length className))
              else None
          | None => None
          end
        else None
    | EmptyString => None
    end.

(** One pass through the body of the [while (true)] of [succ]: either the
    counter to go on with, or the accepted name and the counter behind it.
    [counter++] is [c + 1] here, which is exact for a counter below [2^53];
    [succBodyDouble] below is the same pass on the double. *)
Definition succBody (css : string) (c : N) : N + (string * N) :=
  let className := toString34 c in
  if negb (validClassName className) then inl (c + 1)
  else if Re.search (collisionRegExp className) css then inl (c + 1)
  else inr (className, c + 1).

(** A loop body run for at most [m] passes: the break value if the loop
    has left by then, the state reached otherwise. *)
Fixpoint passes {A B : Type} (m : nat) (body : A -> A + B) (a : A) : A + B :=
  match m with
  | O => inl a
  | S m' =>
      match body a with
      | inl a' => passes m' body a'
      | inr b => inr b
      end
  end.

(** [while (true) body]: at most [2 ^ n] passes, leaving at the first break. *)
Fixpoint whileTrue {A B : Type} (n : nat) (body : A -> A + B) (a : A) : A + B :=
  match n with
  | O => body a
  | S n' =>
      match whileTrue n' body a with
      | inl a' => whileTrue n' body a'
      | inr b => inr b
      end
  end.

(** A number of doublings that covers every pass [succ] can need: a name
    longer than the stylesheet cannot occur in it. *)
Definition succDepth (css : string) (c : N) : nat :=
  (4 + 6 * (String.length css + S (N.to_nat (N.log2 c))))%nat.

(** [succ()]: the accepted name and the state with the counter moved on.
    It is the source's result whenever the accepted counter value is below
    [2^53] (lemma [succ_bounded]). *)
Definition succ (r : Replacer) : string * Replacer :=
  match whileTrue (succDepth (cssText r) (counter r)) (succBody (cssText r)) (counter r) with
  | inr (className, c) => (className, setCounter c r)
  | inl c => ("no-match", setCounter c r)
  end.

(** ** The counter as a double

    [this.counter] is a JavaScript number. Every whole number up to [2^53]
    is a double; [2^53 + 1] is not, and rounds back to [2^53]. A counter
    that starts at [0] and moves by [counter++] is therefore a whole number
    of at most [2^53], and [counter++] leaves it where it is once it is
    there (larger values do not arise). *)
Definition maxCounter : N := 2 ^ 53.

(** [this.counter++] *)
Definition increment (c : N) : N := if c <? maxCounter then c + 1 else c.

(** The pass of [succ] with the counter stepped as the double it is; below
    [maxCounter] it is [succBody]. *)
Definition succBodyDouble (css : string) (c : N) : N + (string * N) :=
  let className := toString34 c in
  if negb (validClassName className) then inl (increment c)
  else if Re.search (collisionRegExp className) css then inl (increment c)
  else inr (className, increment c).

(** The first counter value whose rendering has ten digits and a letter in
    front, and the first one with eleven digits. *)
Definition tenDigits : N := 10 * 34 ^ 9.
Definition elevenDigits : N := 34 ^ 10.

(** ** The class-name catalog *)

(** A literal text followed by [[0-9a-zA-Z\-_]+]. *)
Definition clsAfter (lit : string) : Re.pattern :=
  fun _ s =>
    if Str.startsWith lit s then
      match Re.run Char.isCls (Str.drop (String.length lit) s) with
      | O => None
      | S n => Some (String.length lit + S n)%nat
      end
    else None.

(** [generateCssClsRegExp()], for a prefix of class-name characters: the
    dot, the prefix as it is written, and a run of class-name characters.
    The branch of the [regexp] option is left out. *)
Definition generateCssClsRegExp (cfg : Config) : Re.pattern :=
  match activePrefix cfg with
  | Some p => clsAfter ("." ++ p)
  | None => clsAfter "."
  end.

(** The alternatives of [a|b|c], tried in order. *)
Fixpoint alternation (alts : list string) : Re.pattern :=
  fun prev s =>
    match alts with
    | [] => None
    | a :: rest =>
        if Str.startsWith a s then Some (String.length a)
        else alternation rest prev s
    end.

(** [generateJsClsRegExp()], for a prefix of class-name characters: a word
    boundary, the prefix as it is written, and a run of class-name
    characters; without a prefix the alternation of the catalog, whose
    names are made of class-name characters. With an empty catalog
    [classes.join("|")] is the empty expression, which matches the empty
    string everywhere. The branch of the [regexp] option is left out. *)
Definition generateJsClsRegExp (cfg : Config) (classes : list string) : Re.pattern :=
  match activePrefix cfg with
  | Some p =>
      fun prev s =>
        if Re.wordBoundary prev (Str.head s) then clsAfter p prev s else None
  | None =>
      match classes with
      | [] => alternation [""]
      | _ => alternation classes
      end
  end.

(** The classes of one style rule:
    [rule.selectors.join(" ").match(regexp)], then
    [selectors.join(" ").replace(/\./g, "").split(" ")]. *)
Definition extractClasses (re : Re.pattern) (selectors : list string) : list string :=
  match Re.matchAll re (Str.join " " selectors) with
  | Some ms => Str.splitSpace (Str.removeDots (Str.join " " ms))
  | None => []
  end.

(** The loop of [parseCssRules]: only top-level style rules contribute. *)
Fixpoint collectClasses (re : Re.pattern) (nodes : list cssNode) : list string :=
  match nodes with
  | [] => []
  | Rule selectors :: rest => extractClasses re selectors ++ collectClasses re rest
  | Media _ :: rest => collectClasses re rest
  | OtherNode _ :: rest => collectClasses re rest
  end.

(** [classes.sort((a, b) => b.length - a.length)]; the sort is stable. *)
Fixpoint insertByLength (x : string) (l : list string) : list string :=
  match l with
  | [] => [x]
  | y :: l' =>
      if (String.length y <=? String.length x)%nat then x :: l
      else y :: insertByLength x l'
  end.

Definition sortByLength (l : list string) : list string :=
  foldr insertByLength [] l.

(** [classes.indexOf(cls)], [None] for [-1]. *)
Fixpoint indexOf (cls : string) (l : list string) : option nat :=
  match l with
  | [] => None
  | x :: l' => if String.eqb x cls then Some O else S <$> indexOf cls l'
  end.

(** [.filter((cls, pos) => classes.indexOf(cls) == pos)] from position [pos]. *)
Fixpoint filterFirst (all : list string) (pos : nat) (l : list string) : list string :=
  match l with
  | [] => []
  | cls :: l' =>
      if bool_decide (indexOf cls all = Some pos)
      then cls :: filterFirst all (S pos) l'
      else filterFirst all (S pos) l'
  end.

Definition catalog (re : Re.pattern) (nodes : list cssNode) : list string :=
  let sorted := sortByLength (collectClasses re nodes) in
  filterFirst sorted O sorted.

(** [parseCssRules()] *)
Definition parseCssRules (r : Replacer) : Replacer :=
  setClasses (catalog (generateCssClsRegExp (config r)) (rules r)) r.

(** ** Rewriting the script *)

(** The [for] loop of [replaceItem] over the matches: a name without a
    table entry gets the pending key, and [succ] makes the next one. The
    loop ends at the first falsy (empty) match. *)
Fixpoint registerMatches (matches : list string) (key : string) (r : Replacer)
  : string * Replacer :=
  match matches with
  | [] => (key, r)
  | m :: rest =>
      if Str.truthy m then
        if truthyVal (getItem (items r) m) then registerMatches rest key r
        else
          let '(key', r') := succ (setItems (<[m := key]> (items r)) r) in
          registerMatches rest key' r'
      else (key, r)
  end.

(** [value.replace(regexp, a => { replacements.count++; return replacements.items[a]; })] *)
Fixpoint replaceCounting (segs : list Re.segment) (r : Replacer) : string * Replacer :=
  match segs with
  | [] => ("", r)
  | Re.Lit c :: rest =>
      let '(s, r') := replaceCounting rest r in (String c s, r')
  | Re.Hit a :: rest =>
      let r1 := setCount (count r + 1) r in
      let out := toStr (getItem (items r1) a) in
      let '(s, r') := replaceCounting rest r1 in (out ++ s, r')
  end.

(** [replaceItem(node)] on the value of a string literal: the new value and
    the new state. *)
Definition replaceItem (value : string) (r : Replacer) : string * Replacer :=
  let regexp := generateJsClsRegExp (config r) (classes r) in
  match Re.matchAll regexp value with
  | None => (value, r)
  | Some matches =>
      let '(key', r1) := registerMatches matches (key r) r in
      let '(value', r2) := replaceCounting (Re.segments regexp value) r1 in
      (value', setKey key' r2)
  end.

(** The [enter] callback of the traversal on one node. *)
Definition enter (node : jsNode) (r : Replacer) : jsNode * Replacer :=
  if replaceVeto (config r) node then (node, r)
  else
    match node with
    | Literal (VString value) =>
        let '(value', r') := replaceItem value r in (Literal (VString value'), r')
    | Literal VOther => (node, r)
    | NonLiteral _ => (node, r)
    end.

(** [estraverse.traverse(this.jsAst, { enter })] *)
Fixpoint traverse (nodes : list jsNode) (r : Replacer) : list jsNode * Replacer :=
  match nodes with
  | [] => ([], r)
  | node :: rest =>
      let '(node', r1) := enter node r in
      let '(rest', r2) := traverse rest r1 in
      (node' :: rest', r2)
  end.

(** The [forEach] of [replaceAll()] with its local [key]. *)
Fixpoint replaceAllLoop (classes : list string) (key : string) (r : Replacer)
  : string * Replacer :=
  match classes with
  | [] => (key, r)
  | cls :: rest =>
      if truthyVal (getItem (items r) cls) then replaceAllLoop rest key r
      else
        let '(key', r1) := succ (setItems (<[cls := key]> (items r)) r) in
        replaceAllLoop rest key' (setCount (count r1 + 1) r1)
  end.

(** [replaceAll()]; the local key is not written back. *)
Definition replaceAll (r : Replacer) : Replacer :=
  snd (replaceAllLoop (classes r) (key r) r).

(** The traversal part of [replace()]. *)
Definition replaceLiterals (r : Replacer) : Replacer :=
  let '(nodes, r') := traverse (jsAst r) r in setJsAst nodes r'.

(** [replace()] *)
Definition replace (r : Replacer) : Replacer :=
  let r' := replaceLiterals r in
  if replaceAllFlag (config r') then replaceAll r' else r'.

(** [run()] on a fresh engine (writing the replacement log left out). *)
Definition run (cfg : Config) (css : string) (ast : list cssNode)
    (js : list jsNode) : Replacer :=
  replace (parseCssRules (create cfg css ast js)).

(** [getReplacementsCount()] *)
Definition getReplacementsCount (r : Replacer) : N := count r.

(** ** Rewriting the stylesheet *)

(** The callback of [selector.replace(regexp, ...)] in [generateCss], over
    the pieces of one selector; [hasNot] is
    [rule.selectors.join(" ").indexOf(':not') > -1]. *)
Fixpoint rewriteSelector (hasNot : bool) (segs : list Re.segment) (r : Replacer)
  : string * Replacer :=
  match segs with
  | [] => ("", r)
  | Re.Lit c :: rest =>
      let '(s, r') := rewriteSelector hasNot rest r in (String c s, r')
  | Re.Hit a :: rest =>
      let clazz := Str.removeFirstDot a in
      let r1 :=
        if negb (truthyVal (getItem (items r) clazz)) && hasNot then
          let '(token, r0) := succ r in
          setItems (<[clazz := token]> (items r0)) r0
        else r in
      let out := "." ++ toStr (getItem (items r1) clazz) in
      let '(s, r') := rewriteSelector hasNot rest r1 in (out ++ s, r')
  end.

(** [/undefined/.test(selector)] *)
Definition unresolved (selector : string) : bool := Str.contains "undefined" selector.

(** The [for] loop over the selectors of one rule, building
    [newSelectors]; it ends at the first falsy (empty) selector. *)
Fixpoint rewriteSelectors (re : Re.pattern) (hasNot : bool) (selectors : list string)
    (r : Replacer) : list string * Replacer :=
  match selectors with
  | [] => ([], r)
  | selector :: rest =>
      if Str.truthy selector then
        let '(selector', r1) := rewriteSelector hasNot (Re.segments re selector) r in
        let '(news, r2) := rewriteSelectors re hasNot rest r1 in
        (if unresolved selector' then news else selector' :: news, r2)
      else ([], r)
  end.

(** One style rule: the new selector list and the new state. *)
Definition rewriteRule (selectors : list string) (r : Replacer) : list string * Replacer :=
  let hasNot := Str.contains ":not" (Str.join " " selectors) in
  let '(newSelectors, r') :=
    rewriteSelectors (generateCssClsRegExp (config r)) hasNot selectors r in
  (if (length newSelectors =? length selectors)%nat then newSelectors else [], r').

(** The rules nested in one media block: only its style rules change. *)
Fixpoint rewriteMediaRules (nodes : list cssNode) (r : Replacer) : list cssNode * Replacer :=
  match nodes with
  | [] => ([], r)
  | Rule selectors :: rest =>
      let '(selectors', r1) := rewriteRule selectors r in
      let '(rest', r2) := rewriteMediaRules rest r1 in
      (Rule selectors' :: rest', r2)
  | node :: rest =>
      let '(rest', r2) := rewriteMediaRules rest r in (node :: rest', r2)
  end.

(** The outer loop of [generateCss()] over the top-level nodes. *)
Fixpoint rewriteRules (nodes : list cssNode) (r : Replacer) : list cssNode * Replacer :=
  match nodes with
  | [] => ([], r)
  | Rule selectors :: rest =>
      let '(selectors', r1) := rewriteRule selectors r in
      let '(rest', r2) := rewriteRules rest r1 in
      (Rule selectors' :: rest', r2)
  | Media nested :: rest =>
      let '(nested', r1) := rewriteMediaRules nested r in
      let '(rest', r2) := rewriteRules rest r1 in
      (Media nested' :: rest', r2)
  | OtherNode t :: rest =>
      let '(rest', r2) := rewriteRules rest r in (OtherNode t :: rest', r2)
  end.

(** [generateCss()]: the state whose [rules] are the rewritten tree that
    the serializer prints. *)
Definition generateCss (r : Replacer) : Replacer :=
  let '(nodes, r') := rewriteRules (rules r) r in setRules nodes r'.

(** [generateJs()]: the nodes the script serializer prints. *)
Definition generateJs (r : Replacer) : list jsNode := jsAst r.

(** ** The older build

    [src/lib/replacer.js] is an earlier build of the same class. Its
    [parseCssRules] and the selector policy of its [generateCss] are the
    ones above, without the media branch; its constructor starts with the
    key [a0], and the loop of its [succ] has no [break]. *)
Module Legacy.

Definition initialKey : string := "a0".

(** One pass through [while (true)] of the older [succ]:
    [if (this.cssText.match(...)) this.counter++], and round again. *)
Definition succBody (css : string) (c : N) : N + (string * N) :=
  if Re.search (collisionRegExp (toString34 c)) css then inl (c + 1) else inl c.

End Legacy.

(** ** Vocabulary of the statements *)

(** A digit of a base-34 rendering: one of [0-9a-x]. *)
Definition isDigit34 (c : ascii) : bool := Char.isDigit c || Char.between 97 120 c.

(** The value of a base-34 digit, and of a rendering read from the left
    with [v] already read. *)
Definition digitValue (c : ascii) : N :=
  if Char.isDigit c then Char.code c - 48 else Char.code c - 87.

Fixpoint parse34 (s : string) (v : N) : N :=
  match s with
  | EmptyString => v
  | String c s' => parse34 s' (v * 34 + digitValue c)
  end.

(** A counter value that [succ] accepts whatever came before it: its
    rendering is [a] followed by more zeros than the stylesheet is long. *)
Definition succTarget (css : string) (c : N) : N :=
  10 * 34 ^ N.of_nat (String.length css + S (N.to_nat (N.log2 c))).

(** No two class names share a token. *)
Definition injective (m : gmap string string) : Prop :=
  forall a b t, m !! a = Some t -> m !! b = Some t -> a = b.

(** The tokens handed out while the counter was below [c]: the initial key
    and the renderings of the smaller counter values. *)
Definition issued (c : N) (t : string) : Prop :=
  t = "_" \/ exists x, x < c /\ t = toString34 x.

(** The table at counter [c]: injective, and made of issued tokens. *)
Definition tableInv (m : gmap string string) (c : N) : Prop :=
  injective m /\ forall a t, m !! a = Some t -> issued c t.

(** The table together with a key that waits to be handed out. *)
Definition pendingInv (m : gmap string string) (c : N) (k : string) : Prop :=
  tableInv m c /\ issued c k /\ forall a, m !! a <> Some k.

(** Every name with a truthy lookup in [m] has the same lookup in [m']. *)
Definition keeps (m m' : gmap string string) : Prop :=
  forall k, truthyVal (getItem m k) = true -> getItem m' k = getItem m k.

(** A later state of the same engine: the table only grows, the counter
    only rises, and what the files and the catalog gave stays. *)
Definition extends (r r' : Replacer) : Prop :=
  items r ⊆ items r' /\ keeps (items r) (items r') /\ counter r <= counter r' /\
  config r' = config r /\ cssText r' = cssText r /\ classes r' = classes r /\
  rules r' = rules r.

(** The number of substitutions the traversal makes in one node and in the
    whole script: the matches of the script-side expression in every string
    literal that the hook lets through. *)
Definition nodeHits (cfg : Config) (classes : list string) (node : jsNode) : nat :=
  if replaceVeto cfg node then O
  else
    match node with
    | Literal (VString value) =>
        length (Re.hits (Re.segments (generateJsClsRegExp cfg classes) value))
    | Literal VOther => O
    | NonLiteral _ => O
    end.

Definition literalHits (cfg : Config) (classes : list string) (nodes : list jsNode) : nat :=
  foldr (fun node acc => (nodeHits cfg classes node + acc)%nat) O nodes.

(** A selector with every class reference replaced by a dot and the
    reference's table entry, the table being fixed. *)
Fixpoint substitute (m : gmap string string) (segs : list Re.segment) : string :=
  match segs with
  | [] => ""
  | Re.Lit c :: rest => String c (substitute m rest)
  | Re.Hit a :: rest =>
      ("." ++ toStr (getItem m (Str.removeFirstDot a))) ++ substitute m rest
  end.

Definition substituteSelector (m : gmap string string) (cfg : Config) (selector : string)
  : string :=
  substitute m (Re.segments (generateCssClsRegExp cfg) selector).

(** The class names a selector refers to, as the class expression sees them. *)
Definition classRefs (cfg : Config) (selector : string) : list string :=
  map Str.removeFirstDot (Re.hits (Re.segments (generateCssClsRegExp cfg) selector)).

(** The selectors a [for (...; selector = selectors[j]; ...)] loop visits. *)
Fixpoint untilEmpty (selectors : list string) : list string :=
  match selectors with
  | [] => []
  | s :: rest => if Str.truthy s then s :: untilEmpty rest else []
  end.

(** A token that [succ] accepted while the counter went from [c] to [c']. *)
Definition mintedBetween (css : string) (c c' : N) (t : string) : Prop :=
  exists x, c <= x < c' /\ t = toString34 x /\
            validClassName t = true /\ Re.search (collisionRegExp t) css = false.

(** What one part of [generateCss] may do to the engine: the table
    invariant stays, the state is a later one, the count is untouched and
    every new entry is a token minted on the way. *)
Definition cssStep (r r' : Replacer) : Prop :=
  tableInv (items r') (counter r') /\ extends r r' /\ count r' = count r /\
  forall k t, items r' !! k = Some t ->
    items r !! k = Some t \/ mintedBetween (cssText r) (counter r) (counter r') t.

(** A list without the names already seen and without repetitions, every
    name at its first occurrence. *)
Fixpoint dedupFrom (seen l : list string) : list string :=
  match l with
  | [] => []
  | x :: l' =>
      if bool_decide (x ∈ seen) then dedupFrom seen l'
      else x :: dedupFrom (seen ++ [x]) l'
  end.

Definition dedupFirst (l : list string) : list string := dedupFrom [] l.

(** The names of length [n], in the order of the list. *)
Definition ofLength (n : nat) (l : list string) : list string :=
  List.filter (fun s => (String.length s =? n)%nat) l.

(** The order of the catalog: a name comes before the names that are not
    longer. *)
Definition longerFirst (a b : string) : Prop :=
  (String.length b <= String.length a)%nat.

(** The two ways a text fails to be usable as a class name in a stylesheet. *)
Definition startsWithDigit (s : string) : bool :=
  match s with
  | String c _ => Char.isDigit c
  | EmptyString => false
  end.

Definition startsWithHyphenDigit (s : string) : bool :=
  match s with
  | String c (String d _) => Char.isChar "-" c && Char.isDigit d
  | _ => false
  end.

(** The number of class references in the selectors of the style rules,
    at the top level and inside media blocks. *)
Definition ruleHits (cfg : Config) (selectors : list string) : nat :=
  foldr (fun sel acc =>
           (length (Re.hits (Re.segments (generateCssClsRegExp cfg) sel)) + acc)%nat)
        O selectors.

Fixpoint mediaHits (cfg : Config) (nodes : list cssNode) : nat :=
  match nodes with
  | [] => O
  | Rule selectors :: rest => (ruleHits cfg selectors + mediaHits cfg rest)%nat
  | _ :: rest => mediaHits cfg rest
  end.

Fixpoint selectorHits (cfg : Config) (nodes : list cssNode) : nat :=
  match nodes with
  | [] => O
  | Rule selectors :: rest => (ruleHits cfg selectors + selectorHits cfg rest)%nat
  | Media nested :: rest => (mediaHits cfg nested + selectorHits cfg rest)%nat
  | OtherNode _ :: rest => selectorHits cfg rest
  end.

(** ** Vocabulary of the further properties *)

(** An input cut into its characters, none of them inside a match. *)
Fixpoint literals (s : string) : list Re.segment :=
  match s with
  | EmptyString => []
  | String c s' => Re.Lit c :: literals s'
  end.

(** The expression matches nowhere in the input. *)
Definition silent (p : Re.pattern) (s : string) : Prop :=
  forall n prev, p prev (Str.drop n s) = None.

(** A text with [undefined] put in front of it, behind it and between any
    two of its characters. *)
Fixpoint undefinedEverywhere (s : string) : string :=
  "undefined" ++
  match s with
  | EmptyString => ""
  | String c s' => String c (undefinedEverywhere s')
  end.

(** A literal with every match replaced by the match's table lookup, the
    table being fixed. *)
Fixpoint substituteLiteral (m : gmap string string) (segs : list Re.segment) : string :=
  match segs with
  | [] => ""
  | Re.Lit c :: rest => String c (substituteLiteral m rest)
  | Re.Hit a :: rest => toStr (getItem m a) ++ substituteLiteral m rest
  end.

(** What the traversal makes of a node when the catalog is empty. *)
Definition undefinedNode (cfg : Config) (node : jsNode) : jsNode :=
  if replaceVeto cfg node then node
  else
    match node with
    | Literal (VString value) => Literal (VString (undefinedEverywhere value))
    | Literal VOther => node
    | NonLiteral _ => node
    end.

(** Two nodes of the script that differ at most in the text of a string
    literal, and not at all where the hook vetoes. *)
Definition sameNode (cfg : Config) (a b : jsNode) : Prop :=
  if replaceVeto cfg a then a = b
  else
    match a, b with
    | Literal (VString _), Literal (VString _) => True
    | _, _ => a = b
    end.

(** Two nodes of the stylesheet tree that differ at most in the selectors
    of a style rule: inside a media block, and at the top level. *)
Definition sameNested (a b : cssNode) : Prop :=
  match a, b with
  | Rule _, Rule _ => True
  | _, _ => a = b
  end.

Definition sameShape (a b : cssNode) : Prop :=
  match a, b with
  | Rule _, Rule _ => True
  | Media x, Media y => Forall2 sameNested x y
  | _, _ => a = b
  end.

(** The rule, or a rule of the media block, has [:not] in its joined
    selectors. *)
Definition ruleHasNot (selectors : list string) : bool :=
  Str.contains ":not" (Str.join " " selectors).

Definition nodeHasNot (node : cssNode) : bool :=
  match node with
  | Rule selectors => ruleHasNot selectors
  | Media nested =>
      existsb (fun n => match n with
                        | Rule selectors => ruleHasNot selectors
                        | _ => false
                        end) nested
  | OtherNode _ => false
  end.

(** The fields that [generateCss] has no business with. *)
Definition sameScript (r r' : Replacer) : Prop :=
  jsAst r' = jsAst r /\ key r' = key r /\ cssText r' = cssText r /\
  config r' = config r /\ classes r' = classes r.

(** ** The pipeline adapter

    [main.js] of the media-block-aware build: a transform that the stream
    calls once per incoming file. The parsers and printers are the
    collaborators' ([None] where they throw); the file system is a map from
    paths to contents, and reading a missing path throws. *)
Section Plugin.

Variable parseCss : string -> option (list cssNode).
Variable parseJs : string -> option (list jsNode).
Variable stringifyCss : list cssNode -> string.
Variable printJs : list jsNode -> string.

(** The options object: [cssIn] may be absent; the engine's options are
    [prefix], [replace] and [replaceAll]. *)
Record Options := {
  cssIn : option string;
  jsIn : string;
  jsOut : string;
  engine : Config
}.

(** [Object.assign({ cssIn: file.path }, config)] *)
Definition withCssIn (path : string) (config : Options) : Options :=
  {| cssIn := Some (from_option id path (cssIn config));
     jsIn := jsIn config; jsOut := jsOut config; engine := engine config |}.

(** The callback of [through.obj] on the file at [path]: the options as
    they are afterwards (the callback assigns to the variable it closes
    over), the file system with the script written to [jsOut], and the
    contents of the file handed on; [None] when something throws. *)
Definition transform (config : Options) (fs : gmap string string) (path : string)
  : option (Options * gmap string string * string) :=
  let config' := withCssIn path config in
  match fs !! from_option id path (cssIn config), fs !! jsIn config' with
  | Some css, Some js =>
      match parseCss css, parseJs js with
      | Some ast, Some nodes =>
          let r := generateCss (run (engine config') css ast nodes) in
          Some (config', <[jsOut config' := printJs (generateJs r)]> fs,
                stringifyCss (rules r))
      | _, _ => None
      end
  | _, _ => None
  end.

(** The stream: one call of the transform per file, in order. *)
Fixpoint pipe (config : Options) (fs : gmap string string) (paths : list string)
  : option (Options * gmap string string * list string) :=
  match paths with
  | [] => Some (config, fs, [])
  | path :: rest =>
      match transform config fs path with
      | Some (config', fs', out) =>
          match pipe config' fs' rest with
          | Some (config'', fs'', outs) => Some (config'', fs'', out :: outs)
          | None => None
          end
      | None => None
      end
  end.

End Plugin.

(** The non-empty suffixes of a text, one for each of its places. *)
Fixpoint tails (s : string) : list string :=
  match s with
  | EmptyString => []
  | String _ s' => s :: tails s'
  end.

(** * Proofs *)

(** ** Loops *)

Section Loops.
Context {A B : Type} (body : A -> A + B).

Lemma passes_add (m1 m2 : nat) (a : A) :
  passes (m1 + m2) body a =
  match passes m1 body a with
  | inl a' => passes m2 body a'
  | inr b => inr b
  end.
Proof.
  revert a. induction m1 as [|m1 IH]; intros a; simpl; [reflexivity|].
  destruct (body a) as [a'|b]; [apply IH | reflexivity].
Qed.

Lemma whileTrue_passes (n : nat) (a : A) :
  whileTrue n body a = passes (2 ^ n) body a.
Proof.
  revert a. induction n as [|n IH]; intros a.
  - simpl. destruct (body a); reflexivity.
  - cbn [whileTrue]. replace (2 ^ S n)%nat with (2 ^ n + 2 ^ n)%nat by (simpl; lia).
    rewrite passes_add, IH. destruct (passes (2 ^ n) body a); [apply IH | reflexivity].
Qed.

Lemma passes_break_mono (m m' : nat) (a : A) (b : B) :
  passes m body a = inr b -> (m <= m')%nat -> passes m' body a = inr b.
Proof.
  intros Hb Hle. replace m' with (m + (m' - m))%nat by lia.
  rewrite passes_add, Hb. reflexivity.
Qed.
End Loops.

(** ** Characters and strings *)

Lemma code_inj (a b : ascii) : Char.code a = Char.code b -> a = b.
Proof.
  unfold Char.code. intros H.
  rewrite <- (ascii_N_embedding a), <- (ascii_N_embedding b). now rewrite H.
Qed.

Lemma code_of_N (n : N) : n < 256 -> Char.code (ascii_of_N n) = n.
Proof. apply N_ascii_embedding. Qed.

Lemma isChar_spec (x c : ascii) : Char.isChar x c = true <-> c = x.
Proof.
  unfold Char.isChar. rewrite N.eqb_eq. split; [apply code_inj | now intros ->].
Qed.

Lemma length_app_string (s1 s2 : string) :
  String.length (s1 ++ s2) = (String.length s1 + String.length s2)%nat.
Proof. induction s1 as [|a s1 IH]; simpl; [reflexivity | now rewrite IH]. Qed.

(** ** Base-34 rendering *)

Lemma digit34_code (d : N) :
  d < 34 -> Char.code (digit34 d) = if d <? 10 then 48 + d else 87 + d.
Proof.
  intros Hd. unfold digit34. apply code_of_N.
  destruct (N.ltb_spec d 10); lia.
Qed.

Lemma digit34_isDigit34 (d : N) : d < 34 -> isDigit34 (digit34 d) = true.
Proof.
  intros Hd. unfold isDigit34, Char.isDigit, Char.between.
  rewrite (digit34_code d Hd).
  destruct (N.ltb_spec d 10); rewrite orb_true_iff, !andb_true_iff, !N.leb_le; lia.
Qed.

Lemma digitValue_digit34 (d : N) : d < 34 -> digitValue (digit34 d) = d.
Proof.
  intros Hd. unfold digitValue, Char.isDigit, Char.between.
  rewrite (digit34_code d Hd).
  destruct (N.ltb_spec d 10).
  - replace ((48 <=? 48 + d) && (48 + d <=? 57)) with true; [lia|].
    symmetry. rewrite andb_true_iff, !N.leb_le. lia.
  - replace ((48 <=? 87 + d) && (87 + d <=? 57)) with false; [lia|].
    symmetry. rewrite andb_false_iff, !N.leb_gt. lia.
Qed.

Lemma all_app (f : ascii -> bool) (s1 s2 : string) :
  Str.all f (s1 ++ s2) = Str.all f s1 && Str.all f s2.
Proof.
  induction s1 as [|a s1 IH]; simpl; [reflexivity|]. now rewrite IH, andb_assoc.
Qed.

Lemma all_impl (f g : ascii -> bool) (s : string) :
  (forall c, f c = true -> g c = true) -> Str.all f s = true -> Str.all g s = true.
Proof.
  intros Hfg. induction s as [|a s IH]; simpl; [reflexivity|].
  rewrite !andb_true_iff. intros [Ha Hs]. auto.
Qed.

Lemma parse34_app (s1 s2 : string) (v : N) :
  parse34 (s1 ++ s2) v = parse34 s2 (parse34 s1 v).
Proof. revert v. induction s1 as [|a s1 IH]; intros v; simpl; [reflexivity | apply IH]. Qed.

Lemma append_cons (a : ascii) (s1 s2 : string) : String a s1 ++ s2 = String a (s1 ++ s2).
Proof. reflexivity. Qed.

Lemma append_nil_l (s : string) : "" ++ s = s.
Proof. reflexivity. Qed.

Lemma append_nil_r (s : string) : s ++ "" = s.
Proof. induction s as [|a s IH]; [reflexivity | now rewrite append_cons, IH]. Qed.

Lemma app_assoc_string (s1 s2 s3 : string) : (s1 ++ s2) ++ s3 = s1 ++ (s2 ++ s3).
Proof.
  induction s1 as [|a s1 IH]; [reflexivity | now rewrite !append_cons, IH].
Qed.

Lemma toString34_loop_S (fuel : nat) (n : N) (acc : string) :
  toString34_loop (S fuel) n acc =
  if n / 34 =? 0 then String (digit34 (n mod 34)) acc
  else toString34_loop fuel (n / 34) (String (digit34 (n mod 34)) acc).
Proof. reflexivity. Qed.

(** What the digit loop prepends: a non-empty run of base-34 digits whose
    value is [n]. *)
Lemma toString34_loop_spec (fuel : nat) :
  forall (n : N) (acc : string),
    n < 2 ^ N.of_nat (S fuel) ->
    exists d,
      toString34_loop (S fuel) n acc = d ++ acc /\
      d <> "" /\
      Str.all isDigit34 d = true /\
      forall v, parse34 d v = v * 34 ^ N.of_nat (String.length d) + n.
Proof.
  induction fuel as [|fuel IH]; intros n acc Hn.
  - assert (Hlt : n < 34) by (simpl in Hn; lia).
    assert (Hdiv : n / 34 = 0) by (apply N.div_small; lia).
    exists (String (digit34 (n mod 34)) "").
    rewrite toString34_loop_S, Hdiv. simpl (0 =? 0).
    rewrite (N.mod_small n 34 Hlt), append_cons, append_nil_l.
    cbn [Str.all parse34 String.length].
    rewrite (digit34_isDigit34 n Hlt), (digitValue_digit34 n Hlt).
    repeat split; try discriminate; try (intros v; simpl; lia).
  - rewrite (toString34_loop_S (S fuel)). destruct (N.eqb_spec (n / 34) 0) as [Hz|Hnz].
    + assert (Hlt : n < 34).
      { destruct (N.lt_ge_cases n 34) as [|Hge]; [assumption|].
        assert (1 <= n / 34) by (apply N.div_le_lower_bound; lia). lia. }
      exists (String (digit34 (n mod 34)) "").
      rewrite (N.mod_small n 34 Hlt), append_cons, append_nil_l.
      cbn [Str.all parse34 String.length].
      rewrite (digit34_isDigit34 n Hlt), (digitValue_digit34 n Hlt).
      repeat split; try discriminate; try (intros v; simpl; lia).
    + assert (Hsmall : n / 34 < 2 ^ N.of_nat (S fuel)).
      { apply N.Div0.div_lt_upper_bound.
        rewrite (Nat2N.inj_succ (S fuel)), N.pow_succ_r' in Hn. lia. }
      destruct (IH (n / 34) (String (digit34 (n mod 34)) acc) Hsmall)
        as (d & Heq & Hne & Hall & Hval).
      assert (Hm : n mod 34 < 34) by (apply N.mod_lt; lia).
      exists (d ++ String (digit34 (n mod 34)) "").
      rewrite Heq, app_assoc_string, append_cons, append_nil_l.
      repeat split.
      * destruct d; [congruence | discriminate].
      * rewrite all_app, Hall. cbn [Str.all]. now rewrite (digit34_isDigit34 _ Hm).
      * intros v. rewrite parse34_app, Hval. cbn [parse34].
        rewrite (digitValue_digit34 _ Hm), length_app_string. cbn [String.length].
        replace (N.of_nat (String.length d + 1)) with (N.succ (N.of_nat (String.length d))) by lia.
        rewrite N.pow_succ_r'. pose proof (N.div_mod n 34). lia.
Qed.

Lemma toString34_fuel (n : N) : n < 2 ^ N.of_nat (S (N.to_nat (N.log2 n))).
Proof.
  rewrite Nat2N.inj_succ, N2Nat.id.
  destruct (N.eq_dec n 0) as [->|Hn]; [reflexivity|].
  apply N.log2_spec. lia.
Qed.

Lemma toString34_spec (n : N) :
  toString34 n <> "" /\
  Str.all isDigit34 (toString34 n) = true /\
  parse34 (toString34 n) 0 = n.
Proof.
  destruct (toString34_loop_spec _ n "" (toString34_fuel n)) as (d & Heq & Hne & Hall & Hval).
  unfold toString34. rewrite Heq.
  rewrite append_nil_r.
  repeat split; try assumption. rewrite Hval. lia.
Qed.

Lemma toString34_inj (a b : N) : toString34 a = toString34 b -> a = b.
Proof.
  intros H. destruct (toString34_spec a) as (_ & _ & Ha).
  destruct (toString34_spec b) as (_ & _ & Hb). congruence.
Qed.

Lemma toString34_not_underscore (n : N) : toString34 n <> "_".
Proof.
  destruct (toString34_spec n) as (_ & Hall & _). intros H. rewrite H in Hall.
  vm_compute in Hall. discriminate.
Qed.

Lemma toString34_truthy (n : N) : Str.truthy (toString34 n) = true.
Proof.
  destruct (toString34_spec n) as (Hne & _ & _).
  destruct (toString34 n); [congruence | reflexivity].
Qed.

(** The rendering of [10 * 34^k] is [a] followed by [k] zeros. *)
Lemma toString34_loop_pow (k : nat) :
  forall (fuel : nat) (acc : string),
    (k < fuel)%nat ->
    exists z,
      toString34_loop fuel (10 * 34 ^ N.of_nat k) acc = String "a" (z ++ acc) /\
      Str.all (Char.isChar "0") z = true /\
      String.length z = k.
Proof.
  induction k as [|k IH]; intros [|fuel] acc Hk; try lia.
  - exists "". rewrite toString34_loop_S. repeat split.
  - rewrite toString34_loop_S.
    replace (10 * 34 ^ N.of_nat (S k)) with (10 * 34 ^ N.of_nat k * 34)
      by (rewrite Nat2N.inj_succ, N.pow_succ_r'; lia).
    rewrite N.div_mul by lia. rewrite N.Div0.mod_mul.
    assert (Hpos : 0 < 34 ^ N.of_nat k) by (apply N.neq_0_lt_0, N.pow_nonzero; lia).
    destruct (N.eqb_spec (10 * 34 ^ N.of_nat k) 0) as [Hz|_]; [lia|].
    destruct (IH fuel (String (digit34 0) acc)) as (z & Heq & Hall & Hlen); [lia|].
    exists (z ++ "0"). rewrite Heq, app_assoc_string. repeat split.
    + rewrite all_app, Hall. reflexivity.
    + rewrite length_app_string, Hlen. simpl. lia.
Qed.

Lemma toString34_pow (k : nat) :
  exists z,
    toString34 (10 * 34 ^ N.of_nat k) = String "a" z /\
    Str.all (Char.isChar "0") z = true /\
    String.length z = k.
Proof.
  unfold toString34.
  destruct (toString34_loop_pow k (S (N.to_nat (N.log2 (10 * 34 ^ N.of_nat k)))) "")
    as (z & Heq & Hall & Hlen).
  - assert (N.of_nat k <= N.log2 (10 * 34 ^ N.of_nat k)); [|lia].
    assert (Hpos : 0 < 34 ^ N.of_nat k) by (apply N.neq_0_lt_0, N.pow_nonzero; lia).
    apply N.log2_le_pow2; [lia|].
    transitivity (34 ^ N.of_nat k); [apply N.pow_le_mono_l; lia | lia].
  - exists z. rewrite Heq, append_nil_r. auto.
Qed.

Lemma valid_pow (z : string) :
  Str.all (Char.isChar "0") z = true -> validClassName (String "a" z) = true.
Proof.
  intros Hz. cbn. apply (all_impl (Char.isChar "0")); [|assumption].
  intros c Hc. apply isChar_spec in Hc. now subst c.
Qed.

(** ** The collision search *)

Lemma literalCI_length (lit : string) :
  forall prev s last rest,
    Re.literalCI lit prev s = Some (last, rest) ->
    String.length s = (String.length lit + String.length rest)%nat.
Proof.
  induction lit as [|a lit IH]; intros prev s last rest H; simpl in H.
  - now inversion H.
  - destruct s as [|b s]; [discriminate|].
    destruct (Char.eqCI a b); [|discriminate].
    apply IH in H. simpl. lia.
Qed.

Lemma searchFrom_collision_length (className : string) :
  forall s prev,
    Re.searchFrom (collisionRegExp className) prev s = true ->
    (String.length className < String.length s)%nat.
Proof.
  induction s as [|c s IH]; intros prev H; simpl in H.
  - discriminate.
  - destruct (Re.wordBoundary prev (Some c) && Char.isChar "." c).
    + destruct (Re.literalCI className (Some c) s) as [[last rest]|] eqn:Hl.
      * apply literalCI_length in Hl. simpl. lia.
      * apply IH in H. simpl. lia.
    + apply IH in H. simpl. lia.
Qed.

(** A name at least as long as the stylesheet text does not collide. *)
Lemma long_name_free (css className : string) :
  (String.length css <= String.length className)%nat ->
  Re.search (collisionRegExp className) css = false.
Proof.
  intros Hlen. destruct (Re.search (collisionRegExp className) css) eqn:H; [|reflexivity].
  apply searchFrom_collision_length in H. lia.
Qed.

(** ** The token generator returns *)

(** The two ways a pass of [succ] ends. *)
Lemma succBody_cases (css : string) (c : N) :
  (succBody css c = inl (c + 1) /\
   (validClassName (toString34 c) = false \/
    Re.search (collisionRegExp (toString34 c)) css = true)) \/
  (succBody css c = inr (toString34 c, c + 1) /\
   validClassName (toString34 c) = true /\
   Re.search (collisionRegExp (toString34 c)) css = false).
Proof.
  unfold succBody.
  destruct (validClassName (toString34 c)); simpl; [|left; auto].
  destruct (Re.search (collisionRegExp (toString34 c)) css); [left | right]; auto.
Qed.

Lemma succTarget_accepted (css : string) (c : N) :
  succBody css (succTarget css c) =
  inr (toString34 (succTarget css c), succTarget css c + 1).
Proof.
  unfold succTarget.
  destruct (toString34_pow (String.length css + S (N.to_nat (N.log2 c))))
    as (z & Heq & Hall & Hlen).
  unfold succBody. rewrite Heq, (valid_pow z Hall). simpl negb. cbv iota.
  rewrite long_name_free; [reflexivity|]. simpl. lia.
Qed.

Lemma succTarget_ge (css : string) (c : N) : c <= succTarget css c.
Proof.
  unfold succTarget. pose proof (toString34_fuel c) as Hc.
  set (k := S (N.to_nat (N.log2 c))) in *.
  assert (2 ^ N.of_nat k <= 34 ^ N.of_nat (String.length css + k)).
  { transitivity (34 ^ N.of_nat k); [apply N.pow_le_mono_l; lia|].
    apply N.pow_le_mono_r; lia. }
  lia.
Qed.

Lemma succTarget_depth (css : string) (c : N) :
  (S (N.to_nat (succTarget css c - c)) <= 2 ^ succDepth css c)%nat.
Proof.
  unfold succTarget, succDepth.
  set (k := (String.length css + S (N.to_nat (N.log2 c)))%nat).
  assert (H : 10 * 34 ^ N.of_nat k < N.of_nat (2 ^ (4 + 6 * k))).
  { rewrite Nat2N.inj_pow, Nat2N.inj_add, Nat2N.inj_mul, N.pow_add_r, N.pow_mul_r.
    change (N.of_nat 2) with 2. change (N.of_nat 4) with 4. change (N.of_nat 6) with 6.
    change (2 ^ 4) with 16. change (2 ^ 6) with 64.
    assert (34 ^ N.of_nat k <= 64 ^ N.of_nat k) by (apply N.pow_le_mono_l; lia).
    assert (0 < 64 ^ N.of_nat k) by (apply N.neq_0_lt_0, N.pow_nonzero; lia).
    lia. }
  lia.
Qed.

(** From any counter at most [d] below an accepted one, [S d] passes reach
    the first accepted counter. *)
Lemma passes_reach (css : string) (t : N) (res : string * N) :
  succBody css t = inr res ->
  forall (d : nat) (c : N),
    c + N.of_nat d = t ->
    exists c',
      c <= c' /\
      passes (S d) (succBody css) c = inr (toString34 c', c' + 1) /\
      validClassName (toString34 c') = true /\
      Re.search (collisionRegExp (toString34 c')) css = false /\
      forall x, c <= x < c' -> succBody css x = inl (x + 1).
Proof.
  intros Ht. induction d as [|d IH]; intros c Hc.
  - assert (c = t) by lia. subst c.
    destruct (succBody_cases css t) as [[H _]|(H & Hv & Hs)]; [congruence|].
    exists t. simpl. rewrite H. repeat split; auto; lia.
  - destruct (succBody_cases css c) as [[H _]|(H & Hv & Hs)].
    + destruct (IH (c + 1)) as (c' & Hle & Hp & Hv & Hs & Hmin); [lia|].
      exists c'. change (passes (S (S d)) (succBody css) c)
        with (match succBody css c with
              | inl a' => passes (S d) (succBody css) a'
              | inr b => inr b
              end).
      rewrite H. repeat split; auto; try lia.
      intros x Hx. destruct (N.eq_dec x c) as [->|]; [assumption | apply Hmin; lia].
    + exists c. change (passes (S (S d)) (succBody css) c)
        with (match succBody css c with
              | inl a' => passes (S d) (succBody css) a'
              | inr b => inr b
              end).
      rewrite H. repeat split; auto; lia.
Qed.

(** [succ] returns: it accepts the first counter value from the current
    one on whose rendering is a valid name that does not collide, and
    leaves the counter just behind it. *)
Lemma succ_spec (r : Replacer) :
  exists c,
    counter r <= c /\
    succ r = (toString34 c, setCounter (c + 1) r) /\
    validClassName (toString34 c) = true /\
    Re.search (collisionRegExp (toString34 c)) (cssText r) = false /\
    (forall x, counter r <= x < c -> succBody (cssText r) x = inl (x + 1)) /\
    exists fuel, passes fuel (succBody (cssText r)) (counter r) = inr (toString34 c, c + 1).
Proof.
  set (css := cssText r). set (c0 := counter r).
  destruct (passes_reach css _ _ (succTarget_accepted css c0)
              (N.to_nat (succTarget css c0 - c0)) c0)
    as (c & Hle & Hp & Hv & Hs & Hmin).
  { pose proof (succTarget_ge css c0). lia. }
  exists c. repeat split; auto.
  - unfold succ. fold css c0. rewrite whileTrue_passes.
    rewrite (passes_break_mono _ _ _ _ _ Hp (succTarget_depth css c0)). reflexivity.
  - eauto.
Qed.

(** The loop of the older [succ] never leaves. *)
Lemma legacy_succ_no_exit (css : string) (fuel : nat) :
  forall c, exists c', passes fuel (Legacy.succBody css) c = inl c'.
Proof.
  induction fuel as [|fuel IH]; intros c; simpl; [eauto|].
  unfold Legacy.succBody at 1.
  destruct (Re.search (collisionRegExp (toString34 c)) css); apply IH.
Qed.

(** ** The substitution table *)

Lemma issued_truthy (c : N) (t : string) : issued c t -> Str.truthy t = true.
Proof. intros [->|(x & _ & ->)]; [reflexivity | apply toString34_truthy]. Qed.

Lemma issued_mono (c c' : N) (t : string) : c <= c' -> issued c t -> issued c' t.
Proof. intros Hle [->|(x & Hx & ->)]; [now left | right; exists x; split; [lia | reflexivity]]. Qed.

Lemma issued_fresh (c c' : N) (t : string) : c <= c' -> issued c t -> t <> toString34 c'.
Proof.
  intros Hle [->|(x & Hx & ->)] Heq.
  - symmetry in Heq. now apply toString34_not_underscore in Heq.
  - apply toString34_inj in Heq. lia.
Qed.

Lemma issued_new (c : N) : issued (c + 1) (toString34 c).
Proof. right. exists c. split; [lia | reflexivity]. Qed.

(** A falsy lookup means that the name has no entry. *)
Lemma falsy_lookup (m : gmap string string) (c : N) (a : string) :
  tableInv m c -> truthyVal (getItem m a) = false -> m !! a = None.
Proof.
  intros [_ Hiss]. unfold getItem. destruct (m !! a) as [t|] eqn:Ha; [|reflexivity].
  simpl. intros Hf. rewrite (issued_truthy c t) in Hf; [discriminate | eauto].
Qed.

(** Giving a new name a token that no entry has keeps the table. *)
Lemma tableInv_insert (m : gmap string string) (c c' : N) (a t : string) :
  tableInv m c -> m !! a = None -> c <= c' -> issued c' t ->
  (forall b, m !! b <> Some t) ->
  tableInv (<[a := t]> m) c'.
Proof.
  intros [Hinj Hiss] Hnone Hle Ht Hfresh. split.
  - intros x y u Hx Hy.
    destruct (decide (a = x)) as [<-|Hax]; destruct (decide (a = y)) as [<-|Hay];
      [reflexivity | | | ].
    + rewrite lookup_insert_eq in Hx. rewrite lookup_insert_ne in Hy by assumption.
      inversion Hx; subst u. now apply Hfresh in Hy.
    + rewrite lookup_insert_eq in Hy. rewrite lookup_insert_ne in Hx by assumption.
      inversion Hy; subst u. now apply Hfresh in Hx.
    + rewrite lookup_insert_ne in Hx, Hy by assumption. eauto.
  - intros x u Hx. destruct (decide (a = x)) as [<-|Hax].
    + rewrite lookup_insert_eq in Hx. now inversion Hx; subst u.
    + rewrite lookup_insert_ne in Hx by assumption. eauto using issued_mono.
Qed.

(** The step of [replaceItem] and [replaceAll]: the pending key is
    registered and the next token, rendered from [c'], waits. *)
Lemma pendingInv_register (m : gmap string string) (c c' : N) (k a : string) :
  pendingInv m c k -> m !! a = None -> c <= c' ->
  pendingInv (<[a := k]> m) (c' + 1) (toString34 c').
Proof.
  intros (Htab & Hk & Hfresh) Hnone Hle. split; [|split].
  - apply (tableInv_insert m c); auto; [lia|]. apply (issued_mono c); [lia | assumption].
  - apply issued_new.
  - intros b Hb. destruct (decide (a = b)) as [<-|Hab].
    + rewrite lookup_insert_eq in Hb. inversion Hb as [Heq].
      now apply (issued_fresh c c' _ Hle) in Hk.
    + rewrite lookup_insert_ne in Hb by assumption.
      destruct Htab as [_ Hiss]. apply Hiss in Hb. now apply (issued_fresh c c' _ Hle) in Hb.
Qed.

(** The step of [generateCss]: a token straight from [succ]. *)
Lemma tableInv_mint (m : gmap string string) (c c' : N) (a : string) :
  tableInv m c -> m !! a = None -> c <= c' ->
  tableInv (<[a := toString34 c']> m) (c' + 1).
Proof.
  intros Htab Hnone Hle. apply (tableInv_insert m c); auto; [lia | apply issued_new |].
  intros b Hb. destruct Htab as [_ Hiss]. apply Hiss in Hb.
  now apply (issued_fresh c c' _ Hle) in Hb.
Qed.

Lemma pendingInv_table (m : gmap string string) (c : N) (k : string) :
  pendingInv m c k -> tableInv m c.
Proof. now intros [H _]. Qed.

Lemma keeps_refl (m : gmap string string) : keeps m m.
Proof. now intros k _. Qed.

Lemma keeps_trans (m1 m2 m3 : gmap string string) : keeps m1 m2 -> keeps m2 m3 -> keeps m1 m3.
Proof.
  intros H12 H23 k Hk. rewrite <- (H12 k Hk). apply H23. now rewrite (H12 k Hk).
Qed.

Lemma keeps_insert (m : gmap string string) (a t : string) :
  truthyVal (getItem m a) = false -> keeps m (<[a := t]> m).
Proof.
  intros Ha k Hk. destruct (decide (a = k)) as [<-|Hne]; [congruence|].
  unfold getItem. now rewrite lookup_insert_ne.
Qed.

Lemma extends_refl (r : Replacer) : extends r r.
Proof. unfold extends. auto 10 using keeps_refl. Qed.

Lemma extends_trans (r1 r2 r3 : Replacer) : extends r1 r2 -> extends r2 r3 -> extends r1 r3.
Proof.
  intros (H1 & K1 & H2 & H3 & H4 & H5 & H6) (G1 & K2 & G2 & G3 & G4 & G5 & G6).
  repeat split; try congruence;
    [etransitivity; eassumption | eapply keeps_trans; eassumption | lia].
Qed.

(** One entry added where the lookup was falsy, and the counter moved on. *)
Lemma extends_insert (r : Replacer) (a t : string) (c : N) :
  tableInv (items r) (counter r) ->
  truthyVal (getItem (items r) a) = false -> counter r <= c ->
  extends r (setCounter c (setItems (<[a := t]> (items r)) r)).
Proof.
  intros Hinv Ha Hle. repeat split; simpl; try reflexivity; try assumption.
  - apply insert_subseteq. eapply falsy_lookup; eassumption.
  - now apply keeps_insert.
Qed.

Lemma create_pendingInv (cfg : Config) (css : string) (ast : list cssNode) (js : list jsNode) :
  let r := parseCssRules (create cfg css ast js) in
  pendingInv (items r) (counter r) (key r).
Proof.
  simpl. split; [split|split].
  - intros a b t Ha. now rewrite lookup_empty in Ha.
  - intros a t Ha. now rewrite lookup_empty in Ha.
  - now left.
  - intros a Ha. now rewrite lookup_empty in Ha.
Qed.

(** ** The script pass keeps the table *)

Lemma setCount_id (r : Replacer) : setCount (count r) r = r.
Proof. now destruct r. Qed.

Lemma succ_extends (r : Replacer) :
  exists c,
    counter r <= c /\ succ r = (toString34 c, setCounter (c + 1) r).
Proof. destruct (succ_spec r) as (c & Hle & Heq & _). eauto. Qed.

Lemma registerMatches_spec (matches : list string) :
  forall (k : string) (r : Replacer),
    pendingInv (items r) (counter r) k ->
    forall k' r',
      registerMatches matches k r = (k', r') ->
      pendingInv (items r') (counter r') k' /\ extends r r' /\ count r' = count r.
Proof.
  induction matches as [|m rest IH]; intros k r Hinv k' r' Heq; simpl in Heq.
  - inversion Heq; subst. auto using extends_refl.
  - destruct (Str.truthy m); [|inversion Heq; subst; auto using extends_refl].
    destruct (truthyVal (getItem (items r) m)) eqn:Hm; [eauto|].
    pose proof (falsy_lookup _ (counter r) _ (pendingInv_table _ _ _ Hinv) Hm) as Hnone.
    destruct (succ_extends (setItems (<[m:=k]> (items r)) r)) as (c & Hle & Hs).
    rewrite Hs in Heq. simpl in Hle.
    apply IH in Heq; [|simpl; now apply (pendingInv_register _ (counter r))].
    destruct Heq as (Hp & Hext & Hcount). split; [assumption|]. split; [|assumption].
    apply (extends_trans _ (setCounter (c + 1) (setItems (<[m:=k]> (items r)) r))); [|assumption].
    apply extends_insert; [apply Hinv | assumption | lia].
Qed.

Lemma replaceCounting_spec (segs : list Re.segment) (r : Replacer) :
  snd (replaceCounting segs r) = setCount (count r + N.of_nat (length (Re.hits segs))) r.
Proof.
  revert r. induction segs as [|[c|a] rest IH]; intros r; simpl.
  - now rewrite N.add_0_r, setCount_id.
  - specialize (IH r). destruct (replaceCounting rest r) as [s r']. exact IH.
  - specialize (IH (setCount (count r + 1) r)).
    destruct (replaceCounting rest (setCount (count r + 1) r)) as [s r'].
    simpl in *. rewrite IH. unfold setCount. simpl. f_equal. lia.
Qed.

Lemma matchAll_hits (p : Re.pattern) (s : string) :
  Re.matchAll p s = None -> Re.hits (Re.segments p s) = [].
Proof. unfold Re.matchAll. now destruct (Re.hits (Re.segments p s)). Qed.

Lemma replaceItem_spec (value : string) (r : Replacer) :
  pendingInv (items r) (counter r) (key r) ->
  forall value' r',
    replaceItem value r = (value', r') ->
    pendingInv (items r') (counter r') (key r') /\ extends r r' /\
    count r' = count r +
      N.of_nat (length (Re.hits (Re.segments (generateJsClsRegExp (config r) (classes r)) value))).
Proof.
  intros Hinv value' r' Heq. unfold replaceItem in Heq.
  set (re := generateJsClsRegExp (config r) (classes r)) in *.
  destruct (Re.matchAll re value) as [matches|] eqn:Hm.
  - destruct (registerMatches matches (key r) r) as [k1 r1] eqn:Hreg.
    apply registerMatches_spec in Hreg; [|assumption].
    destruct Hreg as (Hp & Hext & Hcount).
    pose proof (replaceCounting_spec (Re.segments re value) r1) as Hrc.
    destruct (replaceCounting (Re.segments re value) r1) as [v2 r2].
    simpl in Hrc. inversion Heq; subst. simpl. rewrite Hcount.
    repeat split; try apply Hp; try apply Hext.
  - inversion Heq; subst. rewrite (matchAll_hits _ _ Hm). simpl.
    split; [assumption|]. split; [apply extends_refl | lia].
Qed.

Lemma enter_spec (node : jsNode) (r : Replacer) :
  pendingInv (items r) (counter r) (key r) ->
  forall node' r',
    enter node r = (node', r') ->
    pendingInv (items r') (counter r') (key r') /\ extends r r' /\
    count r' = count r + N.of_nat (nodeHits (config r) (classes r) node).
Proof.
  intros Hinv node' r' Heq. unfold enter in Heq. unfold nodeHits.
  destruct (replaceVeto (config r) node).
  - inversion Heq; subst. split; [assumption|]. split; [apply extends_refl | simpl; lia].
  - destruct node as [[value|]|t];
      try (inversion Heq; subst; split; [assumption|]; split; [apply extends_refl | simpl; lia]).
    destruct (replaceItem value r) as [v1 r1] eqn:Hri.
    inversion Heq; subst. now apply replaceItem_spec in Hri.
Qed.

Lemma traverse_spec (nodes : list jsNode) :
  forall (r : Replacer),
    pendingInv (items r) (counter r) (key r) ->
    forall nodes' r',
      traverse nodes r = (nodes', r') ->
      pendingInv (items r') (counter r') (key r') /\ extends r r' /\
      count r' = count r + N.of_nat (literalHits (config r) (classes r) nodes).
Proof.
  induction nodes as [|node rest IH]; intros r Hinv nodes' r' Heq; simpl in Heq.
  - inversion Heq; subst. split; [assumption|]. split; [apply extends_refl | simpl; lia].
  - destruct (enter node r) as [n1 r1] eqn:He.
    destruct (traverse rest r1) as [rest1 r2] eqn:Ht.
    inversion Heq; subst.
    apply enter_spec in He; [|assumption]. destruct He as (Hp1 & He1 & Hc1).
    apply IH in Ht; [|assumption]. destruct Ht as (Hp2 & He2 & Hc2).
    split; [assumption|]. split; [eapply extends_trans; eassumption|].
    destruct He1 as (_ & _ & _ & Hcfg & _ & Hcls & _). rewrite Hcfg, Hcls in Hc2.
    simpl. lia.
Qed.

Lemma traverse_app (l1 l2 : list jsNode) (r : Replacer) :
  traverse (l1 ++ l2) r =
  let '(o1, r1) := traverse l1 r in
  let '(o2, r2) := traverse l2 r1 in
  ((o1 ++ o2)%list, r2).
Proof.
  revert r. induction l1 as [|node l1 IH]; intros r; simpl.
  - now destruct (traverse l2 r).
  - destruct (enter node r) as [n1 r1]. rewrite IH.
    destruct (traverse l1 r1) as [o1 r2]. now destruct (traverse l2 r2).
Qed.

(** ** The exhaustive pass keeps the table *)

Lemma replaceAllLoop_spec (cls : list string) :
  forall (k : string) (r : Replacer),
    pendingInv (items r) (counter r) k ->
    forall k' r',
      replaceAllLoop cls k r = (k', r') ->
      pendingInv (items r') (counter r') k' /\ extends r r' /\
      count r' + N.of_nat (size (items r)) = count r + N.of_nat (size (items r')).
Proof.
  induction cls as [|c rest IH]; intros k r Hinv k' r' Heq; simpl in Heq.
  - inversion Heq; subst. split; [assumption|]. split; [apply extends_refl | lia].
  - destruct (truthyVal (getItem (items r) c)) eqn:Hc; [eauto|].
    pose proof (falsy_lookup _ (counter r) _ (pendingInv_table _ _ _ Hinv) Hc) as Hnone.
    destruct (succ_extends (setItems (<[c:=k]> (items r)) r)) as (x & Hle & Hs).
    rewrite Hs in Heq. simpl in Hle, Heq.
    apply IH in Heq; [|simpl; now apply (pendingInv_register _ (counter r))].
    destruct Heq as (Hp & Hext & Hcount). simpl in Hcount.
    rewrite (map_size_insert_None _ _ _ Hnone) in Hcount.
    split; [assumption|]. split; [|lia].
    eapply extends_trans; [|exact Hext].
    apply (extends_insert r c k (x + 1)); [apply Hinv | assumption | lia].
Qed.

(** ** The stylesheet pass keeps the table *)

(** Reading a field of an updated state. *)
Ltac fields :=
  cbn [items counter count key config cssText classes rules jsAst
       setItems setCounter setCount setKey setClasses setRules setJsAst fst snd] in *.

Lemma cssStep_refl (r : Replacer) : tableInv (items r) (counter r) -> cssStep r r.
Proof. intros H. repeat split; try apply H; try apply extends_refl. now left. Qed.

Lemma mintedBetween_mono (css : string) (a b a' b' : N) (t : string) :
  a' <= a -> b <= b' -> mintedBetween css a b t -> mintedBetween css a' b' t.
Proof. intros Ha Hb (x & Hx & H). exists x. split; [lia | assumption]. Qed.

Lemma cssStep_trans (r1 r2 r3 : Replacer) : cssStep r1 r2 -> cssStep r2 r3 -> cssStep r1 r3.
Proof.
  intros (_ & He1 & Hc1 & Hn1) (Ht2 & He2 & Hc2 & Hn2).
  split; [assumption|]. split; [eapply extends_trans; eassumption|].
  split; [congruence|]. intros k t Hk.
  pose proof He1 as (_ & _ & Hle1 & _ & Hcss1 & _).
  pose proof He2 as (_ & _ & Hle2 & _).
  destruct (Hn2 k t Hk) as [Hold|Hnew].
  - destruct (Hn1 k t Hold) as [|Hnew]; [now left | right].
    eapply mintedBetween_mono; [| |exact Hnew]; lia.
  - right. rewrite Hcss1 in Hnew. eapply mintedBetween_mono; [| |exact Hnew]; lia.
Qed.

(** The minting step of the selector callback. *)
Lemma mint_spec (r : Replacer) (clazz : string) :
  tableInv (items r) (counter r) ->
  truthyVal (getItem (items r) clazz) = false ->
  let r1 := (let '(token, r0) := succ r in setItems (<[clazz := token]> (items r0)) r0) in
  cssStep r r1 /\ truthyVal (getItem (items r1) clazz) = true.
Proof.
  intros Hinv Hfalsy.
  pose proof (falsy_lookup _ _ _ Hinv Hfalsy) as Hnone.
  destruct (succ_spec r) as (c & Hle & Hs & Hvalid & Hfree & _).
  rewrite Hs. cbv zeta. cbv beta iota. fields.
  split; [split; [|split; [|split]]|].
  - now apply (tableInv_mint _ (counter r)).
  - repeat split; fields; try reflexivity; try lia.
    + now apply insert_subseteq.
    + now apply keeps_insert.
  - reflexivity.
  - intros k t Hk. fields. destruct (decide (clazz = k)) as [<-|Hne].
    + rewrite lookup_insert_eq in Hk. inversion Hk; subst t. right.
      exists c. repeat split; auto; lia.
    + rewrite lookup_insert_ne in Hk by assumption. now left.
  - unfold getItem. rewrite lookup_insert_eq. apply toString34_truthy.
Qed.

Lemma rewriteSelector_step (hasNot : bool) (segs : list Re.segment) :
  forall r, tableInv (items r) (counter r) ->
    forall out r', rewriteSelector hasNot segs r = (out, r') -> cssStep r r'.
Proof.
  induction segs as [|[c|a] rest IH]; intros r Hinv out r' Heq; simpl in Heq.
  - inversion Heq; subst. now apply cssStep_refl.
  - destruct (rewriteSelector hasNot rest r) as [s r2] eqn:Hr.
    inversion Heq; subst. eauto.
  - destruct (negb (truthyVal (getItem (items r) (Str.removeFirstDot a))) && hasNot) eqn:Hcond.
    + apply andb_true_iff in Hcond as [Hf _]. apply negb_true_iff in Hf.
      destruct (mint_spec r _ Hinv Hf) as [Hstep _].
      set (r1 := let '(token, r0) := succ r in
                 setItems (<[Str.removeFirstDot a:=token]> (items r0)) r0) in *.
      destruct (rewriteSelector hasNot rest r1) as [s r2] eqn:Hr.
      inversion Heq; subst. eapply cssStep_trans; [exact Hstep|].
      eapply IH; [apply Hstep | exact Hr].
    + destruct (rewriteSelector hasNot rest r) as [s r2] eqn:Hr.
      inversion Heq; subst. eauto.
Qed.

(** Without [:not] in the rule the callback changes nothing. *)
Lemma rewriteSelector_pure (segs : list Re.segment) (r : Replacer) :
  rewriteSelector false segs r = (substitute (items r) segs, r).
Proof.
  induction segs as [|[c|a] rest IH]; simpl.
  - reflexivity.
  - now rewrite IH.
  - rewrite andb_false_r, IH. reflexivity.
Qed.

(** A substitution reads the same in every later table once all its
    references have a truthy lookup. *)
Lemma substitute_keeps (m m' : gmap string string) (segs : list Re.segment) :
  keeps m m' ->
  (forall a, a ∈ Re.hits segs -> truthyVal (getItem m (Str.removeFirstDot a)) = true) ->
  substitute m' segs = substitute m segs.
Proof.
  intros Hk. induction segs as [|[c|a] rest IH]; intros Hall; simpl.
  - reflexivity.
  - rewrite IH; [reflexivity | exact Hall].
  - rewrite IH; [|intros b Hb; apply Hall; simpl; now right].
    rewrite (Hk (Str.removeFirstDot a)); [reflexivity|]. apply Hall. simpl. now left.
Qed.

(** With [:not] in the rule every reference of the selector ends up with a
    truthy lookup, and the rewritten selector is the substitution with the
    table as it is afterwards. *)
Lemma rewriteSelector_settled (segs : list Re.segment) :
  forall r, tableInv (items r) (counter r) ->
    forall out r', rewriteSelector true segs r = (out, r') ->
      (forall a, a ∈ Re.hits segs -> truthyVal (getItem (items r') (Str.removeFirstDot a)) = true)
      /\ out = substitute (items r') segs.
Proof.
  induction segs as [|[c|a] rest IH]; intros r Hinv out r' Heq; simpl in Heq.
  - inversion Heq; subst. split; [|reflexivity]. intros a Ha. inversion Ha.
  - destruct (rewriteSelector true rest r) as [s r2] eqn:Hr.
    inversion Heq; subst. destruct (IH _ Hinv _ _ Hr) as [Hall Hout].
    split; [exact Hall | simpl; now rewrite Hout].
  - set (clazz := Str.removeFirstDot a) in *.
    assert (Hr1 : exists r1,
      (if negb (truthyVal (getItem (items r) clazz)) && true
       then let '(token, r0) := succ r in setItems (<[clazz:=token]> (items r0)) r0
       else r) = r1 /\ cssStep r r1 /\ truthyVal (getItem (items r1) clazz) = true).
    { destruct (truthyVal (getItem (items r) clazz)) eqn:Hc; simpl.
      - exists r. auto using cssStep_refl.
      - destruct (mint_spec r clazz Hinv Hc) as [Hstep Htr]. eauto. }
    destruct Hr1 as (r1 & Hr1 & Hstep & Htr). rewrite Hr1 in Heq.
    clear Hr1. destruct (rewriteSelector true rest r1) as [s r2] eqn:Hr.
    inversion Heq; subst out r'.
    destruct (IH r1 (proj1 Hstep) _ _ Hr) as [Hall Hout].
    pose proof (rewriteSelector_step _ _ _ (proj1 Hstep) _ _ Hr) as (_ & (_ & Hkeep & _) & _).
    assert (Hsame : getItem (items r2) clazz = getItem (items r1) clazz)
      by (apply Hkeep; exact Htr).
    split.
    + intros b Hb. simpl in Hb. apply elem_of_cons in Hb as [->|Hb]; [|now apply Hall].
      fold clazz. rewrite Hsame. exact Htr.
    + simpl. fold clazz. rewrite Hsame, Hout. reflexivity.
Qed.

Lemma rewriteSelectors_step (re : Re.pattern) (hasNot : bool) (selectors : list string) :
  forall r, tableInv (items r) (counter r) ->
    forall news r', rewriteSelectors re hasNot selectors r = (news, r') -> cssStep r r'.
Proof.
  induction selectors as [|sel rest IH]; intros r Hinv news r' Heq; simpl in Heq.
  - inversion Heq; subst. now apply cssStep_refl.
  - destruct (Str.truthy sel); [|inversion Heq; subst; now apply cssStep_refl].
    destruct (rewriteSelector hasNot (Re.segments re sel) r) as [out1 r1] eqn:H1.
    destruct (rewriteSelectors re hasNot rest r1) as [news2 r2] eqn:H2.
    inversion Heq; subst news r'.
    pose proof (rewriteSelector_step _ _ _ Hinv _ _ H1) as Hs1.
    eapply cssStep_trans; [exact Hs1|]. eapply IH; [apply Hs1 | exact H2].
Qed.

(** The selectors the loop keeps: the visited selectors, substituted with
    the table as it is after the loop, without the unresolved ones. *)
Lemma rewriteSelectors_out (re : Re.pattern) (hasNot : bool) (selectors : list string) :
  forall r, tableInv (items r) (counter r) ->
    forall news r', rewriteSelectors re hasNot selectors r = (news, r') ->
      news = List.filter (fun s => negb (unresolved s))
               (map (fun sel => substitute (items r') (Re.segments re sel))
                    (untilEmpty selectors)) /\
      (hasNot = true ->
       forall sel a, sel ∈ untilEmpty selectors -> a ∈ Re.hits (Re.segments re sel) ->
         truthyVal (getItem (items r') (Str.removeFirstDot a)) = true) /\
      (hasNot = false -> r' = r).
Proof.
  induction selectors as [|sel rest IH]; intros r Hinv news r' Heq; simpl in Heq.
  - inversion Heq; subst. repeat split; auto. intros _ sel a Hsel. inversion Hsel.
  - simpl untilEmpty. destruct (Str.truthy sel).
    2:{ inversion Heq; subst. repeat split; auto. intros _ s a Hs. inversion Hs. }
    destruct (rewriteSelector hasNot (Re.segments re sel) r) as [out1 r1] eqn:H1.
    destruct (rewriteSelectors re hasNot rest r1) as [news2 r2] eqn:H2.
    inversion Heq; subst news r'. clear Heq.
    pose proof (rewriteSelector_step _ _ _ Hinv _ _ H1) as Hs1.
    pose proof (rewriteSelectors_step _ _ _ _ (proj1 Hs1) _ _ H2) as (_ & (_ & Hkeep & _) & _).
    destruct (IH r1 (proj1 Hs1) _ _ H2) as (Hnews & Hset & Hpure).
    assert (Hout : out1 = substitute (items r2) (Re.segments re sel) /\
                   (hasNot = true -> forall a, a ∈ Re.hits (Re.segments re sel) ->
                      truthyVal (getItem (items r2) (Str.removeFirstDot a)) = true)).
    { destruct hasNot.
      - destruct (rewriteSelector_settled _ _ Hinv _ _ H1) as [Hall Ho]. split.
        + rewrite Ho. symmetry. now apply substitute_keeps.
        + intros _ a Ha. rewrite (Hkeep _ (Hall a Ha)). now apply Hall.
      - rewrite rewriteSelector_pure in H1. inversion H1; subst out1 r1.
        rewrite (Hpure eq_refl). split; [reflexivity | discriminate]. }
    destruct Hout as [Hout Hsel]. split; [|split].
    + cbn [map List.filter]. rewrite <- Hout, <- Hnews.
      now destruct (unresolved out1).
    + intros Hn s a Hs Ha. apply elem_of_cons in Hs as [->|Hs]; [now apply Hsel | eauto].
    + intros Hn. rewrite (Hpure Hn). rewrite Hn in H1.
      rewrite rewriteSelector_pure in H1. now inversion H1.
Qed.

Lemma untilEmpty_all (selectors : list string) :
  forallb Str.truthy selectors = true -> untilEmpty selectors = selectors.
Proof.
  induction selectors as [|s rest IH]; simpl; [reflexivity|].
  destruct (Str.truthy s); [|discriminate]. simpl. intros H. now rewrite IH.
Qed.

Lemma untilEmpty_short (selectors : list string) :
  forallb Str.truthy selectors = false ->
  (length (untilEmpty selectors) < length selectors)%nat.
Proof.
  induction selectors as [|s rest IH]; simpl; [discriminate|].
  destruct (Str.truthy s); simpl; [|lia]. intros H. apply IH in H. lia.
Qed.

Lemma filter_all {A : Type} (p : A -> bool) (l : list A) :
  forallb p l = true -> List.filter p l = l.
Proof.
  induction l as [|x l IH]; simpl; [reflexivity|].
  destruct (p x); [|discriminate]. simpl. intros H. now rewrite IH.
Qed.

Lemma filter_length_le' {A : Type} (p : A -> bool) (l : list A) :
  (length (List.filter p l) <= length l)%nat.
Proof. induction l as [|x l IH]; simpl; [lia|]. destruct (p x); simpl; lia. Qed.

Lemma filter_short {A : Type} (p : A -> bool) (l : list A) :
  forallb p l = false -> (length (List.filter p l) < length l)%nat.
Proof.
  induction l as [|x l IH]; simpl; [discriminate|].
  destruct (p x); simpl.
  - intros H. apply IH in H. lia.
  - intros _. pose proof (filter_length_le' p l). lia.
Qed.

(** One rule: its selector list becomes the list of its substituted
    selectors when every selector is non-empty and resolved, and the empty
    list otherwise. *)
Lemma rewriteRule_spec (selectors : list string) (r : Replacer) :
  tableInv (items r) (counter r) ->
  forall out r',
    rewriteRule selectors r = (out, r') ->
    cssStep r r' /\
    let rewritten := map (substituteSelector (items r') (config r)) selectors in
    out = (if forallb Str.truthy selectors
              && forallb (fun s => negb (unresolved s)) rewritten
           then rewritten else []) /\
    (Str.contains ":not" (Str.join " " selectors) = true ->
     forall sel c, sel ∈ untilEmpty selectors -> c ∈ classRefs (config r) sel ->
       truthyVal (getItem (items r') c) = true) /\
    (Str.contains ":not" (Str.join " " selectors) = false -> r' = r).
Proof.
  intros Hinv out r' Heq. unfold rewriteRule in Heq.
  set (hasNot := Str.contains ":not" (Str.join " " selectors)) in *.
  set (re := generateCssClsRegExp (config r)) in *.
  destruct (rewriteSelectors re hasNot selectors r) as [news r1] eqn:Hrs.
  inversion Heq; subst out r'. clear Heq.
  pose proof (rewriteSelectors_step _ _ _ _ Hinv _ _ Hrs) as Hstep.
  destruct (rewriteSelectors_out _ _ _ _ Hinv _ _ Hrs) as (Hnews & Hset & Hpure).
  split; [assumption|]. cbv zeta. split; [|split; [|assumption]].
  - unfold substituteSelector. fold re.
    set (f := fun sel => substitute (items r1) (Re.segments re sel)) in *.
    set (p := fun s => negb (unresolved s)) in *.
    destruct (forallb Str.truthy selectors) eqn:Ht; simpl.
    + rewrite (untilEmpty_all _ Ht) in Hnews.
      destruct (forallb p (map f selectors)) eqn:Hp.
      * rewrite (filter_all _ _ Hp) in Hnews. subst news.
        now rewrite length_map, Nat.eqb_refl.
      * apply filter_short in Hp. rewrite length_map in Hp. rewrite <- Hnews in Hp.
        destruct (Nat.eqb_spec (length news) (length selectors)); [lia | reflexivity].
    + apply untilEmpty_short in Ht.
      pose proof (filter_length_le' p (map f (untilEmpty selectors))) as Hle.
      rewrite length_map, <- Hnews in Hle.
      destruct (Nat.eqb_spec (length news) (length selectors)); [lia | reflexivity].
  - intros Hn sel c Hsel Hc. unfold classRefs in Hc. fold re in Hc.
    apply list_elem_of_fmap in Hc as (a & -> & Ha). eapply Hset; eassumption.
Qed.

Lemma rewriteMediaRules_step (nodes : list cssNode) :
  forall r, tableInv (items r) (counter r) ->
    forall nodes' r', rewriteMediaRules nodes r = (nodes', r') -> cssStep r r'.
Proof.
  induction nodes as [|node rest IH]; intros r Hinv nodes' r' Heq; simpl in Heq.
  - inversion Heq; subst. now apply cssStep_refl.
  - destruct node as [sels|nested|t].
    + destruct (rewriteRule sels r) as [sels1 r1] eqn:H1.
      destruct (rewriteMediaRules rest r1) as [rest1 r2] eqn:H2.
      inversion Heq; subst nodes' r'.
      destruct (rewriteRule_spec _ _ Hinv _ _ H1) as [Hs1 _].
      eapply cssStep_trans; [exact Hs1|]. eapply IH; [apply Hs1 | exact H2].
    + destruct (rewriteMediaRules rest r) as [rest1 r2] eqn:H2.
      inversion Heq; subst nodes' r'. eauto.
    + destruct (rewriteMediaRules rest r) as [rest1 r2] eqn:H2.
      inversion Heq; subst nodes' r'. eauto.
Qed.

Lemma rewriteRules_step (nodes : list cssNode) :
  forall r, tableInv (items r) (counter r) ->
    forall nodes' r', rewriteRules nodes r = (nodes', r') -> cssStep r r'.
Proof.
  induction nodes as [|node rest IH]; intros r Hinv nodes' r' Heq; simpl in Heq.
  - inversion Heq; subst. now apply cssStep_refl.
  - destruct node as [sels|nested|t].
    + destruct (rewriteRule sels r) as [sels1 r1] eqn:H1.
      destruct (rewriteRules rest r1) as [rest1 r2] eqn:H2.
      inversion Heq; subst nodes' r'.
      destruct (rewriteRule_spec _ _ Hinv _ _ H1) as [Hs1 _].
      eapply cssStep_trans; [exact Hs1|]. eapply IH; [apply Hs1 | exact H2].
    + destruct (rewriteMediaRules nested r) as [nested1 r1] eqn:H1.
      destruct (rewriteRules rest r1) as [rest1 r2] eqn:H2.
      inversion Heq; subst nodes' r'.
      pose proof (rewriteMediaRules_step _ _ Hinv _ _ H1) as Hs1.
      eapply cssStep_trans; [exact Hs1|]. eapply IH; [apply Hs1 | exact H2].
    + destruct (rewriteRules rest r) as [rest1 r2] eqn:H2.
      inversion Heq; subst nodes' r'. eauto.
Qed.

Lemma rewriteRules_app (l1 l2 : list cssNode) (r : Replacer) :
  rewriteRules (l1 ++ l2) r =
  let '(o1, r1) := rewriteRules l1 r in
  let '(o2, r2) := rewriteRules l2 r1 in
  ((o1 ++ o2)%list, r2).
Proof.
  revert r. induction l1 as [|node l1 IH]; intros r; simpl.
  - now destruct (rewriteRules l2 r).
  - destruct node as [sels|nested|t].
    + destruct (rewriteRule sels r) as [s1 r1]. rewrite IH.
      destruct (rewriteRules l1 r1) as [o1 r2]. now destruct (rewriteRules l2 r2).
    + destruct (rewriteMediaRules nested r) as [n1 r1]. rewrite IH.
      destruct (rewriteRules l1 r1) as [o1 r2]. now destruct (rewriteRules l2 r2).
    + rewrite IH. destruct (rewriteRules l1 r) as [o1 r2]. now destruct (rewriteRules l2 r2).
Qed.

(** ** The catalog *)

Lemma indexOf_None (x : string) (l : list string) : indexOf x l = None <-> x ∉ l.
Proof.
  induction l as [|y l IH]; simpl.
  - split; [intros _ H; inversion H | reflexivity].
  - destruct (String.eqb_spec y x) as [->|Hne].
    + split; [discriminate | intros H; exfalso; apply H; left].
    + rewrite not_elem_of_cons, <- IH.
      destruct (indexOf x l); simpl.
      * split; [discriminate | intros [_ H]; discriminate].
      * split; [intros _; split; [congruence | reflexivity] | reflexivity].
Qed.

Lemma indexOf_lt (x : string) (l : list string) (i : nat) :
  indexOf x l = Some i -> (i < length l)%nat.
Proof.
  revert i. induction l as [|y l IH]; intros i; simpl; [discriminate|].
  destruct (String.eqb y x); [intros [= <-]; lia|].
  destruct (indexOf x l) as [j|]; simpl; [|discriminate].
  intros [= <-]. specialize (IH j eq_refl). lia.
Qed.

Lemma indexOf_app (x : string) (pre l : list string) :
  indexOf x (pre ++ l) =
  match indexOf x pre with
  | Some i => Some i
  | None => (fun i => (length pre + i)%nat) <$> indexOf x l
  end.
Proof.
  induction pre as [|y pre IH]; simpl.
  - now destruct (indexOf x l).
  - destruct (String.eqb y x); [reflexivity|]. rewrite IH.
    destruct (indexOf x pre); simpl; [reflexivity|]. now destruct (indexOf x l).
Qed.

Lemma indexOf_first (x : string) (pre l : list string) :
  indexOf x (pre ++ x :: l) = Some (length pre) <-> x ∉ pre.
Proof.
  rewrite indexOf_app. simpl. rewrite String.eqb_refl. simpl.
  destruct (indexOf x pre) as [i|] eqn:Hi.
  - split.
    + intros [= ->]. apply indexOf_lt in Hi. lia.
    + intros Hn. apply indexOf_None in Hn. congruence.
  - apply indexOf_None in Hi. split; [auto | intros _; f_equal; lia].
Qed.

Lemma dedupFrom_ext (l : list string) :
  forall seen1 seen2,
    (forall y, y ∈ l -> (y ∈ seen1 <-> y ∈ seen2)) ->
    dedupFrom seen1 l = dedupFrom seen2 l.
Proof.
  induction l as [|x l IH]; intros seen1 seen2 H; simpl; [reflexivity|].
  assert (Hx : x ∈ seen1 <-> x ∈ seen2) by (apply H; left).
  rewrite (bool_decide_ext _ _ Hx). destruct (bool_decide (x ∈ seen2)).
  - apply IH. intros y Hy. apply H. now right.
  - f_equal. apply IH. intros y Hy. rewrite !elem_of_app.
    specialize (H y (list_elem_of_further _ _ _ Hy)). tauto.
Qed.

(** Keeping the positions where a name occurs first removes the
    repetitions. *)
Lemma filterFirst_dedupFrom (l : list string) :
  forall pre, filterFirst (pre ++ l) (length pre) l = dedupFrom pre l.
Proof.
  induction l as [|x l IH]; intros pre; simpl; [reflexivity|].
  specialize (IH (pre ++ [x])%list). rewrite <- app_assoc, length_app in IH. simpl in IH.
  replace (length pre + 1)%nat with (S (length pre)) in IH by lia.
  destruct (decide (x ∈ pre)) as [Hin|Hnin].
  - rewrite (bool_decide_eq_true_2 _ Hin), bool_decide_eq_false_2;
      [|now rewrite indexOf_first].
    rewrite IH. apply dedupFrom_ext. intros y _.
    rewrite elem_of_app, list_elem_of_singleton.
    split; [intros [H| ->]; assumption | now left].
  - rewrite (bool_decide_eq_false_2 _ Hnin), bool_decide_eq_true_2; [now rewrite IH|].
    now rewrite indexOf_first.
Qed.

Lemma filterFirst_dedupFirst (l : list string) : filterFirst l O l = dedupFirst l.
Proof. apply (filterFirst_dedupFrom l []). Qed.

Lemma elem_of_dedupFrom (x : string) (l : list string) :
  forall seen, x ∈ dedupFrom seen l <-> x ∈ l /\ x ∉ seen.
Proof.
  induction l as [|y l IH]; intros seen; simpl.
  - split; [intros H; inversion H | intros [H _]; inversion H].
  - destruct (decide (y ∈ seen)) as [Hin|Hnin].
    + rewrite (bool_decide_eq_true_2 _ Hin), IH, elem_of_cons.
      split; [tauto|]. intros [[->|H] Hn]; tauto.
    + rewrite (bool_decide_eq_false_2 _ Hnin), !elem_of_cons, IH, not_elem_of_app,
        list_elem_of_singleton.
      split.
      * intros [->|[H [Hn _]]]; tauto.
      * intros [[->|H] Hn]; [now left|].
        destruct (decide (x = y)) as [->|Hne]; [now left | right; tauto].
Qed.

Lemma NoDup_dedupFrom (l : list string) : forall seen, NoDup (dedupFrom seen l).
Proof.
  induction l as [|y l IH]; intros seen; simpl; [constructor|].
  destruct (bool_decide (y ∈ seen)); [apply IH|].
  constructor; [|apply IH].
  rewrite elem_of_dedupFrom, not_elem_of_app, list_elem_of_singleton. tauto.
Qed.

Lemma elem_of_ofLength (n : nat) (x : string) (l : list string) :
  x ∈ ofLength n l <-> x ∈ l /\ String.length x = n.
Proof.
  unfold ofLength. rewrite !list_elem_of_In, List.filter_In, Nat.eqb_eq. tauto.
Qed.

(** Selecting a length and removing repetitions commute. *)
Lemma ofLength_dedupFrom (n : nat) (l : list string) :
  forall seen, ofLength n (dedupFrom seen l) = dedupFrom seen (ofLength n l).
Proof.
  induction l as [|x l IH]; intros seen; simpl; [reflexivity|].
  destruct (bool_decide (x ∈ seen)) eqn:Hseen.
  - rewrite IH. destruct (String.length x =? n)%nat; [|reflexivity].
    simpl. now rewrite Hseen.
  - simpl. destruct (Nat.eqb_spec (String.length x) n) as [Hn|Hn].
    + simpl. now rewrite Hseen, IH.
    + rewrite IH. apply dedupFrom_ext. intros y Hy.
      apply elem_of_ofLength in Hy as [_ Hy].
      rewrite elem_of_app, list_elem_of_singleton.
      split; [intros [H| ->]; [assumption | congruence] | now left].
Qed.

(** The sort is stable: the names of one length keep their order. *)
Lemma ofLength_insertByLength (n : nat) (x : string) (l : list string) :
  ofLength n (insertByLength x l) = ofLength n (x :: l).
Proof.
  induction l as [|y l IH]; [reflexivity|]. simpl insertByLength.
  destruct (Nat.leb_spec (String.length y) (String.length x)) as [Hle|Hgt]; [reflexivity|].
  change (ofLength n (y :: insertByLength x l))
    with (if (String.length y =? n)%nat then y :: ofLength n (insertByLength x l)
          else ofLength n (insertByLength x l)).
  rewrite IH. simpl.
  destruct (Nat.eqb_spec (String.length y) n), (Nat.eqb_spec (String.length x) n);
    try reflexivity. lia.
Qed.

Lemma ofLength_sortByLength (n : nat) (l : list string) :
  ofLength n (sortByLength l) = ofLength n l.
Proof.
  induction l as [|x l IH]; [reflexivity|].
  change (sortByLength (x :: l)) with (insertByLength x (sortByLength l)).
  rewrite ofLength_insertByLength. simpl. now rewrite IH.
Qed.

Lemma elem_of_insertByLength (y x : string) (l : list string) :
  y ∈ insertByLength x l <-> y = x \/ y ∈ l.
Proof.
  induction l as [|z l IH]; simpl.
  - rewrite list_elem_of_singleton. split; [now left | intros [H|H]; [assumption | inversion H]].
  - destruct (String.length z <=? String.length x)%nat.
    + now rewrite elem_of_cons.
    + rewrite !elem_of_cons, IH. tauto.
Qed.

Lemma elem_of_sortByLength (y : string) (l : list string) : y ∈ sortByLength l <-> y ∈ l.
Proof.
  induction l as [|x l IH]; [reflexivity|].
  change (sortByLength (x :: l)) with (insertByLength x (sortByLength l)).
  now rewrite elem_of_insertByLength, elem_of_cons, IH.
Qed.

Lemma insertByLength_sorted (x : string) (l : list string) :
  StronglySorted longerFirst l -> StronglySorted longerFirst (insertByLength x l).
Proof.
  induction l as [|y l IH]; intros Hs; simpl.
  - repeat constructor.
  - destruct (Nat.leb_spec (String.length y) (String.length x)) as [Hle|Hgt].
    + constructor; [assumption|]. inversion Hs as [|? ? Hs' Hall]; subst.
      constructor; [exact Hle|]. eapply Forall_impl; [exact Hall|].
      unfold longerFirst. intros z Hz. lia.
    + inversion Hs as [|? ? Hs' Hall]; subst. constructor; [auto|].
      apply Forall_forall. intros z Hz. apply elem_of_insertByLength in Hz as [->|Hz].
      * unfold longerFirst. lia.
      * rewrite Forall_forall in Hall. auto.
Qed.

Lemma sortByLength_sorted (l : list string) : StronglySorted longerFirst (sortByLength l).
Proof.
  induction l as [|x l IH]; [constructor|].
  change (sortByLength (x :: l)) with (insertByLength x (sortByLength l)).
  now apply insertByLength_sorted.
Qed.

Lemma dedupFrom_sorted (l : list string) :
  forall seen, StronglySorted longerFirst l -> StronglySorted longerFirst (dedupFrom seen l).
Proof.
  induction l as [|x l IH]; intros seen Hs; simpl; [constructor|].
  inversion Hs as [|? ? Hs' Hall]; subst.
  destruct (bool_decide (x ∈ seen)); [auto|].
  constructor; [auto|]. rewrite Forall_forall in *. intros y Hy.
  apply elem_of_dedupFrom in Hy as [Hy _]. auto.
Qed.

(** The catalog is the sorted list of class names without repetitions. *)
Lemma catalog_dedup (re : Re.pattern) (nodes : list cssNode) :
  catalog re nodes = dedupFirst (sortByLength (collectClasses re nodes)).
Proof. unfold catalog. apply filterFirst_dedupFirst. Qed.

Lemma elem_of_catalog (re : Re.pattern) (nodes : list cssNode) (c : string) :
  c ∈ catalog re nodes <-> c ∈ collectClasses re nodes.
Proof.
  rewrite catalog_dedup. unfold dedupFirst.
  rewrite elem_of_dedupFrom, elem_of_sortByLength.
  split; [tauto | intros H; split; [assumption | apply not_elem_of_nil]].
Qed.

Lemma elem_of_collectClasses (re : Re.pattern) (nodes : list cssNode) (c : string) :
  c ∈ collectClasses re nodes ->
  exists selectors, Rule selectors ∈ nodes /\ c ∈ extractClasses re selectors.
Proof.
  induction nodes as [|node rest IH]; simpl; [intros H; inversion H|].
  destruct node as [sels|nested|t].
  - rewrite elem_of_app. intros [H|H].
    + exists sels. split; [left | assumption].
    + destruct (IH H) as (s & Hs & Hc). exists s. split; [now right | assumption].
  - intros H. destruct (IH H) as (s & Hs & Hc). exists s. split; [now right | assumption].
  - intros H. destruct (IH H) as (s & Hs & Hc). exists s. split; [now right | assumption].
Qed.

(** ** Whole runs *)

Lemma traverse_prefix (l1 l2 : list jsNode) (r : Replacer) :
  pendingInv (items r) (counter r) (key r) ->
  let r1 := snd (traverse l1 r) in
  let r2 := snd (traverse (l1 ++ l2) r) in
  pendingInv (items r1) (counter r1) (key r1) /\
  pendingInv (items r2) (counter r2) (key r2) /\
  extends r r1 /\ extends r1 r2.
Proof.
  intros Hinv. cbv zeta. rewrite traverse_app.
  destruct (traverse l1 r) as [o1 r1] eqn:H1.
  destruct (traverse l2 r1) as [o2 r2] eqn:H2. simpl.
  destruct (traverse_spec _ _ Hinv _ _ H1) as (Hp1 & He1 & _).
  destruct (traverse_spec _ _ Hp1 _ _ H2) as (Hp2 & He2 & _). auto.
Qed.

Lemma replaceLiterals_spec (r : Replacer) :
  pendingInv (items r) (counter r) (key r) ->
  let r' := replaceLiterals r in
  pendingInv (items r') (counter r') (key r') /\ extends r r' /\
  r' = setJsAst (fst (traverse (jsAst r) r)) (snd (traverse (jsAst r) r)) /\
  count r' = count r + N.of_nat (literalHits (config r) (classes r) (jsAst r)).
Proof.
  intros Hinv. unfold replaceLiterals.
  destruct (traverse (jsAst r) r) as [nodes r1] eqn:Ht. cbv zeta.
  destruct (traverse_spec _ _ Hinv _ _ Ht) as (Hp & He & Hc). auto.
Qed.

Lemma replaceAll_spec (r : Replacer) :
  pendingInv (items r) (counter r) (key r) ->
  let r' := replaceAll r in
  tableInv (items r') (counter r') /\ extends r r' /\
  count r' + N.of_nat (size (items r)) = count r + N.of_nat (size (items r')).
Proof.
  intros Hinv. unfold replaceAll.
  destruct (replaceAllLoop (classes r) (key r) r) as [k' r'] eqn:Hl. cbv zeta. simpl.
  destruct (replaceAllLoop_spec _ _ _ Hinv _ _ Hl) as (Hp & He & Hc).
  split; [apply Hp | auto].
Qed.

Lemma replace_spec (r : Replacer) :
  pendingInv (items r) (counter r) (key r) ->
  tableInv (items (replace r)) (counter (replace r)) /\
  extends (replaceLiterals r) (replace r) /\
  count (replace r) + N.of_nat (size (items (replaceLiterals r))) =
  count (replaceLiterals r) + N.of_nat (size (items (replace r))).
Proof.
  intros Hinv. destruct (replaceLiterals_spec r Hinv) as (Hp & He & _ & _).
  unfold replace. destruct (replaceAllFlag (config (replaceLiterals r))).
  - apply replaceAll_spec, Hp.
  - split; [apply Hp|]. split; [apply extends_refl | lia].
Qed.

Lemma run_spec (cfg : Config) (css : string) (ast : list cssNode) (js : list jsNode) :
  let r0 := parseCssRules (create cfg css ast js) in
  let r := run cfg css ast js in
  tableInv (items r) (counter r) /\ extends r0 r.
Proof.
  cbv zeta. pose proof (create_pendingInv cfg css ast js) as Hinv. cbv zeta in Hinv.
  destruct (replace_spec _ Hinv) as (Ht & He & _).
  destruct (replaceLiterals_spec _ Hinv) as (_ & He0 & _).
  split; [exact Ht | eapply extends_trans; eassumption].
Qed.

Lemma rewriteRules_prefix (l1 l2 : list cssNode) (r : Replacer) :
  tableInv (items r) (counter r) ->
  let r1 := snd (rewriteRules l1 r) in
  let r2 := snd (rewriteRules (l1 ++ l2) r) in
  cssStep r r1 /\ cssStep r1 r2.
Proof.
  intros Hinv. cbv zeta. rewrite rewriteRules_app.
  destruct (rewriteRules l1 r) as [o1 r1] eqn:H1.
  destruct (rewriteRules l2 r1) as [o2 r2] eqn:H2. simpl.
  pose proof (rewriteRules_step _ _ Hinv _ _ H1) as Hs1.
  pose proof (rewriteRules_step _ _ (proj1 Hs1) _ _ H2) as Hs2. auto.
Qed.

Lemma generateCss_spec (r : Replacer) :
  tableInv (items r) (counter r) ->
  cssStep r (snd (rewriteRules (rules r) r)) /\
  generateCss r = setRules (fst (rewriteRules (rules r) r)) (snd (rewriteRules (rules r) r)).
Proof.
  intros Hinv. unfold generateCss.
  destruct (rewriteRules (rules r) r) as [nodes r'] eqn:H. simpl.
  split; [eapply rewriteRules_step; eassumption | reflexivity].
Qed.

Lemma leadingDigit_valid (s : string) :
  validClassName s = true ->
  match s with
  | String c rest =>
      Char.isDigit c = false /\
      match rest with
      | String d _ => Char.isChar "-" c && Char.isDigit d = false
      | EmptyString => True
      end
  | EmptyString => False
  end.
Proof.
  destruct s as [|c rest]; simpl; [discriminate|].
  assert (Hd : forall x, Char.isAlpha x || Char.isChar "_" x || Char.isChar "-" x = true ->
                         Char.isDigit x = false).
  { intros x. unfold Char.isAlpha, Char.isLower, Char.isUpper, Char.isChar, Char.isDigit,
      Char.between. change (Char.code "_") with 95. change (Char.code "-") with 45.
    rewrite !orb_true_iff, !andb_true_iff, andb_false_iff, !N.leb_le, !N.leb_gt, !N.eqb_eq.
    lia. }
  destruct (Char.isAlpha c || Char.isChar "_" c) eqn:Hc.
  - intros _. assert (Hdc : Char.isDigit c = false) by (apply Hd; now rewrite Hc).
    split; [assumption|]. destruct rest as [|d rest]; [exact I|].
    assert (Char.isChar "-" c = false); [|now rewrite H].
    revert Hc. unfold Char.isAlpha, Char.isLower, Char.isUpper, Char.isChar, Char.between.
    change (Char.code "_") with 95. change (Char.code "-") with 45.
    rewrite !orb_true_iff, !andb_true_iff, !N.leb_le, !N.eqb_eq, N.eqb_neq. lia.
  - destruct (Char.isChar "-" c) eqn:Hh; [|discriminate].
    destruct rest as [|d rest]; [discriminate|].
    rewrite andb_true_iff. intros [Hd2 _]. split.
    + apply Hd. now rewrite Hh, orb_true_r.
    + simpl. now apply Hd.
Qed.

(** ** The counter as a double *)

Lemma increment_exact (c : N) : c < maxCounter -> increment c = c + 1.
Proof. intros H. unfold increment. apply N.ltb_lt in H. now rewrite H. Qed.

Lemma succBodyDouble_exact (css : string) (c : N) :
  c < maxCounter -> succBodyDouble css c = succBody css c.
Proof. intros H. unfold succBodyDouble, succBody. now rewrite (increment_exact c H). Qed.

(** At [2^53] the rendering starts with the digit [4], and the counter
    stays. *)
Lemma succBodyDouble_stall (css : string) : succBodyDouble css maxCounter = inl maxCounter.
Proof.
  unfold succBodyDouble.
  assert (Hv : validClassName (toString34 maxCounter) = false) by (vm_compute; reflexivity).
  rewrite Hv. reflexivity.
Qed.

Lemma passes_stall (css : string) (fuel : nat) :
  passes fuel (succBodyDouble css) maxCounter = inl maxCounter.
Proof.
  induction fuel as [|fuel IH]; [reflexivity|].
  cbn [passes]. now rewrite succBodyDouble_stall.
Qed.

(** A run of the exact loop that breaks at or below [2^53] is a run of the
    loop on the double. *)
Lemma passes_double (css : string) (m : nat) :
  forall (c : N) (res : string) (c' : N),
    passes m (succBody css) c = inr (res, c') ->
    c < c' /\
    (c' <= maxCounter -> passes m (succBodyDouble css) c = inr (res, c')).
Proof.
  induction m as [|m IH]; intros c res c' H; [discriminate|].
  cbn [passes] in H. cbn [passes].
  destruct (succBody_cases css c) as [[Hb _]|(Hb & _ & _)]; rewrite Hb in H.
  - apply IH in H as [Hlt Hd]. split; [lia|]. intros Hmax.
    rewrite succBodyDouble_exact, Hb by lia. now apply Hd.
  - inversion H; subst res c'. split; [lia|]. intros Hmax.
    now rewrite succBodyDouble_exact, Hb by lia.
Qed.

(** [succ] when some counter value below [2^53] is accepted: the loop on
    the double returns, with the result of [succ]. *)
Lemma succ_bounded (r : Replacer) (x : N) :
  counter r <= x -> x < maxCounter ->
  validClassName (toString34 x) = true ->
  Re.search (collisionRegExp (toString34 x)) (cssText r) = false ->
  exists c,
    counter r <= c <= x /\
    succ r = (toString34 c, setCounter (c + 1) r) /\
    validClassName (toString34 c) = true /\
    Re.search (collisionRegExp (toString34 c)) (cssText r) = false /\
    (forall y, counter r <= y < c ->
       validClassName (toString34 y) = false \/
       Re.search (collisionRegExp (toString34 y)) (cssText r) = true) /\
    exists fuel,
      passes fuel (succBodyDouble (cssText r)) (counter r) = inr (toString34 c, c + 1).
Proof.
  intros Hle Hmax Hv Hf.
  destruct (succ_spec r) as (c & Hc & Hs & Hcv & Hcf & Hmin & fuel & Hp).
  assert (Hcx : c <= x).
  { destruct (N.le_gt_cases c x) as [|Hgt]; [assumption|].
    specialize (Hmin x (conj Hle Hgt)).
    destruct (succBody_cases (cssText r) x) as [[_ [H|H]]|[H _]]; congruence. }
  exists c. repeat split; auto.
  - intros y Hy. specialize (Hmin y Hy).
    destruct (succBody_cases (cssText r) y) as [[_ H]|[H _]]; [exact H | congruence].
  - exists fuel. apply (passes_double _ _ _ _ _ Hp). lia.
Qed.

(** ** Renderings of ten digits *)

Lemma toString34_loop_acc (fuel : nat) :
  forall (n : N) (acc : string),
    toString34_loop fuel n acc = toString34_loop fuel n "" ++ acc.
Proof.
  induction fuel as [|fuel IH]; intros n acc.
  - simpl. now rewrite append_nil_l.
  - rewrite !toString34_loop_S. destruct (n / 34 =? 0).
    + now rewrite append_cons, append_nil_l.
    + rewrite (IH _ (String _ acc)), (IH _ (String _ "")), app_assoc_string, append_cons,
        append_nil_l. reflexivity.
Qed.

Lemma toString34_loop_fuel (f : nat) :
  forall (f' : nat) (n : N) (acc : string),
    n < 2 ^ N.of_nat (S f) -> n < 2 ^ N.of_nat (S f') ->
    toString34_loop (S f) n acc = toString34_loop (S f') n acc.
Proof.
  induction f as [|f IH]; intros f' n acc H H'.
  - rewrite !toString34_loop_S.
    assert (Hz : n / 34 = 0) by (apply N.div_small; simpl in H; lia).
    now rewrite Hz.
  - rewrite (toString34_loop_S (S f)), (toString34_loop_S f').
    destruct (N.eqb_spec (n / 34) 0) as [|Hnz]; [reflexivity|].
    destruct f' as [|f'].
    + exfalso. apply Hnz, N.div_small. simpl in H'. lia.
    + apply IH.
      * apply N.Div0.div_lt_upper_bound.
        rewrite (Nat2N.inj_succ (S f)), N.pow_succ_r' in H. lia.
      * apply N.Div0.div_lt_upper_bound.
        rewrite (Nat2N.inj_succ (S f')), N.pow_succ_r' in H'. lia.
Qed.

Lemma toString34_small (n : N) : n < 34 -> toString34 n = String (digit34 n) "".
Proof.
  intros H. unfold toString34. rewrite toString34_loop_S.
  rewrite (N.div_small n 34 H), (N.mod_small n 34 H). reflexivity.
Qed.

(** The digit loop, read from the last digit: the rendering of [n / 34]
    followed by the digit of [n mod 34]. *)
Lemma toString34_step (n : N) :
  34 <= n ->
  toString34 n = toString34 (n / 34) ++ String (digit34 (n mod 34)) "".
Proof.
  intros Hn. unfold toString34 at 1. rewrite toString34_loop_S.
  assert (Hq : 1 <= n / 34) by (apply N.div_le_lower_bound; lia).
  destruct (N.eqb_spec (n / 34) 0) as [|_]; [lia|].
  rewrite toString34_loop_acc. f_equal.
  pose proof (toString34_fuel n) as Hf.
  destruct (N.to_nat (N.log2 n)) as [|f] eqn:E.
  - exfalso. simpl in Hf. lia.
  - unfold toString34. apply toString34_loop_fuel; [|apply toString34_fuel].
    apply N.Div0.div_lt_upper_bound.
    rewrite (Nat2N.inj_succ (S f)), N.pow_succ_r' in Hf. lia.
Qed.

(** The number of digits and the first digit of a rendering. *)
Lemma toString34_digits (k : nat) :
  forall n : N,
    34 ^ N.of_nat k <= n < 34 ^ N.of_nat (S k) ->
    String.length (toString34 n) = S k /\
    Str.head (toString34 n) = Some (digit34 (n / 34 ^ N.of_nat k)).
Proof.
  induction k as [|k IH]; intros n Hn.
  - change (34 ^ N.of_nat 1) with 34 in Hn. change (34 ^ N.of_nat 0) with 1 in *.
    rewrite toString34_small, N.div_1_r by lia. split; reflexivity.
  - rewrite (Nat2N.inj_succ (S k)), N.pow_succ_r' in Hn.
    rewrite (Nat2N.inj_succ k), N.pow_succ_r' in Hn |- *.
    assert (Hpos : 0 < 34 ^ N.of_nat k) by (apply N.neq_0_lt_0, N.pow_nonzero; lia).
    rewrite toString34_step by lia.
    destruct (IH (n / 34)) as [Hlen Hhead].
    { split.
      - apply N.div_le_lower_bound; lia.
      - apply N.Div0.div_lt_upper_bound. rewrite Nat2N.inj_succ, N.pow_succ_r'. lia. }
    rewrite length_app_string, Hlen. split; [simpl; lia|].
    rewrite <- N.Div0.div_div, <- Hhead.
    destruct (toString34 (n / 34)) as [|a s]; [discriminate | reflexivity].
Qed.

Lemma isDigit34_isNameChar (c : ascii) : isDigit34 c = true -> isNameChar c = true.
Proof.
  unfold isDigit34, isNameChar, Char.isAlpha, Char.isLower, Char.isDigit, Char.between.
  rewrite !orb_true_iff, !andb_true_iff, !N.leb_le. intros [H|H]; [tauto|].
  left. left. left. lia.
Qed.

(** The counter values from [tenDigits] up to [elevenDigits] are rendered
    with ten digits, the first of them a letter: they are valid names. *)
Lemma tenDigits_valid (x : N) :
  tenDigits <= x < elevenDigits ->
  String.length (toString34 x) = 10%nat /\ validClassName (toString34 x) = true.
Proof.
  intros Hx.
  assert (E10 : elevenDigits = 34 * 34 ^ N.of_nat 9) by (vm_compute; reflexivity).
  assert (E9 : tenDigits = 10 * 34 ^ N.of_nat 9) by (vm_compute; reflexivity).
  assert (E : 34 ^ N.of_nat 10 = 34 * 34 ^ N.of_nat 9) by (vm_compute; reflexivity).
  assert (Hpos : 0 < 34 ^ N.of_nat 9) by (vm_compute; reflexivity).
  rewrite E10, E9 in Hx.
  set (p := 34 ^ N.of_nat 9) in *.
  destruct (toString34_digits 9 x) as [Hlen Hhead].
  { fold p. rewrite E. lia. }
  split; [exact Hlen|].
  destruct (toString34_spec x) as (_ & Hall & _).
  destruct (toString34 x) as [|a rest]; [discriminate|].
  simpl in Hhead. inversion Hhead as [Ha]. clear Hhead. fold p.
  set (q := x / p) in *.
  assert (Hq : 10 <= q < 34).
  { unfold q. split.
    - apply N.div_le_lower_bound; lia.
    - apply N.Div0.div_lt_upper_bound. lia. }
  simpl in Hall. apply andb_true_iff in Hall as [_ Hrest].
  cbn [validClassName].
  assert (Halpha : Char.isAlpha (digit34 q) = true).
  { unfold Char.isAlpha, Char.isLower, Char.between. rewrite (digit34_code q) by lia.
    destruct (N.ltb_spec q 10); [lia|].
    rewrite orb_true_iff, andb_true_iff, !N.leb_le. left. lia. }
  rewrite Halpha. simpl. apply (all_impl isDigit34); [apply isDigit34_isNameChar | assumption].
Qed.

(** The counter values from [elevenDigits] up to [2^53] are rendered with
    one of the digits [1] to [4] in front: none is a valid name. *)
Lemma elevenDigits_invalid (x : N) :
  elevenDigits <= x <= maxCounter -> validClassName (toString34 x) = false.
Proof.
  intros Hx.
  assert (E10 : elevenDigits = 34 ^ N.of_nat 10) by reflexivity.
  assert (E11 : 34 ^ N.of_nat 11 = 34 * 34 ^ N.of_nat 10) by (vm_compute; reflexivity).
  assert (Hm : maxCounter < 5 * 34 ^ N.of_nat 10) by (vm_compute; reflexivity).
  assert (Hpos : 0 < 34 ^ N.of_nat 10) by (vm_compute; reflexivity).
  rewrite E10 in Hx. set (p := 34 ^ N.of_nat 10) in *.
  destruct (toString34_digits 10 x) as [_ Hhead].
  { fold p. rewrite E11. lia. }
  fold p in Hhead. set (q := x / p) in *.
  assert (Hq : 1 <= q < 5).
  { unfold q. split.
    - apply N.div_le_lower_bound; lia.
    - apply N.Div0.div_lt_upper_bound. lia. }
  destruct (toString34 x) as [|a rest]; [reflexivity|].
  simpl in Hhead. inversion Hhead as [Ha]. cbn [validClassName].
  assert (Hc : Char.code (digit34 q) = 48 + q).
  { rewrite digit34_code by lia. destruct (N.ltb_spec q 10); [reflexivity | lia]. }
  unfold Char.isAlpha, Char.isLower, Char.isUpper, Char.isChar, Char.between.
  rewrite Hc. change (Char.code "_") with 95. change (Char.code "-") with 45.
  replace (97 <=? 48 + q) with false by (symmetry; apply N.leb_gt; lia).
  replace (48 + q <=? 90) with true by (symmetry; apply N.leb_le; lia).
  replace (65 <=? 48 + q) with false by (symmetry; apply N.leb_gt; lia).
  replace (48 + q =? 95) with false by (symmetry; apply N.eqb_neq; lia).
  replace (48 + q =? 45) with false by (symmetry; apply N.eqb_neq; lia).
  reflexivity.
Qed.

(** From a counter of eleven digits the loop of [succ] does not leave. *)
Lemma passes_no_return (css : string) (fuel : nat) :
  forall c, elevenDigits <= c <= maxCounter ->
    exists c', passes fuel (succBodyDouble css) c = inl c' /\
               elevenDigits <= c' <= maxCounter.
Proof.
  induction fuel as [|fuel IH]; intros c Hc; [exists c; split; [reflexivity | assumption]|].
  cbn [passes]. unfold succBodyDouble at 1.
  rewrite (elevenDigits_invalid c Hc). cbn [negb]. cbv iota.
  apply IH. unfold increment. destruct (N.ltb_spec c maxCounter); lia.
Qed.

(** ** Enough names for every stylesheet *)

Lemma tails_length (s : string) : length (tails s) = String.length s.
Proof. induction s as [|c s IH]; simpl; [reflexivity | now rewrite IH]. Qed.

(** A collision is at a place of the stylesheet text: behind the dot that
    starts one of its suffixes the name stands, in either case. *)
Lemma search_collision_tail (className : string) :
  forall (s : string) (prev : option ascii),
    Re.searchFrom (collisionRegExp className) prev s = true ->
    exists c s1 last rest,
      In (String c s1) (tails s) /\
      Re.literalCI className (Some c) s1 = Some (last, rest).
Proof.
  induction s as [|c s IH]; intros prev H.
  - simpl in H. discriminate.
  - cbn [Re.searchFrom] in H.
    destruct (collisionRegExp className prev (String c s)) eqn:Hp.
    + unfold collisionRegExp in Hp.
      destruct (Re.wordBoundary prev (Some c) && Char.isChar "." c); [|discriminate].
      destruct (Re.literalCI className (Some c) s) as [[last rest]|] eqn:Hl; [|discriminate].
      exists c, s, last, rest. split; [left; reflexivity | assumption].
    + destruct (IH _ H) as (c' & s1 & last & rest & Hin & Hl).
      exists c', s1, last, rest. split; [right; assumption | assumption].
Qed.

Lemma isDigit34_lower (c : ascii) : isDigit34 c = true -> Char.lower c = c.
Proof.
  unfold isDigit34, Char.lower, Char.isUpper, Char.isDigit, Char.between.
  rewrite orb_true_iff, !andb_true_iff, !N.leb_le. intros H.
  replace ((65 <=? Char.code c) && (Char.code c <=? 90)) with false; [reflexivity|].
  symmetry. rewrite andb_false_iff, !N.leb_gt. lia.
Qed.

(** Two renderings of one length that stand at one place are the same. *)
Lemma literalCI_digits_inj (a : string) :
  forall (b s : string) (p1 p2 : option ascii) (r1 r2 : option ascii * string),
    Re.literalCI a p1 s = Some r1 ->
    Re.literalCI b p2 s = Some r2 ->
    String.length a = String.length b ->
    Str.all isDigit34 a = true ->
    Str.all isDigit34 b = true ->
    a = b.
Proof.
  induction a as [|x a IH]; intros [|y b] s p1 p2 r1 r2 H1 H2 Hlen Ha Hb;
    try discriminate; [reflexivity|].
  simpl in H1, H2. destruct s as [|c s]; [discriminate|].
  destruct (Char.eqCI x c) eqn:Hx; [|discriminate].
  destruct (Char.eqCI y c) eqn:Hy; [|discriminate].
  simpl in Ha, Hb. apply andb_true_iff in Ha as [Hxd Ha]. apply andb_true_iff in Hb as [Hyd Hb].
  unfold Char.eqCI in Hx, Hy. apply N.eqb_eq in Hx, Hy.
  rewrite (isDigit34_lower x Hxd) in Hx. rewrite (isDigit34_lower y Hyd) in Hy.
  assert (x = y) by (apply code_inj; congruence). subst y.
  f_equal. apply (IH b s _ _ _ _ H1 H2); [simpl in Hlen; lia | assumption | assumption].
Qed.

(** Pigeons [0 .. m-1], no two in one hole: there are at least [m] holes. *)
Lemma pigeons {A : Type} (P : nat -> A -> Prop) (holes : list A) :
  (forall i j a, P i a -> P j a -> i = j) ->
  forall m : nat,
    (forall i, (i < m)%nat -> exists a, In a holes /\ P i a) ->
    (m <= length holes)%nat.
Proof.
  intros Hinj m Hall.
  assert (H : exists l : list A,
             length l = m /\ List.NoDup l /\
             forall a, In a l -> In a holes /\ exists i, (i < m)%nat /\ P i a).
  { induction m as [|m IH].
    - exists []. split; [reflexivity|]. split; [constructor|]. intros a [].
    - destruct IH as (l & Hlen & Hnd & Hl); [intros i Hi; apply Hall; lia|].
      destruct (Hall m) as (a & Ha & Hp); [lia|].
      exists (a :: l). split; [simpl; now rewrite Hlen|]. split.
      + constructor; [|assumption]. intros Hin.
        destruct (Hl a Hin) as (_ & i & Hi & Hpi).
        pose proof (Hinj _ _ _ Hp Hpi). lia.
      + intros b [<-|Hb].
        * split; [assumption|]. exists m. split; [lia | assumption].
        * destruct (Hl b Hb) as (Hh & i & Hi & Hpi).
          split; [assumption|]. exists i. split; [lia | assumption]. }
  destruct H as (l & Hlen & Hnd & Hl). rewrite <- Hlen.
  apply List.NoDup_incl_length; [assumption|]. intros a Ha. now apply Hl.
Qed.

Lemma bounded_search (f : nat -> bool) (m : nat) :
  (forall i, (i < m)%nat -> f i = true) \/ exists i, (i < m)%nat /\ f i = false.
Proof.
  induction m as [|m [IH|(i & Hi & Hf)]].
  - left. intros i Hi. lia.
  - destruct (f m) eqn:Hm.
    + left. intros i Hi. destruct (Nat.eq_dec i m) as [->|]; [assumption | apply IH; lia].
    + right. exists m. split; [lia | assumption].
  - right. exists i. split; [lia | assumption].
Qed.

(** From a counter low enough for the stylesheet text, some counter value
    with a ten-digit rendering is accepted: the text has fewer places than
    there are such values left. *)
Lemma accepted_exists (css : string) (c0 : N) :
  N.max c0 tenDigits + N.of_nat (String.length css) < elevenDigits ->
  exists x,
    c0 <= x < elevenDigits /\
    validClassName (toString34 x) = true /\
    Re.search (collisionRegExp (toString34 x)) css = false.
Proof.
  intros Hb. set (B := N.max c0 tenDigits) in *.
  set (name i := toString34 (B + N.of_nat i)).
  assert (Hten : forall i, (i <= String.length css)%nat ->
                   String.length (name i) = 10%nat /\ validClassName (name i) = true).
  { intros i Hi. apply tenDigits_valid. lia. }
  destruct (bounded_search (fun i => Re.search (collisionRegExp (name i)) css)
              (S (String.length css))) as [Hall|(i & Hi & Hfree)].
  - exfalso.
    set (P := fun (i : nat) (t : string) =>
                (i <= String.length css)%nat /\
                exists c s1 last rest,
                  t = String c s1 /\ Re.literalCI (name i) (Some c) s1 = Some (last, rest)).
    assert (Hp : (S (String.length css) <= length (tails css))%nat).
    { apply (pigeons P).
      - intros i j t (Hi & c & s1 & last & rest & -> & Hl)
          (Hj & c' & s1' & last' & rest' & Heq & Hl').
        inversion Heq; subst c' s1'.
        destruct (Hten i Hi) as [Hli _]. destruct (Hten j Hj) as [Hlj _].
        assert (Hn : name i = name j).
        { apply (literalCI_digits_inj _ _ _ _ _ _ _ Hl Hl'); [congruence| |];
            apply toString34_spec. }
        apply toString34_inj in Hn. lia.
      - intros i Hi. specialize (Hall i Hi). cbv beta in Hall.
        apply search_collision_tail in Hall as (c & s1 & last & rest & Hin & Hl).
        exists (String c s1). split; [assumption|]. split; [lia|].
        now exists c, s1, last, rest. }
    rewrite tails_length in Hp. lia.
  - exists (B + N.of_nat i). split; [lia|]. split; [|exact Hfree].
    apply Hten. lia.
Qed.

(** ** The keys that the stylesheet pass adds *)

(** An entry made while one selector is rewritten has a class reference of
    that selector as its key. *)
Lemma rewriteSelector_keys (hasNot : bool) (segs : list Re.segment) :
  forall r out r',
    rewriteSelector hasNot segs r = (out, r') ->
    forall k, is_Some (items r' !! k) ->
      is_Some (items r !! k) \/ k ∈ map Str.removeFirstDot (Re.hits segs).
Proof.
  induction segs as [|[c|a] rest IH]; intros r out r' Heq k Hk; simpl in Heq.
  - inversion Heq; subst. now left.
  - destruct (rewriteSelector hasNot rest r) as [s r2] eqn:Hr.
    inversion Heq; subst out r'. exact (IH _ _ _ Hr k Hk).
  - set (clazz := Str.removeFirstDot a) in *.
    set (r1 := if negb (truthyVal (getItem (items r) clazz)) && hasNot
               then let '(token, r0) := succ r in setItems (<[clazz:=token]> (items r0)) r0
               else r) in *.
    destruct (rewriteSelector hasNot rest r1) as [s r2] eqn:Hr.
    inversion Heq; subst out r'. cbn [Re.hits map]. fold clazz.
    destruct (IH _ _ _ Hr k Hk) as [H1|Hin]; [|right; now apply list_elem_of_further].
    destruct (decide (k = clazz)) as [->|Hne]; [right; apply list_elem_of_here|].
    left. subst r1. destruct (negb (truthyVal (getItem (items r) clazz)) && hasNot);
      [|assumption].
    destruct (succ_spec r) as (c & _ & Hs & _). rewrite Hs in H1. fields.
    now rewrite lookup_insert_ne in H1 by congruence.
Qed.

Lemma rewriteSelectors_keys (re : Re.pattern) (hasNot : bool) (selectors : list string) :
  forall r news r',
    rewriteSelectors re hasNot selectors r = (news, r') ->
    forall k, is_Some (items r' !! k) ->
      is_Some (items r !! k) \/
      exists sel, sel ∈ untilEmpty selectors /\
                  k ∈ map Str.removeFirstDot (Re.hits (Re.segments re sel)).
Proof.
  induction selectors as [|sel rest IH]; intros r news r' Heq k Hk; simpl in Heq.
  - inversion Heq; subst. now left.
  - cbn [untilEmpty]. destruct (Str.truthy sel); [|inversion Heq; subst; now left].
    destruct (rewriteSelector hasNot (Re.segments re sel) r) as [sel' r1] eqn:H1.
    destruct (rewriteSelectors re hasNot rest r1) as [news' r2] eqn:H2.
    inversion Heq; subst news r'.
    destruct (IH _ _ _ H2 k Hk) as [Hr1|(s & Hs & Hin)].
    + destruct (rewriteSelector_keys _ _ _ _ _ H1 k Hr1) as [Hr|Hin]; [now left|].
      right. exists sel. split; [apply list_elem_of_here | assumption].
    + right. exists s. split; [now apply list_elem_of_further | assumption].
Qed.

(** An entry made while one rule is rewritten has a class reference of one
    of the visited selectors of the rule as its key. *)
Lemma rewriteRule_keys (selectors : list string) (r : Replacer) :
  forall k, is_Some (items (snd (rewriteRule selectors r)) !! k) ->
    is_Some (items r !! k) \/
    exists sel, sel ∈ untilEmpty selectors /\ k ∈ classRefs (config r) sel.
Proof.
  intros k Hk. unfold rewriteRule in Hk.
  destruct (rewriteSelectors (generateCssClsRegExp (config r))
              (Str.contains ":not" (Str.join " " selectors)) selectors r)
    as [news r1] eqn:Hrs.
  simpl in Hk. exact (rewriteSelectors_keys _ _ _ _ _ _ Hrs k Hk).
Qed.

(** * The claims *)

(** C8. Every token that [succ] returns is safe as a class name: it passes
    the identifier test of the source, so it does not start with a digit
    and does not start with a hyphen followed by a digit. *)
Theorem succ_token_safe (r : Replacer) :
  let token := fst (succ r) in
  validClassName token = true /\
  startsWithDigit token = false /\
  startsWithHyphenDigit token = false.
Proof.
  cbv zeta. destruct (succ_spec r) as (c & _ & Hs & Hvalid & _). rewrite Hs. simpl fst.
  split; [assumption|]. apply leadingDigit_valid in Hvalid.
  destruct (toString34 c) as [|a rest]; [contradiction|].
  destruct Hvalid as [Hd Hh]. split; [exact Hd|].
  destruct rest as [|d rest]; [reflexivity | exact Hh].
Qed.

(** C10, as the specification has it, fails. The counter is a double. At
    [2^53] its rendering is [4cbreicjccw], which starts with a digit and is
    no valid name; [counter++] then gives [2^53] again, and no number of
    passes leaves the loop, whatever the stylesheet text. *)
Lemma succ_stalls_counterexample :
  toString34 (2 ^ 53) = "4cbreicjccw" /\
  validClassName "4cbreicjccw" = false /\
  increment (2 ^ 53) = 2 ^ 53 /\
  succBodyDouble ".a{}" (2 ^ 53) = inl (2 ^ 53) /\
  ~ exists css fuel res, passes fuel (succBodyDouble css) (2 ^ 53) = inr res.
Proof.
  split; [vm_compute; reflexivity|]. split; [vm_compute; reflexivity|].
  split; [vm_compute; reflexivity|]. split; [apply (succBodyDouble_stall ".a{}")|].
  intros (css & fuel & res & H).
  change (2 ^ 53) with maxCounter in H. rewrite passes_stall in H. discriminate.
Qed.

(** C10, amended. [succ] returns whenever the counter and the stylesheet
    text are small enough to leave a ten-digit rendering free: the larger
    of the counter and [10 * 34^9], plus the length of the text, is below
    [34^10]. Then some number of passes of the loop, with the counter
    stepped as the double it is, ends in a break, with the token that
    [succ] gives; the counter has moved on and is at most [34^10], below
    [2^53]. *)
Theorem succ_terminates (r : Replacer) :
  N.max (counter r) (10 * 34 ^ 9) + N.of_nat (String.length (cssText r)) < 34 ^ 10 ->
  exists (fuel : nat) (className : string) (c : N),
    passes fuel (succBodyDouble (cssText r)) (counter r) = inr (className, c) /\
    succ r = (className, setCounter c r) /\
    counter r < c /\ c <= 34 ^ 10 /\ 34 ^ 10 < maxCounter.
Proof.
  intros Hb.
  destruct (accepted_exists (cssText r) (counter r) Hb) as (x & Hx & Hv & Hf).
  assert (Hmax : elevenDigits < maxCounter) by (vm_compute; reflexivity).
  destruct (succ_bounded r x) as (c & Hc & Hs & _ & _ & _ & fuel & Hp);
    [lia | lia | assumption | assumption |].
  exists fuel, (toString34 c), (c + 1).
  split; [exact Hp|]. split; [exact Hs|]. split; [lia|]. split; [|exact Hmax].
  change (34 ^ 10) with elevenDigits. lia.
Qed.

Lemma succ_terminates_witness :
  let r := create defaultConfig ".a{}" [Rule [".a"]] [] in
  N.max (counter r) (10 * 34 ^ 9) + N.of_nat (String.length (cssText r)) < 34 ^ 10 /\
  exists (fuel : nat) (className : string) (c : N),
    passes fuel (succBodyDouble (cssText r)) (counter r) = inr (className, c) /\
    succ r = (className, setCounter c r) /\
    counter r < c /\ c <= 34 ^ 10 /\ 34 ^ 10 < maxCounter.
Proof.
  cbv zeta. split; [vm_compute; reflexivity|].
  apply (succ_terminates (create defaultConfig ".a{}" [Rule [".a"]] [])).
  vm_compute. reflexivity.
Defined.

(** C7. The catalog that [parseCssRules] builds is ordered by descending
    length; the names of one length stand in the order of their first
    appearance in the source; no name occurs twice and every extracted name
    occurs. For the selectors [.ab], [.a], [.abc] in that order the catalog
    is [abc], [ab], [a]. *)
Theorem catalog_order (cfg : Config) (css : string) (ast : list cssNode) (js : list jsNode) :
  let extracted := collectClasses (generateCssClsRegExp cfg) ast in
  let cat := classes (parseCssRules (create cfg css ast js)) in
  StronglySorted longerFirst cat /\
  (forall n, ofLength n cat = dedupFirst (ofLength n extracted)) /\
  NoDup cat /\
  (forall c, c ∈ cat <-> c ∈ extracted) /\
  classes (parseCssRules (create defaultConfig ".ab{}.a{}.abc{}"
                            [Rule [".ab"]; Rule [".a"]; Rule [".abc"]] []))
  = ["abc"; "ab"; "a"].
Proof.
  cbv zeta. cbn [parseCssRules create classes setClasses config rules].
  rewrite catalog_dedup. split; [|split; [|split; [|split]]].
  - apply dedupFrom_sorted, sortByLength_sorted.
  - intros n. unfold dedupFirst. now rewrite ofLength_dedupFrom, ofLength_sortByLength.
  - apply NoDup_dedupFrom.
  - intros c. rewrite <- catalog_dedup. apply elem_of_catalog.
  - vm_compute. reflexivity.
Qed.

(** C9. Only the top-level style rules feed the catalog: every name in it
    is extracted from the selectors of a top-level node of type [rule]. *)
Theorem catalog_top_level (r : Replacer) (c : string) :
  c ∈ classes (parseCssRules r) ->
  exists selectors,
    Rule selectors ∈ rules r /\
    c ∈ extractClasses (generateCssClsRegExp (config r)) selectors.
Proof.
  cbn [parseCssRules classes setClasses]. rewrite elem_of_catalog.
  apply elem_of_collectClasses.
Qed.

(** A name that occurs only inside a media block stays out of the catalog,
    and the name of the top-level rule next to it gets in. *)
Lemma catalog_top_level_witness :
  let r := create defaultConfig "@media print{.inner{top:0}}.outer{top:0}"
             [Media [Rule [".inner"]]; Rule [".outer"]] [] in
  classes (parseCssRules r) = ["outer"] /\
  exists selectors,
    Rule selectors ∈ rules r /\
    "outer" ∈ extractClasses (generateCssClsRegExp (config r)) selectors.
Proof.
  cbv zeta. split; [vm_compute; reflexivity|].
  apply (catalog_top_level
           (create defaultConfig "@media print{.inner{top:0}}.outer{top:0}"
              [Media [Rule [".inner"]]; Rule [".outer"]] []) "outer").
  vm_compute. apply list_elem_of_here.
Defined.

(** C2, as the specification has it, fails: for the stylesheet
    [.foo{color:red}] and the literal [foo] the table does not map [foo] to
    [0], the literal does not become [0] and the selector does not become
    [.0]. *)
Lemma first_token_counterexample :
  let r := run defaultConfig ".foo{color:red}" [Rule [".foo"]] [Literal (VString "foo")] in
  items r !! "foo" <> Some "0" /\
  generateJs r <> [Literal (VString "0")] /\
  rules (generateCss r) <> [Rule [".0"]].
Proof. vm_compute. repeat split; discriminate. Qed.

(** C2, amended. The first name met gets the initial key [_]: the table is
    [foo -> _], the literal becomes [_] and the selector [._]. *)
Theorem first_token :
  let r := run defaultConfig ".foo{color:red}" [Rule [".foo"]] [Literal (VString "foo")] in
  map_to_list (items r) = [("foo", "_")] /\
  generateJs r = [Literal (VString "_")] /\
  rules (generateCss r) = [Rule ["._"]].
Proof. vm_compute. repeat split. Qed.

(** C1, as the specification has it, fails: in the rule [.foo, .bar] the
    selector [.foo] resolves (to [._]) and [.bar] does not, and the rule
    ends with no selector at all instead of with [._] alone. *)
Lemma selector_drop_counterexample :
  let r := run defaultConfig ".foo,.bar{color:red}" [Rule [".foo"; ".bar"]]
             [Literal (VString "foo")] in
  substituteSelector (items r) (config r) ".foo" = "._" /\
  unresolved "._" = false /\
  unresolved (substituteSelector (items r) (config r) ".bar") = true /\
  rules (generateCss r) = [Rule []] /\
  rules (generateCss r) <> [Rule ["._"]].
Proof. vm_compute. repeat split; discriminate. Qed.

(** C1, amended. A rule keeps its selectors, each with its class
    references replaced by their table entries, when every selector is
    non-empty and resolved; as soon as one selector is unresolved (or
    empty) the rule's selector list is set empty, whether it was the only
    selector or one of several. *)
Theorem selector_drop_policy (selectors : list string) (r : Replacer) :
  tableInv (items r) (counter r) ->
  let out := fst (rewriteRule selectors r) in
  let r' := snd (rewriteRule selectors r) in
  let rewritten := map (substituteSelector (items r') (config r)) selectors in
  out = if forallb Str.truthy selectors
           && forallb (fun s => negb (unresolved s)) rewritten
        then rewritten else [].
Proof.
  intros Hinv. cbv zeta. destruct (rewriteRule selectors r) as [out r'] eqn:Hr.
  destruct (rewriteRule_spec _ _ Hinv _ _ Hr) as (_ & Hout & _). exact Hout.
Qed.

(** The rule [.foo, .bar] with only [foo] in the table: the policy gives
    the empty selector list. *)
Lemma selector_drop_policy_witness :
  let r := run defaultConfig ".foo,.bar{color:red}" [Rule [".foo"; ".bar"]]
             [Literal (VString "foo")] in
  let r' := snd (rewriteRule [".foo"; ".bar"] r) in
  let rewritten := map (substituteSelector (items r') (config r)) [".foo"; ".bar"] in
  tableInv (items r) (counter r) /\
  rewritten = ["._"; ".undefined"] /\
  fst (rewriteRule [".foo"; ".bar"] r) = [] /\
  fst (rewriteRule [".foo"; ".bar"] r) =
  if forallb Str.truthy [".foo"; ".bar"]
     && forallb (fun s => negb (unresolved s)) rewritten
  then rewritten else [].
Proof.
  cbv zeta.
  assert (H : tableInv
                (items (run defaultConfig ".foo,.bar{color:red}" [Rule [".foo"; ".bar"]]
                          [Literal (VString "foo")]))
                (counter (run defaultConfig ".foo,.bar{color:red}" [Rule [".foo"; ".bar"]]
                            [Literal (VString "foo")]))).
  { apply run_spec. }
  split; [exact H|]. split; [vm_compute; reflexivity|]. split; [vm_compute; reflexivity|].
  exact (selector_drop_policy [".foo"; ".bar"]
           (run defaultConfig ".foo,.bar{color:red}" [Rule [".foo"; ".bar"]]
              [Literal (VString "foo")]) H).
Defined.

(** C3, as the specification has it, fails: for the stylesheet
    [.foo{color:red}] and the literal [foo] one substitution is made in the
    literal and one in the selector, and the count is 1, after the run and
    after the stylesheet is generated. *)
Lemma count_counterexample :
  let r := run defaultConfig ".foo{color:red}" [Rule [".foo"]] [Literal (VString "foo")] in
  literalHits defaultConfig (classes r) [Literal (VString "foo")] = 1%nat /\
  selectorHits defaultConfig [Rule [".foo"]] = 1%nat /\
  rules (generateCss r) = [Rule ["._"]] /\
  getReplacementsCount r = 1 /\
  getReplacementsCount (generateCss r) <>
    N.of_nat (literalHits defaultConfig (classes r) [Literal (VString "foo")]
              + selectorHits defaultConfig [Rule [".foo"]]).
Proof. vm_compute. repeat split; discriminate. Qed.

(** C3, amended. After a run the count is the number of substitutions made
    in the string literals of the script (one per occurrence) plus, with
    [replaceAll], one for every class name that [replaceAll] registers;
    rewriting the stylesheet leaves the count as it is. *)
Theorem count_spec (cfg : Config) (css : string) (ast : list cssNode) (js : list jsNode) :
  let r0 := parseCssRules (create cfg css ast js) in
  let r1 := replaceLiterals r0 in
  let r := run cfg css ast js in
  getReplacementsCount r1 = N.of_nat (literalHits cfg (classes r0) js) /\
  getReplacementsCount r =
    getReplacementsCount r1 + N.of_nat (size (items r) - size (items r1)) /\
  getReplacementsCount (generateCss r) = getReplacementsCount r.
Proof.
  cbv zeta. unfold getReplacementsCount.
  pose proof (create_pendingInv cfg css ast js) as Hinv. cbv zeta in Hinv.
  destruct (replaceLiterals_spec _ Hinv) as (_ & _ & _ & Hc1).
  destruct (replace_spec _ Hinv) as (_ & (Hsub & _) & Hc2).
  destruct (run_spec cfg css ast js) as [Ht _].
  destruct (generateCss_spec _ Ht) as [(_ & _ & Hc3 & _) Hg].
  split; [|split].
  - rewrite Hc1. reflexivity.
  - apply map_subseteq_size in Hsub. unfold run. lia.
  - rewrite Hg. exact Hc3.
Qed.

(** C4, as the specification has it, fails. With the prefix [d-] the rule
    [.d-a:not(.active)] refers inside [:not(...)] to the class [active],
    which has no table entry; no token is made for it, while the class
    [d-a] outside the negation gets one. *)
Lemma negation_minting_counterexample :
  let cfg := {| prefix := Some "d-"; replaceVeto := emptyFn; replaceAllFlag := false |} in
  let r := run cfg ".d-a:not(.active){color:red}" [Rule [".d-a:not(.active)"]]
             [NonLiteral "Program"] in
  Str.contains ":not(.active)" ".d-a:not(.active)" = true /\
  items r !! "active" = None /\
  items (generateCss r) !! "active" = None /\
  map_to_list (items (generateCss r)) = [("d-a", "a")] /\
  rules (generateCss r) = [Rule [".a:not(.active)"]].
Proof. vm_compute. repeat split. Qed.

(** C4, amended. When the joined selectors of a rule contain the text
    [:not], every class reference that the class expression finds in the
    selectors the loop visits has a truthy table lookup afterwards, negated
    or not; every entry that is new has such a class reference as its key,
    had no entry before, and has as its token one that [succ] accepted on
    the way, so a class the expression does not find gets none; no earlier
    entry changes and the table stays injective; and the rule's selectors
    are the substituted ones unless one of them is empty or unresolved. *)
Theorem negation_minting (selectors : list string) (r : Replacer) :
  tableInv (items r) (counter r) ->
  Str.contains ":not" (Str.join " " selectors) = true ->
  let out := fst (rewriteRule selectors r) in
  let r' := snd (rewriteRule selectors r) in
  let rewritten := map (substituteSelector (items r') (config r)) selectors in
  (forall sel c, sel ∈ untilEmpty selectors -> c ∈ classRefs (config r) sel ->
     truthyVal (getItem (items r') c) = true) /\
  (forall k t, items r' !! k = Some t ->
     items r !! k = Some t \/
     (items r !! k = None /\
      (exists sel, sel ∈ untilEmpty selectors /\ k ∈ classRefs (config r) sel) /\
      mintedBetween (cssText r) (counter r) (counter r') t)) /\
  items r ⊆ items r' /\
  injective (items r') /\
  out = if forallb Str.truthy selectors
           && forallb (fun s => negb (unresolved s)) rewritten
        then rewritten else [].
Proof.
  intros Hinv Hnot. cbv zeta.
  pose proof (rewriteRule_keys selectors r) as Hkeys.
  destruct (rewriteRule selectors r) as [out r'] eqn:Hr.
  destruct (rewriteRule_spec _ _ Hinv _ _ Hr)
    as ((Ht & (Hsub & _) & _ & Hnew) & Hout & Hset & _).
  simpl fst. simpl snd. simpl snd in Hkeys.
  split; [now apply Hset|]. split; [|split; [exact Hsub|split; [apply Ht | exact Hout]]].
  intros k t Hk. destruct (items r !! k) as [t0|] eqn:Hold.
  - left. f_equal. pose proof (lookup_weaken _ _ _ _ Hold Hsub) as Hk'. congruence.
  - right. split; [reflexivity|].
    destruct (Hkeys k) as [[t0 H0]|Hsel]; [now exists t | congruence |].
    split; [exact Hsel|].
    destruct (Hnew k t Hk) as [H0|Hm]; [congruence | exact Hm].
Qed.

Lemma negation_minting_witness :
  let r := run defaultConfig ".a:not(.b){color:red}" [Rule [".a:not(.b)"]]
             [NonLiteral "Program"] in
  let r' := snd (rewriteRule [".a:not(.b)"] r) in
  (forall sel c, sel ∈ untilEmpty [".a:not(.b)"] -> c ∈ classRefs (config r) sel ->
     truthyVal (getItem (items r') c) = true) /\
  map_to_list (items r') = [("a", "a"); ("b", "b")] /\
  fst (rewriteRule [".a:not(.b)"] r) = [".a:not(.b)"].
Proof.
  cbv zeta. split; [|vm_compute; split; reflexivity].
  apply (negation_minting [".a:not(.b)"]
           (run defaultConfig ".a:not(.b){color:red}" [Rule [".a:not(.b)"]]
              [NonLiteral "Program"])).
  - apply run_spec.
  - vm_compute. reflexivity.
Defined.

(** C5 on a concrete input. With the prefix [d-], the stylesheet
    [.a{color:red}.d-x{top:0}.d-y{left:0}] and the literal [d-x d-y], the
    collision search does not see the class [a] of the stylesheet (its dot
    has no word character before it), the name [d-y] gets the token [a],
    and the rewritten stylesheet has the old rule [.a] next to the new one. *)
Theorem token_collision :
  let cfg := {| prefix := Some "d-"; replaceVeto := emptyFn; replaceAllFlag := false |} in
  let css := ".a{color:red}.d-x{top:0}.d-y{left:0}" in
  let r := run cfg css [Rule [".a"]; Rule [".d-x"]; Rule [".d-y"]]
             [Literal (VString "d-x d-y")] in
  Re.search (collisionRegExp "a") css = false /\
  map_to_list (items r) = [("d-y", "a"); ("d-x", "_")] /\
  generateJs r = [Literal (VString "_ a")] /\
  rules (generateCss r) = [Rule [".a"]; Rule ["._"]; Rule [".a"]].
Proof. vm_compute. repeat split. Qed.

(** C6. At every point of a run the table is injective and only grows:
    after any number of script nodes, after the run, after any number of
    top-level stylesheet nodes and after [generateCss]; an entry, once
    made, is in every later table with the same token. *)
Theorem table_injective (cfg : Config) (css : string) (ast : list cssNode)
    (js : list jsNode) (n k m j : nat) :
  let r0 := parseCssRules (create cfg css ast js) in
  let afterNodes i := snd (traverse (take i js) r0) in
  let r := run cfg css ast js in
  let afterRules i := snd (rewriteRules (take i ast) r) in
  injective (items (afterNodes n)) /\
  items (afterNodes n) ⊆ items (afterNodes (n + k)%nat) /\
  items (afterNodes (n + k)%nat) ⊆ items r /\
  injective (items r) /\
  items r ⊆ items (afterRules m) /\
  injective (items (afterRules m)) /\
  items (afterRules m) ⊆ items (afterRules (m + j)%nat) /\
  items (afterRules (m + j)%nat) ⊆ items (generateCss r) /\
  injective (items (generateCss r)).
Proof.
  cbv zeta.
  pose proof (create_pendingInv cfg css ast js) as Hinv. cbv zeta in Hinv.
  set (r0 := parseCssRules (create cfg css ast js)) in *.
  destruct (traverse_prefix (take n js) (take k (drop n js)) r0 Hinv)
    as (Hp1 & Hp2 & _ & He12).
  cbv zeta in He12, Hp2. rewrite take_take_drop in He12, Hp2.
  destruct (traverse_prefix (take (n + k)%nat js) (drop (n + k)%nat js) r0 Hinv)
    as (_ & _ & _ & He23).
  cbv zeta in He23. rewrite take_drop in He23.
  destruct (replaceLiterals_spec r0 Hinv) as (_ & _ & Hrl & _).
  destruct (replace_spec r0 Hinv) as (_ & He34 & _).
  destruct (run_spec cfg css ast js) as [Ht He0]. fold r0 in He0.
  assert (Hrules : rules (run cfg css ast js) = ast) by (rewrite (proj2 (proj2 (proj2 (proj2 (proj2 (proj2 He0)))))); reflexivity).
  destruct (rewriteRules_prefix (take m ast) (take j (drop m ast)) _ Ht) as (Hs1 & Hs2).
  cbv zeta in Hs2. rewrite take_take_drop in Hs2.
  destruct (rewriteRules_prefix (take (m + j)%nat ast) (drop (m + j)%nat ast) _ Ht) as (_ & Hs3).
  cbv zeta in Hs3. rewrite take_drop in Hs3.
  destruct (generateCss_spec _ Ht) as [Hs4 Hg]. rewrite Hrules in Hs4, Hg.
  repeat split.
  - apply Hp1.
  - apply He12.
  - transitivity (items (replaceLiterals r0)); [|apply He34].
    rewrite Hrl. apply He23.
  - apply Ht.
  - apply Hs1.
  - apply Hs1.
  - apply Hs2.
  - rewrite Hg. apply Hs3.
  - rewrite Hg. apply Hs4.
Qed.

(** * Further properties *)

(** ** Scanning *)

Lemma take_S (c : ascii) (s : string) (n : nat) :
  Str.take (S n) (String c s) = String c (Str.take n s).
Proof. reflexivity. Qed.

Lemma take_O (s : string) : Str.take O s = "".
Proof. now destruct s. Qed.

Lemma startsWith_take (lit s : string) :
  Str.startsWith lit s = true -> Str.take (String.length lit) s = lit.
Proof.
  revert s. induction lit as [|a lit IH]; intros s H.
  - apply take_O.
  - destruct s as [|b s]; [discriminate|]. simpl in H.
    apply andb_true_iff in H as [Hab H]. apply N.eqb_eq, code_inj in Hab. subst b.
    cbn [String.length]. now rewrite take_S, IH.
Qed.

Lemma startsWith_app (lit s : string) : Str.startsWith lit (lit ++ s) = true.
Proof.
  induction lit as [|a lit IH]; [reflexivity|].
  rewrite append_cons. simpl. now rewrite N.eqb_refl, IH.
Qed.

Lemma take_add (a b : nat) (s : string) :
  Str.take (a + b) s = Str.take a s ++ Str.take b (Str.drop a s).
Proof.
  revert s. induction a as [|a IH]; intros s.
  - now rewrite take_O.
  - destruct s as [|c s].
    + simpl. now destruct b.
    + cbn [Nat.add Str.drop]. now rewrite !take_S, IH, append_cons.
Qed.

Lemma all_take_run (f : ascii -> bool) (s : string) :
  Str.all f (Str.take (Re.run f s) s) = true.
Proof.
  induction s as [|c s IH]; [reflexivity|]. simpl Re.run.
  destruct (f c) eqn:Hc; [|now rewrite take_O].
  rewrite take_S. simpl. now rewrite Hc, IH.
Qed.

(** Every match that a scan reports is empty or is what the expression
    matched at some position. *)
Lemma scan_hit_inv (p : Re.pattern) (s : string) :
  forall prev skip h,
    h ∈ Re.hits (Re.scan p prev skip s) ->
    h = "" \/ exists prev' s' k, p prev' s' = Some (S k) /\ h = Str.take (S k) s'.
Proof.
  induction s as [|c s IH]; intros prev skip h Hh.
  - simpl in Hh. destruct skip; [|inversion Hh].
    destruct (p prev ""); [|inversion Hh].
    apply list_elem_of_singleton in Hh. now left.
  - simpl in Hh. destruct skip as [|k]; [|eauto].
    destruct (p prev (String c s)) as [[|k]|] eqn:Hp; simpl in Hh.
    + apply elem_of_cons in Hh as [->|Hh]; [now left | eauto].
    + apply elem_of_cons in Hh as [->|Hh]; [right; eauto | eauto].
    + eauto.
Qed.

(** What the class expression matches: the literal part and then a
    non-empty run of class characters. *)
Lemma clsAfter_hit (lit : string) (prev : option ascii) (s : string) (n : nat) :
  clsAfter lit prev s = Some n ->
  exists w, Str.take n s = lit ++ w /\ w <> "" /\ Str.all Char.isCls w = true.
Proof.
  unfold clsAfter. destruct (Str.startsWith lit s) eqn:Hs; [|discriminate].
  destruct (Re.run Char.isCls (Str.drop (String.length lit) s)) as [|m] eqn:Hr; [discriminate|].
  intros [= <-]. exists (Str.take (S m) (Str.drop (String.length lit) s)).
  rewrite take_add, (startsWith_take _ _ Hs). split; [reflexivity|]. split.
  - destruct (Str.drop (String.length lit) s); [discriminate|]. rewrite take_S. discriminate.
  - rewrite <- Hr. apply all_take_run.
Qed.

(** What an alternation matches: the first alternative the rest starts
    with. *)
Lemma alternation_hit (alts : list string) (prev : option ascii) (s : string) (n : nat) :
  alternation alts prev s = Some n ->
  exists before a after,
    alts = (before ++ a :: after)%list /\ Str.startsWith a s = true /\
    n = String.length a /\ Forall (fun b => Str.startsWith b s = false) before.
Proof.
  induction alts as [|a alts IH]; simpl; [discriminate|].
  destruct (Str.startsWith a s) eqn:Ha.
  - intros [= <-]. exists [], a, alts. auto.
  - intros H. destruct (IH H) as (before & b & after & -> & Hb & Hn & Hall).
    exists (a :: before), b, after. repeat split; auto.
Qed.

Lemma alternation_None (alts : list string) (prev : option ascii) (s : string) :
  Forall (fun a => Str.startsWith a s = false) alts -> alternation alts prev s = None.
Proof.
  induction 1 as [|a alts Ha _ IH]; simpl; [reflexivity|]. now rewrite Ha.
Qed.


Lemma drop_S (c : ascii) (s : string) (n : nat) : Str.drop (S n) (String c s) = Str.drop n s.
Proof. reflexivity. Qed.

Lemma silent_tail (p : Re.pattern) (c : ascii) (s : string) :
  silent p (String c s) -> silent p s.
Proof. intros H n prev. apply (H (S n) prev). Qed.

(** A scan of an input on which the expression matches nowhere gives the
    input back, character by character. *)
Lemma scan_silent (p : Re.pattern) (s : string) :
  silent p s -> forall prev, Re.scan p prev O s = literals s.
Proof.
  induction s as [|c s IH]; intros Hs prev; pose proof (Hs O prev) as H0;
    simpl in H0; simpl; rewrite H0; [reflexivity|].
  f_equal. apply IH. eapply silent_tail, Hs.
Qed.

Lemma hits_literals (s : string) : Re.hits (literals s) = [].
Proof. induction s as [|c s IH]; [reflexivity | exact IH]. Qed.

Lemma substitute_literals (m : gmap string string) (s : string) :
  substitute m (literals s) = s.
Proof. induction s as [|c s IH]; [reflexivity | simpl; now rewrite IH]. Qed.

Lemma contains_false_silent (alts : list string) (s : string) :
  (forall a, a ∈ alts -> Str.contains a s = false) -> silent (alternation alts) s.
Proof.
  intros H. induction s as [|c s IH]; intros n prev.
  - assert (Hd : Str.drop n "" = "") by now destruct n. rewrite Hd.
    apply alternation_None, Forall_forall. intros a Ha. specialize (H a Ha).
    simpl in H. now apply orb_false_iff in H as [H _].
  - destruct n as [|n].
    + apply alternation_None, Forall_forall. intros a Ha. specialize (H a Ha).
      simpl in H. now apply orb_false_iff in H as [H _].
    + rewrite drop_S. apply IH. intros a Ha. specialize (H a Ha).
      simpl in H. now apply orb_false_iff in H as [_ H].
Qed.

Lemma clsAfter_silent (lit s : string) :
  Str.contains lit s = false -> silent (clsAfter lit) s.
Proof.
  induction s as [|c s IH]; intros H n prev.
  - assert (Hd : Str.drop n "" = "") by now destruct n. rewrite Hd.
    simpl in H. apply orb_false_iff in H as [H _]. unfold clsAfter. now rewrite H.
  - simpl in H. apply orb_false_iff in H as [H1 H2]. destruct n as [|n].
    + unfold clsAfter. simpl Str.drop. now rewrite H1.
    + rewrite drop_S. now apply IH.
Qed.

(** ** The token generator, further *)

(** While the counter and the stylesheet text leave a ten-digit rendering
    free (which keeps the counter below [2^53], where it is exact), [succ]
    accepts the first counter value from the current one on whose rendering
    is a valid name and does not collide: every value before it is invalid
    or collides, and the counter ends just behind it. *)
Theorem succ_first_accepted (r : Replacer) :
  N.max (counter r) (10 * 34 ^ 9) + N.of_nat (String.length (cssText r)) < 34 ^ 10 ->
  exists c,
    counter r <= c < 34 ^ 10 /\
    succ r = (toString34 c, setCounter (c + 1) r) /\
    validClassName (toString34 c) = true /\
    Re.search (collisionRegExp (toString34 c)) (cssText r) = false /\
    forall x, counter r <= x < c ->
      validClassName (toString34 x) = false \/
      Re.search (collisionRegExp (toString34 x)) (cssText r) = true.
Proof.
  intros Hb.
  destruct (accepted_exists (cssText r) (counter r) Hb) as (x & Hx & Hv & Hf).
  assert (Hmax : elevenDigits < maxCounter) by (vm_compute; reflexivity).
  destruct (succ_bounded r x) as (c & Hc & Hs & Hcv & Hcf & Hmin & _);
    [lia | lia | assumption | assumption |].
  exists c. change (34 ^ 10) with elevenDigits.
  split; [lia|]. split; [exact Hs|]. split; [exact Hcv|]. split; [exact Hcf | exact Hmin].
Qed.

Lemma succ_first_accepted_witness :
  let r := create defaultConfig "b.a{}" [Rule ["b.a"]] [] in
  N.max (counter r) (10 * 34 ^ 9) + N.of_nat (String.length (cssText r)) < 34 ^ 10 /\
  fst (succ r) = "b" /\
  exists c,
    counter r <= c < 34 ^ 10 /\
    succ r = (toString34 c, setCounter (c + 1) r) /\
    validClassName (toString34 c) = true /\
    Re.search (collisionRegExp (toString34 c)) (cssText r) = false /\
    forall x, counter r <= x < c ->
      validClassName (toString34 x) = false \/
      Re.search (collisionRegExp (toString34 x)) (cssText r) = true.
Proof.
  cbv zeta. split; [vm_compute; reflexivity|]. split; [vm_compute; reflexivity|].
  apply (succ_first_accepted (create defaultConfig "b.a{}" [Rule ["b.a"]] [])).
  vm_compute. reflexivity.
Defined.

(** [succ] does not give the same token twice while the counter is in its
    exact range: a call in a state whose counter is not below the one an
    earlier call left, and which leaves a ten-digit rendering free, gives
    another token and keeps the counter at or below [34^10]. *)
Theorem succ_never_repeats (r r' : Replacer) :
  counter (snd (succ r)) <= counter r' ->
  N.max (counter r') (10 * 34 ^ 9) + N.of_nat (String.length (cssText r')) < 34 ^ 10 ->
  fst (succ r') <> fst (succ r) /\ counter (snd (succ r')) <= 34 ^ 10.
Proof.
  intros Hc Hb.
  destruct (accepted_exists (cssText r') (counter r') Hb) as (x & Hx & Hv & Hf).
  assert (Hmax : elevenDigits < maxCounter) by (vm_compute; reflexivity).
  destruct (succ_bounded r' x) as (c' & Hc' & Hs' & _);
    [lia | lia | assumption | assumption |].
  destruct (succ_spec r) as (c & Hle & Hs & _).
  rewrite Hs in Hc |- *. rewrite Hs'. simpl in *. split.
  - intros Heq. apply toString34_inj in Heq. lia.
  - change (34 ^ 10) with elevenDigits. lia.
Qed.

Lemma succ_never_repeats_witness :
  let r := create defaultConfig ".a{}" [Rule [".a"]] [] in
  fst (succ r) = "a" /\ fst (succ (snd (succ r))) = "b" /\
  fst (succ (snd (succ r))) <> fst (succ r) /\
  counter (snd (succ (snd (succ r)))) <= 34 ^ 10.
Proof.
  cbv zeta. split; [vm_compute; reflexivity|]. split; [vm_compute; reflexivity|].
  apply (succ_never_repeats (create defaultConfig ".a{}" [Rule [".a"]] [])
           (snd (succ (create defaultConfig ".a{}" [Rule [".a"]] [])))).
  - apply N.le_refl.
  - vm_compute. reflexivity.
Defined.

(** A token from [succ] is made of digits and the letters [a] to [x] only,
    and starts with one of these letters: it has no upper-case letter, no
    hyphen and no underscore, and is never the initial key. *)
Theorem succ_token_alphabet (r : Replacer) :
  let token := fst (succ r) in
  Str.all isDigit34 token = true /\
  from_option (Char.between 97 120) false (Str.head token) = true /\
  token <> "_".
Proof.
  cbv zeta. destruct (succ_spec r) as (c & _ & Hs & Hv & _). rewrite Hs. simpl fst.
  destruct (toString34_spec c) as (_ & Hall & _).
  split; [exact Hall|]. split; [|apply toString34_not_underscore].
  apply leadingDigit_valid in Hv. destruct (toString34 c) as [|a rest]; [contradiction|].
  destruct Hv as [Hd _]. simpl in Hall. apply andb_true_iff in Hall as [Ha _].
  unfold isDigit34 in Ha. rewrite Hd in Ha. exact Ha.
Qed.

(** ** The script pass, further *)

Lemma replaceCounting_out (segs : list Re.segment) (r : Replacer) :
  fst (replaceCounting segs r) = substituteLiteral (items r) segs.
Proof.
  revert r. induction segs as [|[c|a] rest IH]; intros r; simpl.
  - reflexivity.
  - specialize (IH r). destruct (replaceCounting rest r) as [s r']. simpl in *. now rewrite IH.
  - specialize (IH (setCount (count r + 1) r)).
    destruct (replaceCounting rest (setCount (count r + 1) r)) as [s r'].
    simpl in *. now rewrite IH.
Qed.

Lemma alternation_empty (prev : option ascii) (s : string) : alternation [""] prev s = Some O.
Proof. now destruct s. Qed.

(** The empty expression matches before every character and at the end. *)
Lemma scan_empty (s : string) :
  forall prev,
    Re.scan (alternation [""]) prev O s =
    Re.Hit "" :: match s with
                 | EmptyString => []
                 | String c s' => Re.Lit c :: Re.scan (alternation [""]) (Some c) O s'
                 end.
Proof.
  destruct s as [|c s]; intros prev; simpl; [reflexivity|].
  destruct s; reflexivity.
Qed.

Lemma substituteLiteral_empty (m : gmap string string) (s : string) :
  getItem m "" = Undefined ->
  forall prev,
    substituteLiteral m (Re.scan (alternation [""]) prev O s) = undefinedEverywhere s.
Proof.
  intros Hm. induction s as [|c s IH]; intros prev; rewrite scan_empty.
  - simpl. now rewrite Hm.
  - cbn [substituteLiteral undefinedEverywhere]. rewrite Hm, IH. reflexivity.
Qed.

Lemma hits_scan_empty (s : string) :
  forall prev, exists rest, Re.hits (Re.scan (alternation [""]) prev O s) = "" :: rest.
Proof. intros prev. rewrite scan_empty. simpl. eauto. Qed.

(** With an empty catalog and an empty table [replaceItem] registers
    nothing and puts [undefined] everywhere into the literal. *)
Lemma replaceItem_empty (value : string) (r : Replacer) :
  activePrefix (config r) = None -> classes r = [] -> items r = ∅ ->
  exists r',
    replaceItem value r = (undefinedEverywhere value, r') /\
    config r' = config r /\ classes r' = classes r /\ items r' = items r /\
    counter r' = counter r /\ key r' = key r.
Proof.
  intros Hp Hc Hi. unfold replaceItem, generateJsClsRegExp. rewrite Hp, Hc.
  cbv beta iota. unfold Re.matchAll, Re.segments.
  destruct (hits_scan_empty value None) as [rest Hh]. rewrite Hh. simpl registerMatches.
  cbv beta iota.
  destruct (replaceCounting (Re.scan (alternation [""]) None O value) r) as [v2 r2] eqn:Hrc.
  pose proof (replaceCounting_out (Re.scan (alternation [""]) None O value) r) as Hout.
  pose proof (replaceCounting_spec (Re.scan (alternation [""]) None O value) r) as Hst.
  rewrite Hrc in Hout, Hst. cbn [fst snd] in Hout, Hst. subst v2 r2.
  eexists. split.
  - rewrite substituteLiteral_empty; [reflexivity|]. rewrite Hi. reflexivity.
  - repeat split. exact Hc.
Qed.

Lemma traverse_empty (cfg : Config) (nodes : list jsNode) :
  forall r,
    config r = cfg -> activePrefix cfg = None -> classes r = [] -> items r = ∅ ->
    exists r',
      traverse nodes r = (map (undefinedNode cfg) nodes, r') /\
      config r' = cfg /\ classes r' = [] /\ items r' = ∅ /\ key r' = key r.
Proof.
  induction nodes as [|node rest IH]; intros r Hcfg Hp Hc Hi; simpl.
  - exists r. auto.
  - assert (He : exists r1, enter node r = (undefinedNode cfg node, r1) /\
                   config r1 = cfg /\ classes r1 = [] /\ items r1 = ∅ /\ key r1 = key r).
    { unfold enter, undefinedNode. rewrite Hcfg.
      destruct (replaceVeto cfg node); [exists r; auto|].
      destruct node as [[value|]|t]; try (exists r; auto; fail).
      destruct (replaceItem_empty value r) as (r1 & Hr & H1 & H2 & H3 & _ & H5);
        [now rewrite Hcfg | assumption | assumption|].
      rewrite Hr. exists r1. repeat split; congruence. }
    destruct He as (r1 & He & H1 & H2 & H3 & H4). rewrite He.
    destruct (IH r1 H1 Hp H2 H3) as (r2 & Ht & G1 & G2 & G3 & G4). rewrite Ht.
    exists r2. repeat split; congruence.
Qed.

Lemma catalog_nil (re : Re.pattern) (nodes : list cssNode) :
  collectClasses re nodes = [] -> catalog re nodes = [].
Proof. unfold catalog. now intros ->. Qed.

(** Edge: a stylesheet without any class selector. In the default
    configuration the script-side expression is then empty and matches
    everywhere: the run puts [undefined] in front of, behind and between the
    characters of every string literal that the hook lets through, and the
    table stays empty. *)
Theorem empty_catalog_corrupts (cfg : Config) (css : string) (ast : list cssNode)
    (js : list jsNode) :
  activePrefix cfg = None ->
  collectClasses (generateCssClsRegExp cfg) ast = [] ->
  let r := run cfg css ast js in
  generateJs r = map (undefinedNode cfg) js /\ items r = ∅.
Proof.
  intros Hp Hc. cbv zeta. unfold run, replace, replaceLiterals.
  set (r0 := parseCssRules (create cfg css ast js)).
  assert (Hcls : classes r0 = []) by (apply catalog_nil; exact Hc).
  destruct (traverse_empty cfg js r0 eq_refl Hp Hcls eq_refl) as (r1 & Ht & H1 & H2 & H3 & _).
  change (jsAst r0) with js. rewrite Ht. cbv zeta.
  destruct (replaceAllFlag (config (setJsAst (map (undefinedNode cfg) js) r1))).
  - unfold replaceAll. cbn [classes setJsAst]. rewrite H2. simpl. auto.
  - simpl. auto.
Qed.

Lemma empty_catalog_corrupts_witness :
  let r := run defaultConfig "div{top:0}" [Rule ["div"]]
             [NonLiteral "Program"; Literal (VString "ab")] in
  generateJs r = [NonLiteral "Program"; Literal (VString "undefinedaundefinedbundefined")].
Proof.
  cbv zeta.
  destruct (empty_catalog_corrupts defaultConfig "div{top:0}" [Rule ["div"]]
              [NonLiteral "Program"; Literal (VString "ab")]) as [H _].
  - reflexivity.
  - vm_compute. reflexivity.
  - rewrite H. vm_compute. reflexivity.
Defined.

(** A string literal in which no name of the (non-empty) catalog occurs is
    left as it is, and so is the engine's state (default configuration). *)
Theorem literal_without_names_unchanged (value : string) (r : Replacer) :
  activePrefix (config r) = None ->
  classes r <> [] ->
  (forall c, c ∈ classes r -> Str.contains c value = false) ->
  replaceItem value r = (value, r).
Proof.
  intros Hp Hne Hc. unfold replaceItem, generateJsClsRegExp. rewrite Hp.
  destruct (classes r) as [|c0 cls] eqn:Hcls; [congruence|].
  cbv beta iota. unfold Re.matchAll, Re.segments.
  rewrite (scan_silent _ _ (contains_false_silent _ _ Hc)), hits_literals. reflexivity.
Qed.

Lemma literal_without_names_unchanged_witness :
  let r := parseCssRules (create defaultConfig ".foo{}.bar{}" [Rule [".foo"]; Rule [".bar"]] []) in
  replaceItem "use strict" r = ("use strict", r).
Proof.
  cbv zeta.
  apply (literal_without_names_unchanged "use strict"
           (parseCssRules (create defaultConfig ".foo{}.bar{}" [Rule [".foo"]; Rule [".bar"]] []))).
  - reflexivity.
  - vm_compute. discriminate.
  - intros c Hc. vm_compute in Hc.
    apply elem_of_cons in Hc as [->|Hc]; [reflexivity|].
    apply elem_of_cons in Hc as [->|Hc]; [reflexivity | inversion Hc].
Defined.

Lemma scan_no_hits (p : Re.pattern) (s : string) :
  forall prev, Re.hits (Re.scan p prev O s) = [] -> Re.scan p prev O s = literals s.
Proof.
  induction s as [|c s IH]; intros prev; simpl.
  - destruct (p prev ""); [discriminate | reflexivity].
  - destruct (p prev (String c s)) as [[|k]|]; simpl; try discriminate.
    intros H. now rewrite IH.
Qed.

Lemma substituteLiteral_literals (m : gmap string string) (s : string) :
  substituteLiteral m (literals s) = s.
Proof. induction s as [|c s IH]; [reflexivity | simpl; now rewrite IH]. Qed.

Lemma registerMatches_settled (matches : list string) :
  forall (k : string) (r : Replacer),
    pendingInv (items r) (counter r) k ->
    Forall (fun m => Str.truthy m = true) matches ->
    forall k' r',
      registerMatches matches k r = (k', r') ->
      forall m, m ∈ matches -> truthyVal (getItem (items r') m) = true.
Proof.
  induction matches as [|m0 rest IH]; intros k r Hinv Hall k' r' Heq m Hm.
  - inversion Hm.
  - inversion Hall as [|? ? Ht Hrest]; subst. simpl in Heq. rewrite Ht in Heq.
    destruct (truthyVal (getItem (items r) m0)) eqn:Hm0.
    + apply elem_of_cons in Hm as [->|Hm]; [|eauto].
      destruct (registerMatches_spec _ _ _ Hinv _ _ Heq) as (_ & (_ & Hkeep & _) & _).
      now rewrite (Hkeep _ Hm0).
    + pose proof (falsy_lookup _ _ _ (pendingInv_table _ _ _ Hinv) Hm0) as Hnone.
      destruct (succ_extends (setItems (<[m0:=k]> (items r)) r)) as (c & Hle & Hs).
      rewrite Hs in Heq. simpl in Hle.
      set (r1 := setCounter (c + 1) (setItems (<[m0:=k]> (items r)) r)) in *.
      assert (Hinv1 : pendingInv (items r1) (counter r1) (toString34 c))
        by (apply (pendingInv_register _ (counter r)); assumption).
      apply elem_of_cons in Hm as [->|Hm]; [|exact (IH _ r1 Hinv1 Hrest _ _ Heq m Hm)].
      destruct (registerMatches_spec _ _ _ Hinv1 _ _ Heq) as (_ & (_ & Hkeep & _) & _).
      assert (Hk : truthyVal (getItem (items r1) m0) = true).
      { unfold getItem. cbn [r1 items setItems setCounter]. rewrite lookup_insert_eq. simpl.
        apply (issued_truthy (counter r)), Hinv. }
      now rewrite (Hkeep _ Hk).
Qed.

(** After [replaceItem], when no match is empty, every matched name has a
    truthy table lookup, and the new value of the literal is the old one
    with every match replaced by that lookup: a name gets the same token
    at each of its occurrences. *)
Theorem replaceItem_consistent (value : string) (r : Replacer) :
  pendingInv (items r) (counter r) (key r) ->
  let segs := Re.segments (generateJsClsRegExp (config r) (classes r)) value in
  Forall (fun m => Str.truthy m = true) (Re.hits segs) ->
  let value' := fst (replaceItem value r) in
  let r' := snd (replaceItem value r) in
  (forall m, m ∈ Re.hits segs -> truthyVal (getItem (items r') m) = true) /\
  value' = substituteLiteral (items r') segs.
Proof.
  intros Hinv segs Hall. cbv zeta. unfold replaceItem. fold segs.
  unfold Re.matchAll. fold segs.
  destruct (Re.hits segs) as [|m0 ms] eqn:Hh.
  - simpl. split; [intros m Hm; inversion Hm|].
    unfold segs, Re.segments in *. rewrite (scan_no_hits _ _ _ Hh).
    symmetry. apply substituteLiteral_literals.
  - destruct (registerMatches (m0 :: ms) (key r) r) as [k1 r1] eqn:Hreg.
    pose proof (registerMatches_settled _ _ _ Hinv Hall _ _ Hreg) as Hset.
    pose proof (replaceCounting_out segs r1) as Hout.
    pose proof (replaceCounting_spec segs r1) as Hst.
    destruct (replaceCounting segs r1) as [v2 r2]. cbn [fst snd] in *. subst v2 r2.
    cbn [items setKey setCount]. auto.
Qed.

Lemma replaceItem_consistent_witness :
  let r := parseCssRules (create defaultConfig ".btn{}.btn-lg{}"
                            [Rule [".btn"]; Rule [".btn-lg"]] []) in
  fst (replaceItem "btn btn-lg btn" r) = "_ a _" /\
  fst (replaceItem "btn btn-lg btn" r) =
  substituteLiteral (items (snd (replaceItem "btn btn-lg btn" r)))
    (Re.segments (generateJsClsRegExp (config r) (classes r)) "btn btn-lg btn").
Proof.
  cbv zeta. split; [vm_compute; reflexivity|].
  apply (replaceItem_consistent "btn btn-lg btn"
           (parseCssRules (create defaultConfig ".btn{}.btn-lg{}"
                             [Rule [".btn"]; Rule [".btn-lg"]] []))).
  - apply create_pendingInv.
  - vm_compute. repeat constructor.
Defined.

(** The keys that the loops register come from their inputs. *)
Lemma registerMatches_keys (matches : list string) :
  forall (k : string) (r : Replacer) k' r',
    registerMatches matches k r = (k', r') ->
    forall x t, items r' !! x = Some t ->
      is_Some (items r !! x) \/ (x ∈ matches /\ Str.truthy x = true).
Proof.
  induction matches as [|m rest IH]; intros k r k' r' Heq x t Hx; simpl in Heq.
  - inversion Heq; subst. eauto.
  - destruct (Str.truthy m) eqn:Ht; [|inversion Heq; subst; eauto].
    destruct (truthyVal (getItem (items r) m)).
    + destruct (IH _ _ _ _ Heq x t Hx) as [H|[H1 H2]]; [now left | right].
      split; [now right | assumption].
    + destruct (succ_extends (setItems (<[m:=k]> (items r)) r)) as (c & _ & Hs).
      rewrite Hs in Heq.
      destruct (IH _ _ _ _ Heq x t Hx) as [H|[H1 H2]].
      * cbn [items setItems setCounter] in H. destruct (decide (m = x)) as [<-|Hne].
        -- right. split; [left | assumption].
        -- left. now rewrite lookup_insert_ne in H.
      * right. split; [now right | assumption].
Qed.

Lemma replaceAllLoop_keys (cls : list string) :
  forall (k : string) (r : Replacer) k' r',
    replaceAllLoop cls k r = (k', r') ->
    forall x t, items r' !! x = Some t -> is_Some (items r !! x) \/ x ∈ cls.
Proof.
  induction cls as [|c rest IH]; intros k r k' r' Heq x t Hx; simpl in Heq.
  - inversion Heq; subst. eauto.
  - destruct (truthyVal (getItem (items r) c)).
    + destruct (IH _ _ _ _ Heq x t Hx) as [H|H]; [now left | right; now right].
    + destruct (succ_extends (setItems (<[c:=k]> (items r)) r)) as (n & _ & Hs).
      rewrite Hs in Heq. cbn [count setCounter setItems] in Heq.
      destruct (IH _ _ _ _ Heq x t Hx) as [H|H]; [|right; now right].
      cbn [items setItems setCounter setCount] in H.
      destruct (decide (c = x)) as [<-|Hne]; [right; left|].
      left. now rewrite lookup_insert_ne in H.
Qed.

Lemma alternation_hits (alts : list string) (s : string) (h : string) :
  h ∈ Re.hits (Re.segments (alternation alts) s) -> h = "" \/ h ∈ alts.
Proof.
  intros Hh. apply scan_hit_inv in Hh as [->|(prev & s' & k & Hp & ->)]; [now left|].
  apply alternation_hit in Hp as (before & a & after & -> & Hs & Hn & _).
  right. rewrite Hn, (startsWith_take _ _ Hs).
  apply elem_of_app. right. left.
Qed.

Lemma replaceItem_keys (value : string) (r : Replacer) :
  activePrefix (config r) = None ->
  forall x t, items (snd (replaceItem value r)) !! x = Some t ->
    is_Some (items r !! x) \/ x ∈ classes r.
Proof.
  intros Hp x t. unfold replaceItem.
  set (re := generateJsClsRegExp (config r) (classes r)).
  unfold Re.matchAll. destruct (Re.hits (Re.segments re value)) as [|m0 ms] eqn:Hh.
  - simpl. eauto.
  - destruct (registerMatches (m0 :: ms) (key r) r) as [k1 r1] eqn:Hreg.
    pose proof (replaceCounting_spec (Re.segments re value) r1) as Hst.
    destruct (replaceCounting (Re.segments re value) r1) as [v2 r2].
    cbn [fst snd] in *. subst r2. cbn [items setKey setCount]. intros Hx.
    destruct (registerMatches_keys _ _ _ _ _ Hreg x t Hx) as [H|[H Ht]]; [now left|].
    right. rewrite <- Hh in H. unfold re, generateJsClsRegExp in H. rewrite Hp in H.
    destruct (classes r) as [|c0 cls] eqn:Hcls.
    + apply alternation_hits in H as [->|H]; [discriminate|].
      apply list_elem_of_singleton in H. subst x. discriminate.
    + apply alternation_hits in H as [->|H]; [discriminate | exact H].
Qed.

Lemma traverse_keys (nodes : list jsNode) :
  forall r,
    pendingInv (items r) (counter r) (key r) ->
    activePrefix (config r) = None ->
    forall x t, items (snd (traverse nodes r)) !! x = Some t ->
      is_Some (items r !! x) \/ x ∈ classes r.
Proof.
  induction nodes as [|node rest IH]; intros r Hinv Hp x t; simpl; [eauto|].
  destruct (enter node r) as [n1 r1] eqn:He.
  destruct (enter_spec _ _ Hinv _ _ He) as (Hp1 & (_ & _ & _ & Hcfg & _ & Hcls & _) & _).
  specialize (IH r1 Hp1). rewrite Hcfg, Hcls in IH. specialize (IH Hp x t).
  destruct (traverse rest r1) as [rest1 r2]. cbn [snd] in *. intros Hx.
  destruct (IH Hx) as [H|H]; [|now right].
  unfold enter in He. destruct (replaceVeto (config r) node); [inversion He; subst; now left|].
  destruct node as [[value|]|ty]; try (inversion He; subst; now left).
  pose proof (replaceItem_keys value r Hp x) as Hk.
  destruct (replaceItem value r) as [v1 r1']. inversion He; subst.
  destruct H as [t' Ht']. eapply Hk. exact Ht'.
Qed.

(** In the default configuration every name that has a token after a run
    is a name of the catalog: nothing but class names of the stylesheet is
    ever given a token by the script pass or by [replaceAll]. *)
Theorem table_keys_in_catalog (cfg : Config) (css : string) (ast : list cssNode)
    (js : list jsNode) (k t : string) :
  activePrefix cfg = None ->
  items (run cfg css ast js) !! k = Some t ->
  k ∈ classes (run cfg css ast js).
Proof.
  intros Hp Hk.
  pose proof (create_pendingInv cfg css ast js) as Hinv. cbv zeta in Hinv.
  set (r0 := parseCssRules (create cfg css ast js)) in *.
  destruct (run_spec cfg css ast js) as [_ (_ & _ & _ & _ & _ & Hcls & _)].
  fold r0 in Hcls. rewrite Hcls.
  destruct (replaceLiterals_spec r0 Hinv) as (Hp1 & (_ & _ & _ & Hcfg1 & _ & Hcls1 & _) & Hrl & _).
  assert (Hlit : forall x u, items (replaceLiterals r0) !! x = Some u -> x ∈ classes r0).
  { intros x u Hx. rewrite Hrl in Hx. cbn [items setJsAst] in Hx.
    destruct (traverse_keys (jsAst r0) r0 Hinv Hp x u Hx) as [[v Hv]|H]; [|exact H].
    cbn in Hv. now rewrite lookup_empty in Hv. }
  unfold run, replace in Hk. fold r0 in Hk.
  destruct (replaceAllFlag (config (replaceLiterals r0))); [|eauto].
  unfold replaceAll in Hk.
  destruct (replaceAllLoop (classes (replaceLiterals r0)) (key (replaceLiterals r0))
              (replaceLiterals r0)) as [k' r'] eqn:Hl.
  cbn [snd] in Hk. destruct (replaceAllLoop_keys _ _ _ _ _ Hl k t Hk) as [[v Hv]|H].
  - eauto.
  - now rewrite Hcls1 in H.
Qed.

Lemma table_keys_in_catalog_witness :
  let r := run defaultConfig ".foo{}.bar{}" [Rule [".foo"]; Rule [".bar"]]
             [Literal (VString "foo baz")] in
  items r !! "foo" = Some "_" /\ "foo" ∈ classes r.
Proof.
  cbv zeta. assert (H : items (run defaultConfig ".foo{}.bar{}" [Rule [".foo"]; Rule [".bar"]]
                                 [Literal (VString "foo baz")]) !! "foo" = Some "_")
    by (vm_compute; reflexivity).
  split; [exact H|].
  exact (table_keys_in_catalog defaultConfig ".foo{}.bar{}" [Rule [".foo"]; Rule [".bar"]]
           [Literal (VString "foo baz")] "foo" "_" eq_refl H).
Defined.

Lemma replaceAllLoop_frame (cls : list string) :
  forall (k : string) (r : Replacer),
    jsAst (snd (replaceAllLoop cls k r)) = jsAst r /\ key (snd (replaceAllLoop cls k r)) = key r.
Proof.
  induction cls as [|c cls IH]; intros k r; simpl; [auto|].
  destruct (truthyVal (getItem (items r) c)); [apply IH|].
  destruct (succ_extends (setItems (<[c:=k]> (items r)) r)) as (n & _ & Hs).
  rewrite Hs. cbv beta iota.
  destruct (IH (toString34 n)
              (setCount (count (setCounter (n + 1) (setItems (<[c:=k]> (items r)) r)) + 1)
                 (setCounter (n + 1) (setItems (<[c:=k]> (items r)) r)))) as [H1 H2].
  rewrite H1, H2. auto.
Qed.

(** The script keeps its shape: node for node the result of a run is the
    script that came in, except for the text of the string literals that
    the hook lets through. *)
Theorem replace_keeps_shape (cfg : Config) (css : string) (ast : list cssNode)
    (js : list jsNode) :
  Forall2 (sameNode cfg) js (generateJs (run cfg css ast js)).
Proof.
  pose proof (create_pendingInv cfg css ast js) as Hinv. cbv zeta in Hinv.
  set (r0 := parseCssRules (create cfg css ast js)) in *.
  assert (Ht : forall nodes r, pendingInv (items r) (counter r) (key r) -> config r = cfg ->
                 Forall2 (sameNode cfg) nodes (fst (traverse nodes r))).
  { induction nodes as [|node rest IH]; intros r Hr Hcfg; simpl; [constructor|].
    destruct (enter node r) as [n1 r1] eqn:He.
    destruct (enter_spec _ _ Hr _ _ He) as (Hp1 & (_ & _ & _ & Hcfg1 & _) & _).
    specialize (IH r1 Hp1 (eq_trans Hcfg1 Hcfg)).
    destruct (traverse rest r1) as [rest1 r2]. simpl in *. constructor; [|exact IH].
    unfold enter in He. unfold sameNode. rewrite Hcfg in He.
    destruct (replaceVeto cfg node); [now inversion He|].
    destruct node as [[value|]|ty]; try (now inversion He).
    destruct (replaceItem value r). now inversion He. }
  assert (Hjs : generateJs (run cfg css ast js) = fst (traverse js r0)).
  { unfold generateJs, run, replace, replaceLiterals. fold r0. change (jsAst r0) with js.
    destruct (traverse js r0) as [nodes r1]. cbv zeta. cbn [fst].
    destruct (replaceAllFlag (config (setJsAst nodes r1))); [|reflexivity].
    unfold replaceAll. now rewrite (proj1 (replaceAllLoop_frame _ _ _)). }
  rewrite Hjs. now apply Ht.
Qed.

(** ** The exhaustive pass, further *)

Lemma replaceAllLoop_settled (cls : list string) :
  forall (k : string) (r : Replacer),
    pendingInv (items r) (counter r) k ->
    forall k' r',
      replaceAllLoop cls k r = (k', r') ->
      forall c, c ∈ cls -> truthyVal (getItem (items r') c) = true.
Proof.
  induction cls as [|c0 rest IH]; intros k r Hinv k' r' Heq c Hc.
  - inversion Hc.
  - simpl in Heq. destruct (truthyVal (getItem (items r) c0)) eqn:Hc0.
    + apply elem_of_cons in Hc as [->|Hc]; [|eauto].
      destruct (replaceAllLoop_spec _ _ _ Hinv _ _ Heq) as (_ & (_ & Hkeep & _) & _).
      now rewrite (Hkeep _ Hc0).
    + pose proof (falsy_lookup _ _ _ (pendingInv_table _ _ _ Hinv) Hc0) as Hnone.
      destruct (succ_extends (setItems (<[c0:=k]> (items r)) r)) as (n & Hle & Hs).
      rewrite Hs in Heq. simpl in Hle.
      set (r1 := setCount (count (setCounter (n + 1) (setItems (<[c0:=k]> (items r)) r)) + 1)
                   (setCounter (n + 1) (setItems (<[c0:=k]> (items r)) r))) in *.
      assert (Hinv1 : pendingInv (items r1) (counter r1) (toString34 n))
        by (apply (pendingInv_register _ (counter r)); assumption).
      apply elem_of_cons in Hc as [->|Hc]; [|exact (IH _ r1 Hinv1 _ _ Heq c Hc)].
      destruct (replaceAllLoop_spec _ _ _ Hinv1 _ _ Heq) as (_ & (_ & Hkeep & _) & _).
      assert (Hk : truthyVal (getItem (items r1) c0) = true).
      { unfold getItem. cbn [r1 items setItems setCounter setCount].
        rewrite lookup_insert_eq. simpl. apply (issued_truthy (counter r)), Hinv. }
      now rewrite (Hkeep _ Hk).
Qed.

(** With [replaceAll] every name of the catalog has a truthy table lookup
    after the run, whether the script mentions it or not. *)
Theorem replaceAll_covers_catalog (cfg : Config) (css : string) (ast : list cssNode)
    (js : list jsNode) (c : string) :
  replaceAllFlag cfg = true ->
  c ∈ classes (run cfg css ast js) ->
  truthyVal (getItem (items (run cfg css ast js)) c) = true.
Proof.
  intros Hflag Hc.
  pose proof (create_pendingInv cfg css ast js) as Hinv. cbv zeta in Hinv.
  set (r0 := parseCssRules (create cfg css ast js)) in *.
  destruct (replaceLiterals_spec r0 Hinv) as (Hp1 & (_ & _ & _ & Hcfg1 & _) & _).
  unfold run, replace in *. fold r0 in Hc |- *.
  replace (replaceAllFlag (config (replaceLiterals r0))) with true in *
    by (rewrite Hcfg1; symmetry; exact Hflag).
  destruct (replaceAll_spec _ Hp1) as (_ & (_ & _ & _ & _ & _ & Hcls & _) & _).
  rewrite Hcls in Hc. unfold replaceAll.
  destruct (replaceAllLoop (classes (replaceLiterals r0)) (key (replaceLiterals r0))
              (replaceLiterals r0)) as [k' r'] eqn:Hl.
  cbn [snd]. eapply replaceAllLoop_settled; eassumption.
Qed.

Lemma replaceAll_covers_catalog_witness :
  let cfg := {| prefix := None; replaceVeto := emptyFn; replaceAllFlag := true |} in
  let r := run cfg ".used{}.unused{}" [Rule [".used"]; Rule [".unused"]]
             [Literal (VString "used")] in
  map_to_list (items r) = [("used", "_"); ("unused", "a")] /\
  truthyVal (getItem (items r) "unused") = true.
Proof.
  cbv zeta. split; [vm_compute; reflexivity|].
  apply (replaceAll_covers_catalog
           {| prefix := None; replaceVeto := emptyFn; replaceAllFlag := true |}
           ".used{}.unused{}" [Rule [".used"]; Rule [".unused"]] [Literal (VString "used")]
           "unused").
  - reflexivity.
  - vm_compute. apply list_elem_of_here.
Defined.

(** [replaceAll] hands out the pending key of the script pass and does not
    write its own key back: as soon as it registers a name, the key that
    the engine holds afterwards is a token that is already in the table. *)
Theorem replaceAll_leaves_used_key (r : Replacer) (c : string) :
  pendingInv (items r) (counter r) (key r) ->
  c ∈ classes r ->
  truthyVal (getItem (items r) c) = false ->
  key (replaceAll r) = key r /\
  exists c', items (replaceAll r) !! c' = Some (key (replaceAll r)).
Proof.
  intros Hinv Hc Hf. unfold replaceAll.
  assert (Hgen : forall cls k r1, pendingInv (items r1) (counter r1) k ->
            c ∈ cls -> truthyVal (getItem (items r1) c) = false ->
            key (snd (replaceAllLoop cls k r1)) = key r1 /\
            exists c', items (snd (replaceAllLoop cls k r1)) !! c' = Some k).
  { induction cls as [|c0 rest IH]; intros k r1 Hinv1 Hin Hfal; [inversion Hin|].
    simpl. destruct (truthyVal (getItem (items r1) c0)) eqn:Hc0.
    - apply elem_of_cons in Hin as [->|Hin]; [congruence | now apply IH].
    - pose proof (falsy_lookup _ _ _ (pendingInv_table _ _ _ Hinv1) Hc0) as Hnone.
      destruct (succ_extends (setItems (<[c0:=k]> (items r1)) r1)) as (n & Hle & Hs).
      rewrite Hs. simpl in Hle.
      set (r2 := setCount (count (setCounter (n + 1) (setItems (<[c0:=k]> (items r1)) r1)) + 1)
                   (setCounter (n + 1) (setItems (<[c0:=k]> (items r1)) r1))).
      assert (Hinv2 : pendingInv (items r2) (counter r2) (toString34 n))
        by (apply (pendingInv_register _ (counter r1)); assumption).
      destruct (replaceAllLoop rest (toString34 n) r2) as [k' r'] eqn:Hl.
      destruct (replaceAllLoop_spec _ _ _ Hinv2 _ _ Hl) as (_ & (Hsub & _) & _).
      cbn [snd]. split.
      + pose proof (proj2 (replaceAllLoop_frame rest (toString34 n) r2)) as Hk.
        rewrite Hl in Hk. exact Hk.
      + exists c0. eapply lookup_weaken; [|exact Hsub].
        cbn [r2 items setItems setCounter setCount]. apply lookup_insert_eq. }
  destruct (Hgen (classes r) (key r) r Hinv Hc Hf) as [H1 H2].
  rewrite H1. auto.
Qed.

Lemma replaceAll_leaves_used_key_witness :
  let r := replaceLiterals (parseCssRules (create defaultConfig ".used{}.unused{}"
             [Rule [".used"]; Rule [".unused"]] [Literal (VString "used")])) in
  key r = "a" /\ key (replaceAll r) = "a" /\
  items (replaceAll r) !! "unused" = Some "a" /\
  exists c', items (replaceAll r) !! c' = Some (key (replaceAll r)).
Proof.
  cbv zeta. split; [vm_compute; reflexivity|]. split; [vm_compute; reflexivity|].
  split; [vm_compute; reflexivity|].
  apply (replaceAll_leaves_used_key
           (replaceLiterals (parseCssRules (create defaultConfig ".used{}.unused{}"
              [Rule [".used"]; Rule [".unused"]] [Literal (VString "used")])))
           "unused").
  - apply replaceLiterals_spec, create_pendingInv.
  - vm_compute. apply list_elem_of_here.
  - vm_compute. reflexivity.
Defined.

(** ** The catalog and the expressions, further *)

Lemma take_nil (n : nat) : Str.take n "" = "".
Proof. now destruct n. Qed.

(** Every match that a scan reports is what the expression matched at some
    position. *)
Lemma scan_hit_exact (p : Re.pattern) (s : string) :
  forall prev skip h,
    h ∈ Re.hits (Re.scan p prev skip s) ->
    exists prev' s' n, p prev' s' = Some n /\ h = Str.take n s'.
Proof.
  induction s as [|c s IH]; intros prev skip h Hh.
  - simpl in Hh. destruct skip; [|inversion Hh].
    destruct (p prev "") as [n|] eqn:Hp; [|inversion Hh].
    apply list_elem_of_singleton in Hh. subst h.
    exists prev, "", n. now rewrite take_nil.
  - simpl in Hh. destruct skip as [|k]; [|eauto].
    destruct (p prev (String c s)) as [[|k]|] eqn:Hp; simpl in Hh.
    + apply elem_of_cons in Hh as [->|Hh]; [|eauto].
      exists prev, (String c s), O. auto.
    + apply elem_of_cons in Hh as [->|Hh]; [|eauto].
      exists prev, (String c s), (S k). auto.
    + eauto.
Qed.

Lemma alternation_Some (alts : list string) (prev : option ascii) (s b : string) :
  b ∈ alts -> Str.startsWith b s = true -> is_Some (alternation alts prev s).
Proof.
  induction alts as [|a alts IH]; intros Hb Hs; [inversion Hb|]. simpl.
  destruct (Str.startsWith a s) eqn:Ha; [eauto|].
  apply elem_of_cons in Hb as [->|Hb]; [congruence | auto].
Qed.

Lemma StronglySorted_app_r {A : Type} (R : A -> A -> Prop) (l1 l2 : list A) :
  StronglySorted R (l1 ++ l2) -> StronglySorted R l2.
Proof.
  induction l1 as [|x l1 IH]; simpl; [auto|]. intros H. inversion H; subst. auto.
Qed.

(** Longer names first: where the rest of a literal starts with a name of
    the catalog, the script-side expression of the default configuration
    matches there, and it matches a catalog name that is at least as long
    as any other the rest starts with. *)
Theorem longest_name_matches (cfg : Config) (css : string) (ast : list cssNode)
    (js : list jsNode) (prev : option ascii) (s b : string) :
  let r := parseCssRules (create cfg css ast js) in
  activePrefix cfg = None ->
  b ∈ classes r ->
  Str.startsWith b s = true ->
  exists a,
    a ∈ classes r /\ Str.startsWith a s = true /\
    (String.length b <= String.length a)%nat /\
    generateJsClsRegExp (config r) (classes r) prev s = Some (String.length a).
Proof.
  cbv zeta. intros Hp Hb Hs.
  cbn [parseCssRules create classes setClasses config rules] in *.
  set (cat := catalog (generateCssClsRegExp cfg) ast) in *.
  assert (Hsorted : StronglySorted longerFirst cat)
    by (unfold cat; rewrite catalog_dedup; apply dedupFrom_sorted, sortByLength_sorted).
  unfold generateJsClsRegExp. rewrite Hp.
  assert (Hre : match cat with [] => alternation [""] | _ :: _ => alternation cat end
                = alternation cat) by (destruct cat; [inversion Hb | reflexivity]).
  rewrite Hre. destruct (alternation_Some cat prev s b Hb Hs) as [n Hn].
  destruct (alternation_hit _ _ _ _ Hn) as (before & a & after & Hcat & Ha & Hlen & Hnot).
  exists a. rewrite Hn, Hlen. repeat split; auto.
  - rewrite Hcat. apply elem_of_app. right. left.
  - rewrite Hcat in Hb, Hsorted. apply elem_of_app in Hb as [Hb|Hb].
    + rewrite Forall_forall in Hnot. specialize (Hnot b Hb). congruence.
    + apply elem_of_cons in Hb as [->|Hb]; [lia|].
      apply StronglySorted_app_r in Hsorted.
      inversion Hsorted as [|? ? _ Hall]; subst.
      rewrite Forall_forall in Hall. apply (Hall b Hb).
Qed.

Lemma longest_name_matches_witness :
  let r := parseCssRules (create defaultConfig ".btn{}.btn-lg{}"
                            [Rule [".btn"]; Rule [".btn-lg"]] []) in
  generateJsClsRegExp (config r) (classes r) None "btn-lg x" = Some 6%nat /\
  exists a,
    a ∈ classes r /\ Str.startsWith a "btn-lg x" = true /\
    (String.length "btn" <= String.length a)%nat /\
    generateJsClsRegExp (config r) (classes r) None "btn-lg x" = Some (String.length a).
Proof.
  cbv zeta. split; [vm_compute; reflexivity|].
  apply (longest_name_matches defaultConfig ".btn{}.btn-lg{}"
           [Rule [".btn"]; Rule [".btn-lg"]] [] None "btn-lg x" "btn").
  - reflexivity.
  - vm_compute. apply list_elem_of_further, list_elem_of_here.
  - reflexivity.
Defined.

Lemma isCls_not_dot_space (c : ascii) :
  Char.isCls c = true -> Char.isChar "." c = false /\ Char.isChar " " c = false.
Proof.
  unfold Char.isCls, Char.isDigit, Char.isLower, Char.isUpper, Char.isChar, Char.between.
  change (Char.code "-") with 45. change (Char.code "_") with 95.
  change (Char.code ".") with 46. change (Char.code " ") with 32.
  rewrite !orb_true_iff, !andb_true_iff, !N.leb_le, !N.eqb_eq, !N.eqb_neq. lia.
Qed.

Lemma removeDots_cls (x : string) : Str.all Char.isCls x = true -> Str.removeDots x = x.
Proof.
  induction x as [|c x IH]; simpl; [reflexivity|].
  rewrite andb_true_iff. intros [Hc Hx].
  destruct (isCls_not_dot_space c Hc) as [-> _]. now rewrite IH.
Qed.

Lemma removeDots_app (a b : string) :
  Str.removeDots (a ++ b) = Str.removeDots a ++ Str.removeDots b.
Proof.
  induction a as [|c a IH]; [reflexivity|]. rewrite append_cons. simpl.
  destruct (Char.isChar "." c); [exact IH | now rewrite append_cons, IH].
Qed.

Lemma splitSpace_app (x rest : string) :
  Str.all Char.isCls x = true ->
  Str.splitSpace (x ++ " " ++ rest) = x :: Str.splitSpace rest.
Proof.
  induction x as [|c x IH]; intros Hx.
  - reflexivity.
  - simpl in Hx. apply andb_true_iff in Hx as [Hc Hx].
    rewrite append_cons. simpl. destruct (isCls_not_dot_space c Hc) as [_ ->].
    now rewrite (IH Hx).
Qed.

Lemma splitSpace_cls (x : string) : Str.all Char.isCls x = true -> Str.splitSpace x = [x].
Proof.
  induction x as [|c x IH]; intros Hx; [reflexivity|].
  simpl in Hx. apply andb_true_iff in Hx as [Hc Hx].
  simpl. destruct (isCls_not_dot_space c Hc) as [_ ->]. now rewrite (IH Hx).
Qed.

(** Joining dotted names, removing the dots and splitting at the spaces
    gives the names back. *)
Lemma split_join_dotted (xs : list string) :
  xs <> [] ->
  Forall (fun x => Str.all Char.isCls x = true) xs ->
  Str.splitSpace (Str.removeDots (Str.join " " (map (String ".") xs))) = xs.
Proof.
  intros Hne Hall. induction Hall as [|x xs Hx Hall IH]; [congruence|].
  destruct xs as [|y ys].
  - simpl. rewrite (removeDots_cls x Hx). now apply splitSpace_cls.
  - change (Str.join " " (map (String ".") (x :: y :: ys)))
      with (String "." x ++ " " ++ Str.join " " (map (String ".") (y :: ys))).
    rewrite removeDots_app, removeDots_app.
    change (Str.removeDots (String "." x)) with (Str.removeDots x).
    change (Str.removeDots " ") with " ".
    rewrite (removeDots_cls x Hx), (splitSpace_app _ _ Hx), IH; [reflexivity | discriminate].
Qed.

Lemma clsAfter_hits (lit s : string) (prev : option ascii) (skip : nat) :
  Str.all Char.isCls lit = true ->
  Forall (fun m => exists w, m = String "." (lit ++ w) /\ w <> "" /\
                             Str.all Char.isCls w = true)
         (Re.hits (Re.scan (clsAfter (String "." lit)) prev skip s)).
Proof.
  intros Hlit. apply Forall_forall. intros m Hm.
  apply scan_hit_exact in Hm as (prev' & s' & n & Hp & ->).
  apply clsAfter_hit in Hp as (w & Hw & Hne & Hall). exists w. now rewrite Hw, append_cons.
Qed.

Lemma extractClasses_names (lit : string) (selectors : list string) (c : string) :
  Str.all Char.isCls lit = true ->
  c ∈ extractClasses (clsAfter (String "." lit)) selectors ->
  exists w, c = lit ++ w /\ w <> "" /\ Str.all Char.isCls w = true.
Proof.
  intros Hlit. unfold extractClasses, Re.matchAll, Re.segments.
  pose proof (clsAfter_hits lit (Str.join " " selectors) None O Hlit) as Hall.
  destruct (Re.hits (Re.scan (clsAfter (String "." lit)) None 0 (Str.join " " selectors)))
    as [|m0 ms] eqn:Hh; [intros H; inversion H|].
  assert (Hxs : exists xs, m0 :: ms = map (String ".") xs /\
            Forall (fun x => exists w, x = lit ++ w /\ w <> "" /\ Str.all Char.isCls w = true) xs).
  { clear Hh. induction Hall as [|m l (w & -> & Hne & Hw) _ IH].
    - exists []. split; [reflexivity | constructor].
    - destruct IH as (xs & -> & Hxs). exists ((lit ++ w) :: xs). split; [reflexivity|].
      constructor; [eauto | assumption]. }
  destruct Hxs as (xs & Heq & Hxs). rewrite Heq. rewrite split_join_dotted.
  - intros Hc. rewrite Forall_forall in Hxs. auto.
  - destruct xs; discriminate.
  - eapply Forall_impl; [exact Hxs|]. intros x (w & -> & _ & Hw).
    now rewrite all_app, Hlit, Hw.
Qed.

(** The names of the catalog are class names: each is the configured
    prefix (when it is itself made of class-name characters) followed by
    at least one letter, digit, hyphen or underscore; without a prefix each
    is a non-empty run of such characters. *)
Theorem catalog_names (cfg : Config) (css : string) (ast : list cssNode)
    (js : list jsNode) (c : string) :
  let lit := from_option id "" (activePrefix cfg) in
  Str.all Char.isCls lit = true ->
  c ∈ classes (parseCssRules (create cfg css ast js)) ->
  exists w, c = lit ++ w /\ w <> "" /\ Str.all Char.isCls w = true.
Proof.
  cbv zeta. intros Hlit Hc.
  cbn [parseCssRules create classes setClasses config rules] in Hc.
  apply elem_of_catalog, elem_of_collectClasses in Hc as (sels & _ & Hc).
  assert (Hre : generateCssClsRegExp cfg
                = clsAfter (String "." (from_option id "" (activePrefix cfg))))
    by (unfold generateCssClsRegExp; now destruct (activePrefix cfg)).
  rewrite Hre in Hc. now apply extractClasses_names in Hc.
Qed.

Lemma catalog_names_witness :
  let cfg := {| prefix := Some "d-"; replaceVeto := emptyFn; replaceAllFlag := false |} in
  let r := parseCssRules (create cfg ".d-btn{}.other{}" [Rule [".d-btn"]; Rule [".other"]] []) in
  classes r = ["d-btn"] /\
  exists w, "d-btn" = "d-" ++ w /\ w <> "" /\ Str.all Char.isCls w = true.
Proof.
  cbv zeta. split; [vm_compute; reflexivity|].
  apply (catalog_names {| prefix := Some "d-"; replaceVeto := emptyFn; replaceAllFlag := false |}
           ".d-btn{}.other{}" [Rule [".d-btn"]; Rule [".other"]] [] "d-btn").
  - reflexivity.
  - vm_compute. apply list_elem_of_here.
Defined.

(** ** The stylesheet pass, further *)

Lemma sameScript_refl (r : Replacer) : sameScript r r.
Proof. repeat split. Qed.

Lemma sameScript_trans (r1 r2 r3 : Replacer) :
  sameScript r1 r2 -> sameScript r2 r3 -> sameScript r1 r3.
Proof.
  intros (A1 & A2 & A3 & A4 & A5) (B1 & B2 & B3 & B4 & B5). repeat split; congruence.
Qed.

Lemma rewriteSelector_script (hasNot : bool) (segs : list Re.segment) :
  forall r, sameScript r (snd (rewriteSelector hasNot segs r)).
Proof.
  induction segs as [|[c|a] rest IH]; intros r; simpl.
  - apply sameScript_refl.
  - specialize (IH r). now destruct (rewriteSelector hasNot rest r).
  - set (r1 := if negb (truthyVal (getItem (items r) (Str.removeFirstDot a))) && hasNot
               then let '(token, r0) := succ r in
                    setItems (<[Str.removeFirstDot a:=token]> (items r0)) r0
               else r).
    assert (H1 : sameScript r r1).
    { unfold r1. destruct (negb _ && hasNot); [|apply sameScript_refl].
      destruct (succ_extends r) as (n & _ & Hs). rewrite Hs. repeat split. }
    specialize (IH r1). destruct (rewriteSelector hasNot rest r1) as [s r2].
    simpl in *. eapply sameScript_trans; eassumption.
Qed.

Lemma rewriteSelectors_script (re : Re.pattern) (hasNot : bool) (selectors : list string) :
  forall r, sameScript r (snd (rewriteSelectors re hasNot selectors r)).
Proof.
  induction selectors as [|sel rest IH]; intros r; simpl; [apply sameScript_refl|].
  destruct (Str.truthy sel); [|apply sameScript_refl].
  pose proof (rewriteSelector_script hasNot (Re.segments re sel) r) as H1.
  destruct (rewriteSelector hasNot (Re.segments re sel) r) as [out1 r1].
  specialize (IH r1). destruct (rewriteSelectors re hasNot rest r1) as [news r2].
  simpl in *. eapply sameScript_trans; eassumption.
Qed.

Lemma rewriteRule_script (selectors : list string) (r : Replacer) :
  sameScript r (snd (rewriteRule selectors r)).
Proof.
  unfold rewriteRule.
  pose proof (rewriteSelectors_script (generateCssClsRegExp (config r))
                (Str.contains ":not" (Str.join " " selectors)) selectors r) as H.
  now destruct (rewriteSelectors _ _ selectors r).
Qed.

Lemma rewriteMediaRules_script (nodes : list cssNode) :
  forall r,
    sameScript r (snd (rewriteMediaRules nodes r)) /\
    Forall2 sameNested nodes (fst (rewriteMediaRules nodes r)).
Proof.
  induction nodes as [|node rest IH]; intros r; simpl.
  - split; [apply sameScript_refl | constructor].
  - destruct node as [sels|nested|t].
    + pose proof (rewriteRule_script sels r) as H1.
      destruct (rewriteRule sels r) as [s1 r1]. destruct (IH r1) as [H2 H3].
      destruct (rewriteMediaRules rest r1) as [rest1 r2]. simpl in *.
      split; [eapply sameScript_trans; eassumption | now constructor].
    + destruct (IH r) as [H2 H3]. destruct (rewriteMediaRules rest r) as [rest1 r2].
      simpl in *. split; [assumption | now constructor].
    + destruct (IH r) as [H2 H3]. destruct (rewriteMediaRules rest r) as [rest1 r2].
      simpl in *. split; [assumption | now constructor].
Qed.

Lemma rewriteRules_script (nodes : list cssNode) :
  forall r,
    sameScript r (snd (rewriteRules nodes r)) /\
    Forall2 sameShape nodes (fst (rewriteRules nodes r)).
Proof.
  induction nodes as [|node rest IH]; intros r; simpl.
  - split; [apply sameScript_refl | constructor].
  - destruct node as [sels|nested|t].
    + pose proof (rewriteRule_script sels r) as H1.
      destruct (rewriteRule sels r) as [s1 r1]. destruct (IH r1) as [H2 H3].
      destruct (rewriteRules rest r1) as [rest1 r2]. simpl in *.
      split; [eapply sameScript_trans; eassumption | now constructor].
    + destruct (rewriteMediaRules_script nested r) as [H1 H1'].
      destruct (rewriteMediaRules nested r) as [n1 r1]. destruct (IH r1) as [H2 H3].
      destruct (rewriteRules rest r1) as [rest1 r2]. simpl in *.
      split; [eapply sameScript_trans; eassumption | now constructor].
    + destruct (IH r) as [H2 H3]. destruct (rewriteRules rest r) as [rest1 r2].
      simpl in *. split; [assumption | now constructor].
Qed.

(** [generateCss] never restructures the stylesheet: the result has the
    same nodes in the same order, inside media blocks too, and differs from
    what came in at most in the selector lists of style rules. *)
Theorem generateCss_keeps_shape (r : Replacer) :
  Forall2 sameShape (rules r) (rules (generateCss r)).
Proof.
  unfold generateCss. destruct (rewriteRules_script (rules r) r) as [_ H].
  now destruct (rewriteRules (rules r) r).
Qed.

(** [generateCss] leaves the script, the pending key, the stylesheet text,
    the configuration and the catalog alone: the script can be printed
    before or after the stylesheet with the same result. *)
Theorem generateCss_keeps_script (r : Replacer) :
  generateJs (generateCss r) = generateJs r /\
  key (generateCss r) = key r /\
  cssText (generateCss r) = cssText r /\
  config (generateCss r) = config r /\
  classes (generateCss r) = classes r.
Proof.
  unfold generateCss, generateJs. destruct (rewriteRules_script (rules r) r) as [H _].
  destruct (rewriteRules (rules r) r) as [nodes r']. exact H.
Qed.

Lemma rewriteSelectors_pure (re : Re.pattern) (selectors : list string) :
  forall r, snd (rewriteSelectors re false selectors r) = r.
Proof.
  induction selectors as [|sel rest IH]; intros r; simpl; [reflexivity|].
  destruct (Str.truthy sel); [|reflexivity].
  rewrite rewriteSelector_pure. specialize (IH r).
  now destruct (rewriteSelectors re false rest r).
Qed.

Lemma rewriteRule_pure (selectors : list string) (r : Replacer) :
  ruleHasNot selectors = false -> snd (rewriteRule selectors r) = r.
Proof.
  unfold ruleHasNot, rewriteRule. intros ->.
  pose proof (rewriteSelectors_pure (generateCssClsRegExp (config r)) selectors r) as H.
  now destruct (rewriteSelectors _ false selectors r).
Qed.

(** Without [:not] in any rule [generateCss] makes no token: the table and
    the counter stay as the run left them, and only the rule tree changes. *)
Theorem generateCss_without_not (r : Replacer) :
  existsb nodeHasNot (rules r) = false ->
  generateCss r = setRules (rules (generateCss r)) r.
Proof.
  intros Hno. unfold generateCss.
  assert (H : forall nodes r0, existsb nodeHasNot nodes = false ->
                snd (rewriteRules nodes r0) = r0).
  { induction nodes as [|node rest IH]; intros r0 Hn; simpl; [reflexivity|].
    simpl in Hn. apply orb_false_iff in Hn as [Hnode Hrest].
    destruct node as [sels|nested|t].
    - pose proof (rewriteRule_pure sels r0 Hnode) as H1.
      destruct (rewriteRule sels r0) as [s1 r1]. simpl in H1. subst r1.
      specialize (IH r0 Hrest). now destruct (rewriteRules rest r0).
    - assert (H1 : snd (rewriteMediaRules nested r0) = r0).
      { clear -Hnode. simpl in Hnode. revert r0.
        induction nested as [|n nested IHn]; intros r0; simpl; [reflexivity|].
        simpl in Hnode. apply orb_false_iff in Hnode as [Hn Hrest].
        destruct n as [sels|nn|t].
        - pose proof (rewriteRule_pure sels r0 Hn) as H1.
          destruct (rewriteRule sels r0) as [s1 r1]. simpl in H1. subst r1.
          specialize (IHn Hrest r0). now destruct (rewriteMediaRules nested r0).
        - specialize (IHn Hrest r0). now destruct (rewriteMediaRules nested r0).
        - specialize (IHn Hrest r0). now destruct (rewriteMediaRules nested r0). }
      destruct (rewriteMediaRules nested r0) as [n1 r1]. simpl in H1. subst r1.
      specialize (IH r0 Hrest). now destruct (rewriteRules rest r0).
    - specialize (IH r0 Hrest). now destruct (rewriteRules rest r0). }
  specialize (H (rules r) r Hno).
  destruct (rewriteRules (rules r) r) as [nodes r']. simpl in H. now subst r'.
Qed.

Lemma generateCss_without_not_witness :
  let r := run defaultConfig ".foo{}.bar{}" [Rule [".foo"]; Media [Rule [".bar"]]]
             [Literal (VString "foo")] in
  rules (generateCss r) = [Rule ["._"]; Media [Rule []]] /\
  generateCss r = setRules (rules (generateCss r)) r.
Proof.
  cbv zeta. split; [vm_compute; reflexivity|].
  apply (generateCss_without_not
           (run defaultConfig ".foo{}.bar{}" [Rule [".foo"]; Media [Rule [".bar"]]]
              [Literal (VString "foo")])).
  vm_compute. reflexivity.
Defined.

Lemma rewriteSelector_literals (hasNot : bool) (s : string) (r : Replacer) :
  rewriteSelector hasNot (literals s) r = (s, r).
Proof. induction s as [|c s IH]; simpl; [reflexivity | now rewrite IH]. Qed.

(** With a prefix made of class-name characters (or none), a rule whose
    selectors are non-empty, refer to no class that the class expression
    looks for (none contains a dot followed by the prefix) and do not
    contain the text [undefined] is left exactly as it is, with or without
    [:not], and the engine's state too. *)
Theorem rule_without_classes_unchanged (selectors : list string) (r : Replacer) :
  let lit := from_option id "" (activePrefix (config r)) in
  Str.all Char.isCls lit = true ->
  Forall (fun s => Str.truthy s = true /\ Str.contains (String "." lit) s = false /\
                   unresolved s = false) selectors ->
  rewriteRule selectors r = (selectors, r).
Proof.
  cbv zeta. intros _ Hall. unfold rewriteRule.
  assert (Hre : generateCssClsRegExp (config r)
                = clsAfter (String "." (from_option id "" (activePrefix (config r)))))
    by (unfold generateCssClsRegExp; now destruct (activePrefix (config r))).
  rewrite Hre.
  set (lit := String "." (from_option id "" (activePrefix (config r)))) in *.
  assert (H : forall hasNot, rewriteSelectors (clsAfter lit) hasNot selectors r = (selectors, r)).
  { intros hasNot. induction Hall as [|s sels (Ht & Hc & Hu) _ IH]; simpl; [reflexivity|].
    rewrite Ht. unfold Re.segments.
    rewrite (scan_silent _ _ (clsAfter_silent _ _ Hc)), rewriteSelector_literals, IH.
    now rewrite Hu. }
  rewrite H. now rewrite Nat.eqb_refl.
Qed.

Lemma rule_without_classes_unchanged_witness :
  let cfg := {| prefix := Some "d-"; replaceVeto := emptyFn; replaceAllFlag := false |} in
  let r := run cfg ".d-btn{}.other,div > p:not(#x){}"
             [Rule [".d-btn"]; Rule [".other"; "div > p:not(#x)"]]
             [Literal (VString "d-btn")] in
  rewriteRule [".other"; "div > p:not(#x)"] r = ([".other"; "div > p:not(#x)"], r).
Proof.
  cbv zeta.
  apply (rule_without_classes_unchanged [".other"; "div > p:not(#x)"]
           (run {| prefix := Some "d-"; replaceVeto := emptyFn; replaceAllFlag := false |}
              ".d-btn{}.other,div > p:not(#x){}"
              [Rule [".d-btn"]; Rule [".other"; "div > p:not(#x)"]]
              [Literal (VString "d-btn")])).
  - reflexivity.
  - repeat constructor.
Defined.

Lemma run_all (f : ascii -> bool) (s : string) :
  Str.all f s = true -> Re.run f s = String.length s.
Proof.
  induction s as [|c s IH]; simpl; [reflexivity|].
  rewrite andb_true_iff. intros [-> Hs]. now rewrite IH.
Qed.

Lemma take_all (s : string) : Str.take (String.length s) s = s.
Proof. induction s as [|c s IH]; [reflexivity|]. cbn [String.length]. now rewrite take_S, IH. Qed.

Lemma drop_app (a b : string) : Str.drop (String.length a) (a ++ b) = b.
Proof. induction a as [|c a IH]; [reflexivity | exact IH]. Qed.

Lemma scan_skip_all (p : Re.pattern) (s : string) :
  (forall prev, p prev "" = None) ->
  forall prev, s <> "" -> Re.scan p prev (String.length s) s = [].
Proof.
  intros Hp. induction s as [|c s IH]; intros prev Hne; [congruence|].
  simpl. destruct s as [|d s]; [simpl; now rewrite Hp|].
  apply IH. discriminate.
Qed.

Lemma contains_not_cls (s : string) :
  Str.all (fun c => Char.isCls c || Char.isChar "." c) s = true ->
  Str.contains ":not" s = false.
Proof.
  induction s as [|c s IH]; [reflexivity|].
  change (Str.all (fun c => Char.isCls c || Char.isChar "." c) (String c s))
    with ((Char.isCls c || Char.isChar "." c)
          && Str.all (fun c => Char.isCls c || Char.isChar "." c) s).
  change (Str.contains ":not" (String c s))
    with (((Char.code ":" =? Char.code c) && Str.startsWith "not" s)
          || Str.contains ":not" s).
  rewrite andb_true_iff. intros [Hc Hs]. rewrite (IH Hs), orb_false_r.
  destruct (N.eqb_spec (Char.code ":") (Char.code c)) as [Heq|]; [|reflexivity].
  exfalso. revert Hc.
  unfold Char.isCls, Char.isDigit, Char.isLower, Char.isUpper, Char.isChar, Char.between.
  rewrite <- Heq. vm_compute. discriminate.
Qed.

(** The one selector [.name] of a class name is scanned as one match. *)
Lemma segments_simple_selector (lit w : string) :
  Str.all Char.isCls w = true -> w <> "" ->
  Re.segments (clsAfter (String "." lit)) (String "." (lit ++ w))
  = [Re.Hit (String "." (lit ++ w))].
Proof.
  intros Hw Hne. unfold Re.segments.
  assert (Hp : clsAfter (String "." lit) None (String "." (lit ++ w))
               = Some (S (String.length (lit ++ w)))).
  { unfold clsAfter.
    change (String "." (lit ++ w)) with (String "." lit ++ w).
    rewrite startsWith_app, drop_app, (run_all _ _ Hw).
    destruct w as [|c w]; [congruence|]. cbn [String.length].
    rewrite length_app_string. cbn [String.length]. f_equal; lia. }
  cbn [Re.scan]. rewrite Hp. f_equal.
  - f_equal. rewrite take_S. f_equal. apply take_all.
  - apply scan_skip_all; [reflexivity|]. destruct lit; [assumption | discriminate].
Qed.

(** Both documents get the same token: a class name that has the token [t]
    in the table is rewritten to [.t] where it stands alone as a selector
    (unless the token happens to contain the text [undefined]), and the
    engine's state stays as it is. *)
Theorem same_token_in_stylesheet (r : Replacer) (w t : string) :
  let lit := from_option id "" (activePrefix (config r)) in
  Str.all Char.isCls lit = true ->
  Str.all Char.isCls w = true -> w <> "" ->
  items r !! (lit ++ w) = Some t ->
  unresolved (String "." t) = false ->
  rewriteRule [String "." (lit ++ w)] r = ([String "." t], r).
Proof.
  cbv zeta. intros Hlit Hw Hne Ht Hu. unfold rewriteRule.
  assert (Hre : generateCssClsRegExp (config r)
                = clsAfter (String "." (from_option id "" (activePrefix (config r)))))
    by (unfold generateCssClsRegExp; now destruct (activePrefix (config r))).
  rewrite Hre. set (lit := from_option id "" (activePrefix (config r))) in *.
  assert (Hnot : Str.contains ":not" (Str.join " " [String "." (lit ++ w)]) = false).
  { apply contains_not_cls. simpl. rewrite all_app. apply andb_true_iff. split.
    - eapply all_impl; [|exact Hlit]. intros c ->. reflexivity.
    - eapply all_impl; [|exact Hw]. intros c ->. reflexivity. }
  rewrite Hnot. cbn [rewriteSelectors Str.truthy].
  rewrite (segments_simple_selector lit w Hw Hne), rewriteSelector_pure.
  cbn [substitute Str.removeFirstDot]. change (Char.isChar "." ".") with true. cbv iota.
  unfold getItem. rewrite Ht. cbn [toStr]. rewrite append_nil_r.
  change ("." ++ t) with (String "." t). rewrite Hu. reflexivity.
Qed.

Lemma same_token_in_stylesheet_witness :
  let r := run defaultConfig ".foo{}.bar{}" [Rule [".foo"]; Rule [".bar"]]
             [Literal (VString "bar foo")] in
  generateJs r = [Literal (VString "_ a")] /\
  rewriteRule [".foo"] r = ([".a"], r).
Proof.
  cbv zeta. split; [vm_compute; reflexivity|].
  apply (same_token_in_stylesheet
           (run defaultConfig ".foo{}.bar{}" [Rule [".foo"]; Rule [".bar"]]
              [Literal (VString "bar foo")]) "foo" "a").
  - reflexivity.
  - reflexivity.
  - discriminate.
  - vm_compute. reflexivity.
  - reflexivity.
Defined.

(** ** The pipeline adapter *)

Section PluginProofs.

Variable parseCss : string -> option (list cssNode).
Variable parseJs : string -> option (list jsNode).
Variable stringifyCss : list cssNode -> string.
Variable printJs : list jsNode -> string.

Lemma transform_fixed (config : Options) (fs : gmap string string) (p q : string) :
  is_Some (cssIn config) ->
  transform parseCss parseJs stringifyCss printJs config fs p =
  transform parseCss parseJs stringifyCss printJs config fs q.
Proof.
  intros [c Hc]. unfold transform, withCssIn. rewrite Hc. reflexivity.
Qed.

Lemma transform_sets_cssIn (config config' : Options) (fs fs' : gmap string string)
    (p out : string) :
  transform parseCss parseJs stringifyCss printJs config fs p = Some (config', fs', out) ->
  cssIn config' = Some (from_option id p (cssIn config)).
Proof.
  unfold transform. destruct (fs !! _); [|discriminate]. destruct (fs !! _); [|discriminate].
  destruct (parseCss _); [|discriminate]. destruct (parseJs _); [|discriminate].
  now intros [= <- _ _].
Qed.

Lemma pipe_fixed (config : Options) (fs : gmap string string) (ps qs : list string) :
  is_Some (cssIn config) -> length ps = length qs ->
  pipe parseCss parseJs stringifyCss printJs config fs ps =
  pipe parseCss parseJs stringifyCss printJs config fs qs.
Proof.
  revert config fs qs. induction ps as [|p ps IH]; intros config fs [|q qs] Hc Hlen;
    try discriminate; [reflexivity|].
  simpl. rewrite (transform_fixed config fs p q Hc).
  destruct (transform parseCss parseJs stringifyCss printJs config fs q)
    as [[[config' fs'] out]|] eqn:Ht; [|reflexivity].
  rewrite (IH config' fs' qs); [reflexivity | | now injection Hlen].
  rewrite (transform_sets_cssIn _ _ _ _ _ _ Ht). eauto.
Qed.

End PluginProofs.

(** The transform assigns the merged options to the variable it closes
    over, so the stylesheet path of the first file stays: whatever files
    come after the first, the stream reads the same stylesheet again, and
    what it hands on and writes does not depend on which files they are. *)
Theorem later_files_ignored (parseCss : string -> option (list cssNode))
    (parseJs : string -> option (list jsNode)) (stringifyCss : list cssNode -> string)
    (printJs : list jsNode -> string) (config : Options) (fs : gmap string string)
    (first : string) (rest rest' : list string) :
  length rest = length rest' ->
  pipe parseCss parseJs stringifyCss printJs config fs (first :: rest) =
  pipe parseCss parseJs stringifyCss printJs config fs (first :: rest').
Proof.
  intros Hlen. simpl.
  destruct (transform parseCss parseJs stringifyCss printJs config fs first)
    as [[[config' fs'] out]|] eqn:Ht; [|reflexivity].
  rewrite (pipe_fixed _ _ _ _ config' fs' rest rest'); [reflexivity | | exact Hlen].
  rewrite (transform_sets_cssIn _ _ _ _ _ _ _ _ _ _ Ht). eauto.
Qed.

(** Two stylesheets in one stream: the second file is rewritten from the
    first one's stylesheet. (The parsers here read a file as one selector
    and one string literal.) *)
Lemma later_files_ignored_witness :
  let parseCss := fun css : string => Some [Rule [css]] in
  let parseJs := fun js : string => Some [Literal (VString js)] in
  let stringifyCss :=
    fun nodes : list cssNode =>
      match nodes with
      | [Rule [selector]] => selector
      | _ => ""
      end in
  let printJs :=
    fun nodes : list jsNode =>
      match nodes with
      | [Literal (VString value)] => value
      | _ => ""
      end in
  let config := {| cssIn := None; jsIn := "in.js"; jsOut := "out.js";
                   engine := defaultConfig |} in
  let fs : gmap string string :=
    <["a.css" := ".a"]> (<["b.css" := ".b .a"]> (<["in.js" := "a b"]> ∅)) in
  snd <$> pipe parseCss parseJs stringifyCss printJs config fs ["a.css"; "b.css"]
    = Some ["._"; "._"] /\
  snd <$> pipe parseCss parseJs stringifyCss printJs config fs ["b.css"]
    = Some [".a ._"] /\
  pipe parseCss parseJs stringifyCss printJs config fs ["a.css"; "b.css"] =
  pipe parseCss parseJs stringifyCss printJs config fs ["a.css"; "a.css"].
Proof.
  cbv zeta. split; [vm_compute; reflexivity|]. split; [vm_compute; reflexivity|].
  apply later_files_ignored. reflexivity.
Defined.
